(** * A buddy allocator over one mmap'ed arena (src/lab.c)

    Shallow embedding of [btok], [buddy_calc], [buddy_malloc], [buddy_free],
    [buddy_realloc], [buddy_init] and [buddy_destroy], the properties the
    specification states about them (C1 to C10), and further properties
    read off the code (X1, X2, ...).  [myMain] only prints a line and
    returns 0; it is not embedded.

    Conventions of the embedding.
    - [size_t] and [unsigned long] are 64-bit (LP64); their arithmetic is
      written with [wrap].
    - A [struct avail *] is a [ptr]: [NULL], the address of a sentinel
      [&pool->avail[i]], or an address inside the arena.
    - Arena memory is kept at header granularity: a finite map from the
      address of a header to the [struct avail] stored there, where an
      address never written reads as zero-filled memory, as mmap hands it
      out.  Payload bytes live in a separate map.  The code reads and
      writes headers at the starts of blocks only; these lie at multiples
      of [2^SMALLEST_K] from the base, where header slots do not overlap,
      and statements about headers are made at such addresses.  The two
      maps agree with flat memory as long as no payload write runs over
      the header of a block in use; [memcpy] in [buddy_realloc] does so
      only when the size and a header do not fit 64 bits; the statements
      that follow headers through [buddy_realloc] ask that they fit.
    - An access outside the arena or outside the sentinel array, a shift
      by 64 or more, and a [memcpy] between regions that overlap have no
      defined behaviour in C: the embedding returns [None] there.
    - Of the calls to the system, [mmap] and [munmap] are recorded.  The
      line [perror] prints when [mmap] fails, and what [mmap] and [perror]
      leave in [errno], are not part of the embedding. *)

From Stdlib Require Import ZArith Lia.
From stdpp Require Import base numbers option list functions gmap.

Local Open Scope Z_scope.

(** ** The constants of lab.h

    lab.h is not part of the sources at hand: its macros and the size of
    [struct avail] are parameters of the development.  The fields [tag]
    and [kval] of [struct avail] are taken wide enough for the three tags
    and for every order below [MAX_K]. *)

Class LabH := {
  SMALLEST_K : Z;
  MIN_K : Z;
  MAX_K : Z;
  DEFAULT_K : Z;
  sizeof_avail : Z;
  BLOCK_AVAIL : Z;
  BLOCK_RESERVED : Z;
  BLOCK_UNUSED : Z
}.

(** The values these constants customarily have in this lab (a 24-byte
    header on LP64); they serve for concrete runs only, the general
    statements hold for all constants that satisfy [lab_h_sane]. *)
Definition lab_h : LabH := {|
  SMALLEST_K := 6;
  MIN_K := 20;
  MAX_K := 48;
  DEFAULT_K := 30;
  sizeof_avail := 24;
  BLOCK_AVAIL := 1;
  BLOCK_RESERVED := 0;
  BLOCK_UNUSED := 3
|}.

(** ** Machine integers *)

Definition wrap (z : Z) : Z := z mod 2 ^ 64.

Definition SIZE_MAX : Z := 2 ^ 64 - 1.

(** [1UL << k]; undefined for a shift count outside [0, 64). *)
Definition shl1 (k : Z) : option Z :=
  if (0 <=? k) && (k <? 64) then Some (Z.shiftl 1 k) else None.

(** ** Pointers, headers, the pool and the machine state *)

(** A [struct avail *] (and the [void *] handed to the caller). *)
Inductive ptr :=
  | NULL
  | Sentinel (i : Z)   (* &pool->avail[i] *)
  | Mem (a : Z).       (* an address in the mmap'ed arena *)

#[global] Instance ptr_eq_dec : EqDecision ptr.
Proof. solve_decision. Defined.

(** [struct avail]. *)
Record avail := mkAvail {
  tag : Z;
  kval : Z;
  next : ptr;
  prev : ptr
}.

(** What a header reads as in memory mmap has just zero-filled. *)
Definition zero_avail : avail := mkAvail 0 0 NULL NULL.

(** [struct buddy_pool]. *)
Record buddy_pool := mkPool {
  kval_m : Z;
  numbytes : Z;
  base : ptr;
  avail_ : list avail      (* struct avail avail[MAX_K] *)
}.

(** The calls of mmap and munmap, in order. *)
Inductive os_call :=
  | Mmap (len : Z) (res : option Z)   (* [None]: MAP_FAILED *)
  | Munmap (p : ptr) (len : Z).

(** The pool object, the arena it manages, [errno] and the calls of mmap
    and munmap issued so far. *)
Record state := mkState {
  pool : buddy_pool;
  heap : gmap Z avail;      (* headers in the arena, by address *)
  payload : Z -> Z;         (* the bytes of the arena, by address *)
  errno : Z;
  os_trace : list os_call
}.

(** The [struct buddy_pool *] argument of the interface: null, or the
    address of the pool of the state. *)
Inductive pool_ptr := NullPool | ThePool.

Definition ENOMEM : Z := 12.

Definition set_errno (e : Z) (st : state) : state :=
  mkState (pool st) (heap st) (payload st) e (os_trace st).

Definition set_pool (p : buddy_pool) (st : state) : state :=
  mkState p (heap st) (payload st) (errno st) (os_trace st).

Definition set_heap (h : gmap Z avail) (st : state) : state :=
  mkState (pool st) h (payload st) (errno st) (os_trace st).

Definition set_payload (f : Z -> Z) (st : state) : state :=
  mkState (pool st) (heap st) f (errno st) (os_trace st).

Definition log_os (c : os_call) (st : state) : state :=
  mkState (pool st) (heap st) (payload st) (errno st) (os_trace st ++ [c]).

Section Allocator.
Context {cfg : LabH}.

(** The header at address [a] lies inside the mapping. *)
Definition in_arena (p : buddy_pool) (a : Z) : bool :=
  match base p with
  | Mem b => (b <=? a) && (a + sizeof_avail <=? b + numbytes p)
  | _ => false
  end.

(** Reading [*p]. *)
Definition load (st : state) (p : ptr) : option avail :=
  match p with
  | NULL => None
  | Sentinel i =>
      if 0 <=? i then avail_ (pool st) !! Z.to_nat i else None
  | Mem a =>
      if in_arena (pool st) a then Some (default zero_avail (heap st !! a))
      else None
  end.

(** Writing [*p = h]. *)
Definition store (st : state) (p : ptr) (h : avail) : option state :=
  match p with
  | NULL => None
  | Sentinel i =>
      if (0 <=? i) && (i <? Z.of_nat (length (avail_ (pool st)))) then
        let pl := pool st in
        Some (set_pool (mkPool (kval_m pl) (numbytes pl) (base pl)
                               (<[Z.to_nat i := h]> (avail_ pl))) st)
      else None
  | Mem a =>
      if in_arena (pool st) a then Some (set_heap (<[a := h]> (heap st)) st)
      else None
  end.

(** [p->tag = v], [p->kval = v], [p->next = v], [p->prev = v]. *)
Definition set_tag (st : state) (p : ptr) (v : Z) : option state :=
  h ← load st p; store st p (mkAvail v (kval h) (next h) (prev h)).

Definition set_kval (st : state) (p : ptr) (v : Z) : option state :=
  h ← load st p; store st p (mkAvail (tag h) v (next h) (prev h)).

Definition set_next (st : state) (p : ptr) (v : ptr) : option state :=
  h ← load st p; store st p (mkAvail (tag h) (kval h) v (prev h)).

Definition set_prev (st : state) (p : ptr) (v : ptr) : option state :=
  h ← load st p; store st p (mkAvail (tag h) (kval h) (next h) v).

(** [(struct avail * )p + 1] and [(struct avail * )p - 1]. *)
Definition avail_succ (p : ptr) : option ptr :=
  match p with
  | NULL => None
  | Sentinel i => Some (Sentinel (i + 1))
  | Mem a => Some (Mem (a + sizeof_avail))
  end.

Definition avail_pred (p : ptr) : option ptr :=
  match p with
  | NULL => None
  | Sentinel i => Some (Sentinel (i - 1))
  | Mem a => Some (Mem (a - sizeof_avail))
  end.

(** [(char * )p + n], inside the arena only. *)
Definition byte_offset (p : ptr) (n : Z) : option ptr :=
  match p with
  | Mem a => Some (Mem (a + n))
  | _ => None
  end.

(** [p > q] on arena addresses. *)
Definition ptr_gt (p q : ptr) : bool :=
  match p, q with
  | Mem a, Mem a' => a' <? a
  | _, _ => false
  end.

(** ** btok *)

(** [while (temp >>= 1) k++;] on a 64-bit [temp]: at most 64 rounds. *)
Fixpoint btok_loop (rounds : nat) (temp k : Z) : Z :=
  match rounds with
  | O => k
  | S rounds' =>
      let temp' := Z.shiftr temp 1 in
      if temp' =? 0 then k else btok_loop rounds' temp' (k + 1)
  end.

Definition btok (bytes : Z) : Z :=
  if bytes =? 0 then 0
  else
    let bytes := wrap (bytes + sizeof_avail) in
    let temp := wrap (bytes - 1) in
    let k := btok_loop 64 temp 0 in
    let k := k + 1 in
    let k := if k <? SMALLEST_K then SMALLEST_K else k in
    let k := if MAX_K <=? k then MAX_K - 1 else k in
    k.

(** ** buddy_calc *)

Definition buddy_calc (st : state) (block : ptr) : option ptr :=
  match base (pool st), block with
  | Mem b, Mem a =>
      h ← load st block;
      let offset := wrap (a - b) in
      bit ← shl1 (kval h);
      let buddy_offset := Z.lxor offset bit in
      Some (Mem (b + buddy_offset))
  | _, _ => None
  end.

(** ** The two list operations the source writes inline *)

(** [node->prev->next = node->next; node->next->prev = node->prev;] *)
Definition unlink (st : state) (node : ptr) : option state :=
  h ← load st node;
  st ← set_next st (prev h) (next h);
  h ← load st node;
  set_prev st (next h) (prev h).

(** [node->next = avail[i].next; node->prev = &avail[i];
     avail[i].next->prev = node; avail[i].next = node;] *)
Definition push_front (st : state) (i : Z) (node : ptr) : option state :=
  s ← load st (Sentinel i);
  st ← set_next st node (next s);
  st ← set_prev st node (Sentinel i);
  s ← load st (Sentinel i);
  st ← set_prev st (next s) node;
  set_next st (Sentinel i) node.

(** ** buddy_malloc *)

(** [for (i = k; i <= pool->kval_m; i++) if (avail[i].next != &avail[i]) break;]
    with [n] the number of values of [i] still to try. *)
Fixpoint find_avail (n : nat) (st : state) (i : Z) : option Z :=
  match n with
  | O => Some i
  | S n' =>
      s ← load st (Sentinel i);
      if decide (next s ≠ Sentinel i) then Some i
      else find_avail n' st (i + 1)
  end.

(** [while (i > k) { i--; ... }] with [n = i - k]. *)
Fixpoint split (n : nat) (st : state) (block : ptr) (i : Z) : option state :=
  match n with
  | O => Some st
  | S n' =>
      let i := i - 1 in
      split_size ← shl1 i;
      buddy ← byte_offset block split_size;
      st ← set_tag st buddy BLOCK_AVAIL;
      st ← set_kval st buddy i;
      st ← push_front st i buddy;
      split n' st block i
  end.

Definition buddy_malloc (st : state) (pool_p : pool_ptr) (size : Z)
  : option (ptr * state) :=
  match pool_p with
  | NullPool => Some (NULL, st)
  | ThePool =>
      if size =? 0 then Some (NULL, st)
      else
        let k := btok size in
        let km := kval_m (pool st) in
        if km <? k then Some (NULL, set_errno ENOMEM st)
        else
          i ← find_avail (Z.to_nat (km + 1 - k)) st k;
          if km <? i then Some (NULL, set_errno ENOMEM st)
          else
            s ← load st (Sentinel i);
            let block := next s in
            st ← unlink st block;
            st ← split (Z.to_nat (i - k)) st block i;
            st ← set_tag st block BLOCK_RESERVED;
            st ← set_kval st block k;
            p ← avail_succ block;
            Some (p, st)
  end.

(** ** buddy_free *)

(** One round of the coalescing loop: [None] is the [break]. *)
Definition coalesce_body (st : state) (block : ptr) (k : Z)
  : option (option (state * ptr * Z)) :=
  buddy ← buddy_calc st block;
  hb ← load st buddy;
  if decide (tag hb ≠ BLOCK_AVAIL ∨ kval hb ≠ k) then Some None
  else
    st ← unlink st buddy;
    let block := if ptr_gt block buddy then buddy else block in
    let k := k + 1 in
    st ← set_kval st block k;
    Some (Some (st, block, k)).

(** [while (k < pool->kval_m) { ... }] with [n = kval_m - k]. *)
Fixpoint coalesce (n : nat) (st : state) (block : ptr) (k : Z)
  : option (state * ptr * Z) :=
  match n with
  | O => Some (st, block, k)
  | S n' =>
      r ← coalesce_body st block k;
      match r with
      | None => Some (st, block, k)
      | Some (st', block', k') => coalesce n' st' block' k'
      end
  end.

Definition buddy_free (st : state) (pool_p : pool_ptr) (p : ptr)
  : option state :=
  match pool_p, p with
  | NullPool, _ => Some st
  | _, NULL => Some st
  | ThePool, _ =>
      block ← avail_pred p;
      h ← load st block;
      let k := kval h in
      st ← set_tag st block BLOCK_AVAIL;
      '(st, block, k) ← coalesce (Z.to_nat (kval_m (pool st) - k)) st block k;
      push_front st k block
  end.

(** ** buddy_realloc *)

(** [memcpy(dst, src, n)] between two regions of the arena: undefined when
    a region leaves the mapping or when the two overlap.  The bytes are
    written to the payload map; no header is rewritten, which is what the
    code does as long as the destination lies within the payload of one
    block. *)
Definition memcpy (st : state) (dst src : ptr) (n : Z) : option state :=
  match base (pool st), dst, src with
  | Mem b, Mem d, Mem s =>
      let top := b + numbytes (pool st) in
      if (b <=? d) && (d + n <=? top) && (b <=? s) && (s + n <=? top)
         && ((d + n <=? s) || (s + n <=? d)) then
        Some (set_payload
                (fun x => if (d <=? x) && (x <? d + n)
                          then payload st (x - d + s) else payload st x) st)
      else None
  | _, _, _ => None
  end.

Definition buddy_realloc (st : state) (pool_p : pool_ptr) (p : ptr) (size : Z)
  : option (ptr * state) :=
  if decide (p = NULL) then buddy_malloc st pool_p size
  else if size =? 0 then
    st ← buddy_free st pool_p p; Some (NULL, st)
  else
    block ← avail_pred p;
    h ← load st block;
    bsz ← shl1 (kval h);
    let old_size := wrap (bsz - sizeof_avail) in
    let new_size := size in
    if new_size <=? old_size then Some (p, st)
    else
      '(new_ptr, st) ← buddy_malloc st pool_p size;
      if decide (new_ptr = NULL) then Some (NULL, st)
      else
        st ← memcpy st new_ptr p old_size;
        st ← buddy_free st pool_p p;
        Some (new_ptr, st).

(** ** buddy_init *)

(** [for (i = 0; i < MAX_K; i++) { avail[i] = {BLOCK_UNUSED, i, &avail[i],
    &avail[i]}; }] with [n = MAX_K - i]. *)
Fixpoint init_avail (n : nat) (st : state) (i : Z) : option state :=
  match n with
  | O => Some st
  | S n' =>
      st ← store st (Sentinel i)
             (mkAvail BLOCK_UNUSED i (Sentinel i) (Sentinel i));
      init_avail n' st (i + 1)
  end.

(** The value [buddy_init] gives [pool->kval_m] for a requested [size]. *)
Definition init_kval (size : Z) : Z :=
  if size =? 0 then DEFAULT_K
  else
    let k := btok size in
    let k := if k <? MIN_K then MIN_K else k in
    let k := if MAX_K <=? k then MAX_K - 1 else k in
    k.

(** [mmap_res] is what mmap answers: [None] for MAP_FAILED, or the address
    of a fresh zero-filled mapping.  On MAP_FAILED the code also calls
    [perror]; the line it prints and the value of [errno] after the call
    are not embedded: [errno] is left as it was. *)
Definition buddy_init (st : state) (size : Z) (mmap_res : option Z)
  : option state :=
  let kv := init_kval size in
  nb ← shl1 kv;
  let st := log_os (Mmap nb mmap_res) st in
  match mmap_res with
  | None =>
      Some (set_pool (mkPool kv nb NULL (avail_ (pool st))) st)
  | Some b =>
      let st := set_pool (mkPool kv nb (Mem b) (avail_ (pool st))) st in
      let st := set_payload (fun _ => 0) (set_heap ∅ st) in
      st ← init_avail (Z.to_nat MAX_K) st 0;
      let initial_block := Mem b in
      st ← set_tag st initial_block BLOCK_AVAIL;
      st ← set_kval st initial_block kv;
      st ← set_next st initial_block (Sentinel kv);
      st ← set_prev st initial_block (Sentinel kv);
      st ← set_next st (Sentinel kv) initial_block;
      set_prev st (Sentinel kv) initial_block
  end.

(** ** buddy_destroy *)

Definition buddy_destroy (st : state) (pool_p : pool_ptr) : state :=
  match pool_p with
  | NullPool => st
  | ThePool =>
      match base (pool st) with
      | NULL => st
      | b =>
          let pl := pool st in
          let st := log_os (Munmap b (numbytes pl)) st in
          set_pool (mkPool (kval_m pl) (numbytes pl) NULL (avail_ pl)) st
      end
  end.

End Allocator.

(** ** Vocabulary of the statements *)

Section Vocabulary.
Context {cfg : LabH}.

(** Everything of the state but the headers: the pool's scalar fields, the
    payload bytes, [errno] and the calls of mmap and munmap. *)
Definition same_frame (st st' : state) : Prop :=
  kval_m (pool st') = kval_m (pool st) /\
  numbytes (pool st') = numbytes (pool st) /\
  base (pool st') = base (pool st) /\
  length (avail_ (pool st')) = length (avail_ (pool st)) /\
  payload st' = payload st /\
  errno st' = errno st /\
  os_trace st' = os_trace st.

(** [st'] is [st] with the header at [p] replaced by [f] of it. *)
Definition updates (st : state) (p : ptr) (f : avail -> avail) (st' : state)
  : Prop :=
  (exists h, load st p = Some h) /\
  (forall q, load st' q = if decide (q = p) then f <$> load st q
                          else load st q) /\
  same_frame st st'.

Definition with_tag (v : Z) (h : avail) : avail :=
  mkAvail v (kval h) (next h) (prev h).
Definition with_kval (v : Z) (h : avail) : avail :=
  mkAvail (tag h) v (next h) (prev h).
Definition with_next (v : ptr) (h : avail) : avail :=
  mkAvail (tag h) (kval h) v (prev h).
Definition with_prev (v : ptr) (h : avail) : avail :=
  mkAvail (tag h) (kval h) (next h) v.

End Vocabulary.

(** ** Well-formed constants, lists and arenas *)

Section Invariant.
Context {cfg : LabH}.

(** What the allocator needs of lab.h: the orders are nested and fit a
    64-bit shift, a header fits the smallest block, and a free block can be
    told from a reserved one. *)
Record lab_h_sane : Prop := {
  sane_smallest : 0 <= SMALLEST_K;
  sane_min : SMALLEST_K <= MIN_K;
  sane_max : MIN_K <= MAX_K - 1;
  sane_default : SMALLEST_K <= DEFAULT_K <= MAX_K - 1;
  sane_word : MAX_K <= 64;
  sane_header : 0 < sizeof_avail <= 2 ^ SMALLEST_K;
  sane_tags : BLOCK_AVAIL <> BLOCK_RESERVED
}.

(** The fields of the header at [p], when it can be read. *)
Definition nextp (st : state) (p : ptr) : option ptr := next <$> load st p.
Definition prevp (st : state) (p : ptr) : option ptr := prev <$> load st p.
Definition meta (st : state) (p : ptr) : option (Z * Z) :=
  (fun h => (tag h, kval h)) <$> load st p.

(** [p->next == q] and [q->prev == p]. *)
Definition link (st : state) (p q : ptr) : Prop :=
  nextp st p = Some q /\ prevp st q = Some p.

(** The node before [x] in the run [p, l, x] and the node after it in the
    run [x, l, q]. *)
Definition last_ptr (p : ptr) (l : list Z) : ptr :=
  match last l with Some a => Mem a | None => p end.
Definition head_ptr (l : list Z) (q : ptr) : ptr :=
  match l with a :: _ => Mem a | [] => q end.

(** The doubly linked run from [p] through the headers at [l] to [q]. *)
Fixpoint chain (st : state) (p : ptr) (l : list Z) (q : ptr) : Prop :=
  match l with
  | [] => link st p q
  | a :: l' => link st p (Mem a) /\ chain st (Mem a) l' q
  end.

(** The circular list of order [i] holds exactly the blocks at [l], first
    to last. *)
Definition free_list (st : state) (i : Z) (l : list Z) : Prop :=
  chain st (Sentinel i) l (Sentinel i).

(** The header at address [a] carries tag [t] and order [k]. *)
Definition hdr_is (st : state) (a t k : Z) : Prop :=
  meta st (Mem a) = Some (t, k).

Definition arena_base (st : state) : Z :=
  match base (pool st) with Mem b => b | _ => 0 end.

(** The block at [a] of order [k] starts at a multiple of its size from
    the base [b]. *)
Definition aligned (b a k : Z) : Prop := (a - b) mod 2 ^ k = 0.

(** Two blocks share a byte. *)
Definition overlap (a k a' k' : Z) : Prop :=
  a < a' + 2 ^ k' /\ a' < a + 2 ^ k.

(** The address [buddy_calc] computes for the block at [a] of order [k]. *)
Definition buddy_of (b a k : Z) : Z := b + Z.lxor (a - b) (2 ^ k).

(** The blocks that exist: the reserved ones [R], those on the free lists
    [F], and possibly one that an operation has in hand. *)
Definition live (F : Z -> list Z) (R : gset (Z * Z)) (held : option (Z * Z))
    (a k : Z) : Prop :=
  (a, k) ∈ R \/ (0 <= k < MAX_K /\ a ∈ F k) \/ held = Some (a, k).

(** Every byte of the arena [b, b + 2^m) belongs to exactly one block, and
    every block is aligned for its order. *)
Record tiles (b m : Z) (L : Z -> Z -> Prop) : Prop := {
  tiles_geom : forall a k, L a k ->
    SMALLEST_K <= k /\ aligned b a k /\ b <= a /\ a + 2 ^ k <= b + 2 ^ m;
  tiles_disj : forall a k a' k', L a k -> L a' k' ->
    overlap a k a' k' -> a = a' /\ k = k';
  tiles_cover : forall x, b <= x < b + 2 ^ m ->
    exists a k, L a k /\ a <= x < a + 2 ^ k
}.

(** The invariant of the allocator, also inside an operation, when a
    block [held] is off the lists and not yet handed out: the pool's scalar
    fields describe the mapping; the circular list of each order is the
    run [F i], without repetition; the headers of the blocks on the lists
    and of the reserved blocks carry their tag and order; and these blocks
    tile the arena. *)
Record arena_inv (st : state) (F : Z -> list Z) (R : gset (Z * Z))
    (held : option (Z * Z)) : Prop := {
  inv_base : base (pool st) = Mem (arena_base st) /\ 0 < arena_base st /\
             arena_base st + 2 ^ kval_m (pool st) <= 2 ^ 64;
  inv_numbytes : numbytes (pool st) = 2 ^ kval_m (pool st);
  inv_kval_m : 0 <= kval_m (pool st) < MAX_K;
  inv_avail : Z.of_nat (length (avail_ (pool st))) = MAX_K;
  inv_lists : forall i, 0 <= i < MAX_K -> free_list st i (F i);
  inv_nodup : forall i, 0 <= i < MAX_K -> NoDup (F i);
  inv_free : forall i a, 0 <= i < MAX_K -> a ∈ F i ->
             hdr_is st a BLOCK_AVAIL i;
  inv_reserved : forall a k, (a, k) ∈ R -> hdr_is st a BLOCK_RESERVED k;
  inv_held : forall a k, held = Some (a, k) -> ((a, k) ∉ R) /\ (a ∉ F k);
  inv_tiles : tiles (arena_base st) (kval_m (pool st)) (live F R held)
}.

(** The state between two calls of the interface: [F i] lists the blocks
    on the free list of order [i], [R] is the set of blocks handed out. *)
Definition arena_ok (st : state) (F : Z -> list Z) (R : gset (Z * Z)) : Prop :=
  arena_inv st F R None.

(** The bytes on the free lists, by the lists [F]. *)
Definition free_sum (F : Z -> list Z) : Z :=
  foldr (fun i acc => 2 ^ i * Z.of_nat (length (F i)) + acc) 0 (seqZ 0 MAX_K).

(** Following [next] from [p] until [stop] comes back. *)
Fixpoint walk (fuel : nat) (st : state) (stop p : ptr) : list ptr :=
  match fuel with
  | O => []
  | S fuel' =>
      if decide (p = stop) then []
      else match load st p with
           | Some h => p :: walk fuel' st stop (next h)
           | None => []
           end
  end.

(** The nodes on the free list of order [i], read off the state.  A list
    threads through distinct headers that were written, so it has at most
    as many nodes as the arena has headers. *)
Definition free_list_nodes (st : state) (i : Z) : list ptr :=
  match load st (Sentinel i) with
  | Some s => walk (S (size (heap st))) st (Sentinel i) (next s)
  | None => []
  end.

(** The arena's total free byte count. *)
Definition free_bytes (st : state) : Z :=
  foldr (fun i acc => 2 ^ i * Z.of_nat (length (free_list_nodes st i)) + acc)
        0 (seqZ 0 MAX_K).

(** The order recorded in the header in front of the payload pointer [p]. *)
Definition order_of (st : state) (p : ptr) : option Z :=
  block ← avail_pred p; h ← load st block; Some (kval h).

End Invariant.

(** The free lists right after [buddy_init]: one block, the whole arena,
    on the list of the top order. *)
Definition init_lists (kv b : Z) : Z -> list Z :=
  fun i => if decide (i = kv) then [b] else [].

(** ** The freeing algorithm in the words of the specification *)

Section FreeInWords.
Context {cfg : LabH}.

(** "While [k < maxOrder]: compute the buddy address at order [k] (XOR the
    block's arena-relative offset with [2^k]).  If the buddy is not Free or
    its order is not [k], stop.  Otherwise unlink the buddy from its free
    list, let the surviving block be whichever of the two has the lower
    address, increment [k], and continue with the surviving block."
    [n] is the number of orders left below [maxOrder]. *)
Fixpoint coalesce_in_words (n : nat) (st : state) (block k : Z)
  : option (state * Z * Z) :=
  match n with
  | O => Some (st, block, k)
  | S n' =>
      let buddy := buddy_of (arena_base st) block k in
      hb ← load st (Mem buddy);
      if decide (tag hb = BLOCK_AVAIL /\ kval hb = k) then
        st ← unlink st (Mem buddy);
        let survivor := Z.min block buddy in
        st ← set_kval st (Mem survivor) (k + 1);
        coalesce_in_words n' st survivor (k + 1)
      else Some (st, block, k)
  end.

(** "Recover the block header preceding the payload pointer; read its
    order [k].  Mark it Free.  [Coalesce.]  Insert the final block at the
    head of the free list for its final order."  [a] is the address of the
    header. *)
Definition free_in_words (st : state) (a : Z) : option state :=
  h ← load st (Mem a);
  st ← set_tag st (Mem a) BLOCK_AVAIL;
  '(st, block, k) ←
    coalesce_in_words (Z.to_nat (kval_m (pool st) - kval h)) st a (kval h);
  push_front st k (Mem block).

(** The rounds of the coalescing loop of [buddy_free] that a call goes
    through, from the state, block and order it enters the loop with. *)
Inductive coalesce_reaches (st0 : state) (a0 k0 : Z)
  : state -> Z -> Z -> Prop :=
  | reaches_entry : coalesce_reaches st0 a0 k0 st0 a0 k0
  | reaches_round st a k st' a' k' :
      coalesce_reaches st0 a0 k0 st a k ->
      k < kval_m (pool st) ->
      coalesce_body st (Mem a) k = Some (Some (st', Mem a', k')) ->
      coalesce_reaches st0 a0 k0 st' a' k'.

(** What every round of the coalescing loop finds: the pool as it was, the
    block [a] inside the arena [b, b + 2^km), and its header recording the
    order [k] the loop is at. *)
Definition coalesce_inv (b km : Z) (st : state) (a k : Z)
  : Prop :=
  base (pool st) = Mem b /\ kval_m (pool st) = km /\
  b <= a < b + 2 ^ km /\ 0 <= k /\
  exists h, load st (Mem a) = Some h /\ kval h = k.

End FreeInWords.

(** ** The states the interface produces *)

(** [arena_reachable st R]: [st] comes from a successful [buddy_init] by
    calls of [buddy_malloc], by calls of [buddy_free] on pointers that the
    pool handed out and that were not freed since, and by calls of
    [buddy_realloc] on such pointers; [R] holds, for each such pointer, the
    address of its header and its order.  ([buddy_realloc] with a null
    pointer is [buddy_malloc], and with size zero it is [buddy_free].)
    The sizes are not bounded here: these states serve for what does not
    depend on the headers, the mapping and the calls of mmap and munmap.
    What is stated about headers and lists is stated for [arena_in_use]
    below. *)
Inductive arena_reachable {cfg : LabH} : state -> gset (Z * Z) -> Prop :=
  | reach_init st size b st' :
      Z.of_nat (length (avail_ (pool st))) = MAX_K ->
      0 < b -> b + 2 ^ init_kval size <= 2 ^ 64 ->
      buddy_init st size (Some b) = Some st' ->
      arena_reachable st' ∅
  | reach_malloc st R size p st' :
      arena_reachable st R ->
      buddy_malloc st ThePool size = Some (p, st') ->
      arena_reachable st'
        (match p with
         | Mem q => {[(q - sizeof_avail, btok size)]} ∪ R
         | _ => R
         end)
  | reach_free st R a k st' :
      arena_reachable st R ->
      (a, k) ∈ R ->
      buddy_free st ThePool (Mem (a + sizeof_avail)) = Some st' ->
      arena_reachable st' (R ∖ {[(a, k)]})
  | reach_realloc st R a k size p st' :
      arena_reachable st R ->
      (a, k) ∈ R -> 0 < size ->
      buddy_realloc st ThePool (Mem (a + sizeof_avail)) size = Some (p, st') ->
      arena_reachable st'
        (match p with
         | Mem q =>
             if decide (q = a + sizeof_avail) then R
             else ({[(q - sizeof_avail, btok size)]} ∪ R) ∖ {[(a, k)]}
         | _ => R
         end).

(** [arena_in_use st R]: as [arena_reachable st R], with every size given
    to [buddy_realloc] such that the size and a header fit 64 bits.  For
    these sizes [memcpy] copies into the payload of the new block and
    nowhere else. *)
Inductive arena_in_use {cfg : LabH} : state -> gset (Z * Z) -> Prop :=
  | use_init st size b st' :
      Z.of_nat (length (avail_ (pool st))) = MAX_K ->
      0 < b -> b + 2 ^ init_kval size <= 2 ^ 64 ->
      buddy_init st size (Some b) = Some st' ->
      arena_in_use st' ∅
  | use_malloc st R size p st' :
      arena_in_use st R ->
      buddy_malloc st ThePool size = Some (p, st') ->
      arena_in_use st'
        (match p with
         | Mem q => {[(q - sizeof_avail, btok size)]} ∪ R
         | _ => R
         end)
  | use_free st R a k st' :
      arena_in_use st R ->
      (a, k) ∈ R ->
      buddy_free st ThePool (Mem (a + sizeof_avail)) = Some st' ->
      arena_in_use st' (R ∖ {[(a, k)]})
  | use_realloc st R a k size p st' :
      arena_in_use st R ->
      (a, k) ∈ R -> 0 < size -> size + sizeof_avail <= 2 ^ 64 ->
      buddy_realloc st ThePool (Mem (a + sizeof_avail)) size = Some (p, st') ->
      arena_in_use st'
        (match p with
         | Mem q =>
             if decide (q = a + sizeof_avail) then R
             else ({[(q - sizeof_avail, btok size)]} ∪ R) ∖ {[(a, k)]}
         | _ => R
         end).

(** The mapping and the calls of mmap and munmap are those of [st]. *)
Definition same_mapping (st st' : state) : Prop :=
  kval_m (pool st') = kval_m (pool st) /\
  numbytes (pool st') = numbytes (pool st) /\
  base (pool st') = base (pool st) /\
  os_trace st' = os_trace st.

(** ** Vocabulary for the effect of a call on the lists and the headers *)

Section Effects.
Context {cfg : LabH}.

(** No block on the free lists has its buddy on the same list: nothing is
    left to coalesce. *)
Definition coalesced (b m : Z) (F : Z -> list Z) : Prop :=
  forall k a, 0 <= k < m -> a ∈ F k -> buddy_of b a k ∉ F k.

(** The free lists once the block at [a] has been split from order [i]
    down to order [k]: the upper half of every split is put in front of
    the list of its order. *)
Definition split_lists (F : Z -> list Z) (a k i : Z) : Z -> list Z :=
  fun j => if decide (k <= j < i) then (a + 2 ^ j) :: F j else F j.

(** A header at [y] lies within a block of the free lists [F]. *)
Definition in_free_block (F : Z -> list Z) (y : Z) : Prop :=
  exists a k, 0 <= k < MAX_K /\ a ∈ F k /\
    a <= y /\ y + sizeof_avail <= a + 2 ^ k.

(** A header at [y] shares a byte with the block at [a] of order [k]. *)
Definition touches (y a k : Z) : Prop :=
  a - sizeof_avail < y < a + 2 ^ k.

End Effects.

(** The bytes of the blocks handed out. *)
Definition reserved_bytes (R : gset (Z * Z)) : Z :=
  set_fold (fun ak acc => 2 ^ ak.2 + acc) 0 R.

(** What holds between the calls of a pool's life, with [R] the blocks
    handed out: the arena is well formed, nothing is left to coalesce, and
    the free and the reserved bytes add up to the arena. *)
Definition history_inv {cfg : LabH} (st : state) (R : gset (Z * Z)) : Prop :=
  exists F, arena_ok st F R /\
    coalesced (arena_base st) (kval_m (pool st)) F /\
    free_sum F + reserved_bytes R = numbytes (pool st).

(** ** Concrete runs

    With the constants of [lab_h]: a pool object before [buddy_init], the
    arena [buddy_init(&pool, 1)] sets up when mmap answers address 4096,
    and that arena after [buddy_malloc(&pool, 100)] (and after further
    calls). *)

(** An untouched pool object: 48 sentinels' worth of zero bytes, nothing
    mapped. *)
Definition blank_state : state :=
  mkState (mkPool 0 0 NULL (replicate 48 zero_avail)) ∅ (fun _ => 0) 0 [].

Definition demo_arena : state :=
  Eval vm_compute in
    default blank_state (@buddy_init lab_h blank_state 1 (Some 4096)).

Definition demo_alloc : ptr * state :=
  Eval vm_compute in
    default (NULL, blank_state) (@buddy_malloc lab_h demo_arena ThePool 100).

(** The small arena once that block has been freed again. *)
Definition demo_freed : state :=
  Eval vm_compute in
    default blank_state
      (@buddy_free lab_h (snd demo_alloc) ThePool (fst demo_alloc)).

(** The small arena after two calls of [buddy_malloc(&pool, 100)]. *)
Definition demo_alloc2 : ptr * state :=
  Eval vm_compute in
    default (NULL, blank_state)
      (@buddy_malloc lab_h (snd demo_alloc) ThePool 100).

(** The first of these two blocks resized to 200 bytes,
    [buddy_realloc(&pool, p, 200)]: it moves. *)
Definition demo_moved : ptr * state :=
  Eval vm_compute in
    default (NULL, blank_state)
      (@buddy_realloc lab_h (snd demo_alloc2) ThePool (Mem 4120) 200).

(** The small arena with its lower half handed out,
    [buddy_malloc(&pool, 2^19 - 24)], and then one more block of the
    smallest order, [buddy_malloc(&pool, 1)]. *)
Definition demo_half : ptr * state :=
  Eval vm_compute in
    default (NULL, blank_state)
      (@buddy_malloc lab_h demo_arena ThePool (2 ^ 19 - 24)).

Definition demo_half2 : ptr * state :=
  Eval vm_compute in
    default (NULL, blank_state)
      (@buddy_malloc lab_h (snd demo_half) ThePool 1).

(** [buddy_malloc(&pool, SIZE_MAX)] after these two calls. *)
Definition demo_half3 : ptr * state :=
  Eval vm_compute in
    default (NULL, blank_state)
      (@buddy_malloc lab_h (snd demo_half2) ThePool SIZE_MAX).

(** [buddy_malloc(&pool, SIZE_MAX)] on the small arena. *)
Definition demo_huge : ptr * state :=
  Eval vm_compute in
    default (NULL, blank_state)
      (@buddy_malloc lab_h demo_arena ThePool SIZE_MAX).

(** ** Tactics *)

(** Unfolds the constants of [lab_h] so that [lia] sees numbers. *)
Ltac lab_h_consts :=
  cbv [SMALLEST_K MIN_K MAX_K DEFAULT_K sizeof_avail BLOCK_AVAIL
       BLOCK_RESERVED BLOCK_UNUSED lab_h] in *.

(** Brings the facts about the constants of lab.h into the context. *)
Ltac use_sane H :=
  pose proof (sane_smallest H); pose proof (sane_min H);
  pose proof (sane_max H); pose proof (sane_default H);
  pose proof (sane_word H); pose proof (sane_header H);
  pose proof (sane_tags H).

(** ** Facts about [wrap], [shl1] and the shift loop *)

Lemma wrap_small z : 0 <= z < 2 ^ 64 -> wrap z = z.
Proof. intros H. unfold wrap. apply Z.mod_small. exact H. Qed.

Lemma wrap_range z : 0 <= wrap z < 2 ^ 64.
Proof. unfold wrap. apply Z.mod_pos_bound. lia. Qed.

Lemma shl1_Some k p : shl1 k = Some p -> 0 <= k < 64 /\ p = 2 ^ k.
Proof.
  unfold shl1. destruct (0 <=? k) eqn:H0; simpl; [|discriminate].
  destruct (k <? 64) eqn:H1; [|discriminate].
  intros [= <-]. apply Z.leb_le in H0. apply Z.ltb_lt in H1.
  split; [lia|]. rewrite Z.shiftl_1_l. reflexivity.
Qed.

Lemma shl1_pow k : 0 <= k < 64 -> shl1 k = Some (2 ^ k).
Proof.
  intros [H0 H1]. unfold shl1.
  apply Z.leb_le in H0. apply Z.ltb_lt in H1. rewrite H0, H1. simpl.
  rewrite Z.shiftl_1_l. reflexivity.
Qed.

Lemma pow2_le_mono a b : 0 <= a <= b -> 2 ^ a <= 2 ^ b.
Proof. intros H. apply Z.pow_le_mono_r; lia. Qed.

Lemma pow2_lt_mono a b : 0 <= a < b -> 2 ^ a < 2 ^ b.
Proof. intros H. apply Z.pow_lt_mono_r; lia. Qed.

Lemma pow2_pos a : 0 <= a -> 0 < 2 ^ a.
Proof. intros H. apply Z.pow_pos_nonneg; lia. Qed.

Lemma pow2_succ a : 0 <= a -> 2 ^ (a + 1) = 2 * 2 ^ a.
Proof. intros H. rewrite Z.pow_add_r by lia. lia. Qed.

(** The loop counts the halvings of [temp]: it adds [Z.log2 temp] to [k],
    and 64 rounds are enough for any 64-bit value. *)
Lemma btok_loop_log2 rounds temp k :
  0 <= temp < 2 ^ Z.of_nat rounds ->
  btok_loop rounds temp k = k + Z.log2 temp.
Proof.
  revert temp k. induction rounds as [|n IH]; intros temp k Ht.
  - simpl in *. assert (temp = 0) by lia. subst. simpl. lia.
  - cbn [btok_loop].
    destruct (Z.eqb_spec (Z.shiftr temp 1) 0) as [E|E].
    + apply Z.shiftr_eq_0_iff in E as [->|[Hpos Hlog]]; [simpl; lia|].
      pose proof (Z.log2_nonneg temp). lia.
    + assert (Hpos : 0 < temp).
      { destruct (Z.eq_dec temp 0) as [->|]; [|lia].
        rewrite Z.shiftr_0_l in E. congruence. }
      assert (Hlog : 1 <= Z.log2 temp).
      { destruct (Z_lt_le_dec (Z.log2 temp) 1) as [Hlt|]; [|assumption].
        exfalso. apply E. apply Z.shiftr_eq_0; lia. }
      rewrite IH.
      * rewrite Z.log2_shiftr by lia. lia.
      * rewrite Z.shiftr_div_pow2 by lia. change (2 ^ 1) with 2.
        split; [apply Z.div_pos; lia|].
        apply Z.div_lt_upper_bound; [lia|].
        rewrite Nat2Z.inj_succ, Z.pow_succ_r in Ht by lia. lia.
Qed.

(** ** The order calculator *)

Section BtokFacts.
Context {cfg : LabH}.

(** For a non-zero request the result is the bit length of
    [bytes + sizeof_avail - 1] (computed on 64 bits), clamped from below
    and then from above. *)
Lemma btok_nonzero bytes :
  bytes <> 0 ->
  btok bytes =
    let k := Z.log2 (wrap (wrap (bytes + sizeof_avail) - 1)) + 1 in
    let k := if k <? SMALLEST_K then SMALLEST_K else k in
    if MAX_K <=? k then MAX_K - 1 else k.
Proof.
  intros Hz. unfold btok.
  destruct (Z.eqb_spec bytes 0) as [|_]; [contradiction|].
  rewrite btok_loop_log2 by (apply (wrap_range _)). simpl. reflexivity.
Qed.

Lemma btok_zero : btok 0 = 0.
Proof. reflexivity. Qed.

Lemma btok_bounds bytes :
  bytes <> 0 -> SMALLEST_K <= MAX_K - 1 ->
  SMALLEST_K <= btok bytes <= MAX_K - 1.
Proof.
  intros Hz Hk. rewrite btok_nonzero by assumption. cbv zeta.
  destruct (Z.ltb_spec (Z.log2 (wrap (wrap (bytes + sizeof_avail) - 1)) + 1)
              SMALLEST_K);
    destruct (Z.leb_spec MAX_K SMALLEST_K);
    try destruct (Z.leb_spec MAX_K
                    (Z.log2 (wrap (wrap (bytes + sizeof_avail) - 1)) + 1));
    lia.
Qed.

(** Bit length of [n - 1]: the least [k] with [n <= 2 ^ k], for [n >= 2]. *)
Lemma log2_pred_bound n :
  2 <= n -> 2 ^ Z.log2 (n - 1) < n <= 2 ^ (Z.log2 (n - 1) + 1).
Proof.
  intros Hn. pose proof (Z.log2_spec (n - 1) ltac:(lia)) as [H1 H2].
  rewrite <- Z.add_1_r in H2. lia.
Qed.

(** When the request and its header fit the largest order, the block of
    the computed order holds them. *)
Lemma btok_holds bytes :
  0 < bytes -> 0 < sizeof_avail ->
  SMALLEST_K <= MAX_K - 1 -> MAX_K <= 64 ->
  bytes + sizeof_avail <= 2 ^ (MAX_K - 1) ->
  bytes + sizeof_avail <= 2 ^ btok bytes.
Proof.
  intros Hb Hh Hk H64 Hfit.
  assert (Hlt : 2 ^ (MAX_K - 1) < 2 ^ 64).
  { apply pow2_lt_mono.
    destruct (Z_lt_le_dec (MAX_K - 1) 0) as [Hneg|]; [|lia].
    rewrite Z.pow_neg_r in Hfit by lia. lia. }
  assert (Hm : 0 <= MAX_K - 1).
  { destruct (Z_lt_le_dec (MAX_K - 1) 0) as [Hneg|]; [|lia].
    rewrite Z.pow_neg_r in Hfit by lia. lia. }
  rewrite btok_nonzero by lia. cbv zeta.
  rewrite (wrap_small (bytes + sizeof_avail)) by lia.
  rewrite wrap_small by lia.
  set (n := bytes + sizeof_avail) in *.
  pose proof (log2_pred_bound n ltac:(lia)) as [Hlo Hhi].
  pose proof (Z.log2_nonneg (n - 1)) as Hnn.
  assert (Hraw : Z.log2 (n - 1) + 1 <= MAX_K - 1).
  { destruct (Z_lt_le_dec (MAX_K - 1) (Z.log2 (n - 1) + 1)) as [Hbig|]; [|lia].
    exfalso.
    assert (2 ^ (MAX_K - 1) <= 2 ^ Z.log2 (n - 1)) by (apply pow2_le_mono; lia).
    lia. }
  destruct (Z.ltb_spec (Z.log2 (n - 1) + 1) SMALLEST_K) as [Hs|Hs].
  - destruct (Z.leb_spec MAX_K SMALLEST_K); [lia|].
    etransitivity; [exact Hhi|]. apply pow2_le_mono. lia.
  - destruct (Z.leb_spec MAX_K (Z.log2 (n - 1) + 1)); [lia|]. exact Hhi.
Qed.

(** A request that does not fit a block of order [m] is given a larger
    order, unless the sum overflows or the clamp at [MAX_K - 1] cuts in. *)
Lemma btok_exceeds bytes m :
  0 <= m < MAX_K - 1 -> 0 < sizeof_avail ->
  2 ^ m < bytes + sizeof_avail -> bytes + sizeof_avail <= 2 ^ 64 ->
  0 < bytes ->
  m < btok bytes.
Proof.
  intros Hm Hh Hbig Hno Hb.
  rewrite btok_nonzero by lia. cbv zeta.
  assert (Hlog : m <= Z.log2 (wrap (wrap (bytes + sizeof_avail) - 1))).
  { destruct (Z.eq_dec (bytes + sizeof_avail) (2 ^ 64)) as [E|E].
    - rewrite E. change (wrap (wrap (2 ^ 64) - 1)) with (2 ^ 64 - 1).
      change (Z.log2 (2 ^ 64 - 1)) with 63.
      destruct (Z_lt_le_dec 63 m); [|lia].
      assert (2 ^ 64 <= 2 ^ m) by (apply pow2_le_mono; lia). lia.
    - pose proof (pow2_pos m ltac:(lia)).
      rewrite (wrap_small (bytes + sizeof_avail)) by lia.
      rewrite wrap_small by lia.
      apply Z.log2_le_pow2; lia. }
  destruct (Z.ltb_spec (Z.log2 (wrap (wrap (bytes + sizeof_avail) - 1)) + 1)
              SMALLEST_K);
    destruct (Z.leb_spec MAX_K SMALLEST_K);
    try destruct (Z.leb_spec MAX_K
                    (Z.log2 (wrap (wrap (bytes + sizeof_avail) - 1)) + 1));
    lia.
Qed.

End BtokFacts.

Section BtokClaims.
Context {cfg : LabH}.

(** C3. Exactness at power-of-two boundaries: when the requested size plus
    the header size is exactly [2 ^ k], with [k] between the minimum order
    [SMALLEST_K] and the largest order [btok] hands out, [MAX_K - 1], [btok]
    answers [k] and not [k + 1].  The header is smaller than the smallest
    block, so such a request is never the empty one. *)
Theorem btok_exact_at_power_of_two (s k : Z) :
  0 <= s < 2 ^ 64 ->
  0 < sizeof_avail < 2 ^ 64 ->
  sizeof_avail < 2 ^ SMALLEST_K ->
  SMALLEST_K <= k <= MAX_K - 1 ->
  s + sizeof_avail = 2 ^ k ->
  btok s = k.
Proof.
  intros Hs Hh Hsmall Hk Hpow.
  assert (Hk0 : 0 <= SMALLEST_K).
  { destruct (Z_lt_le_dec SMALLEST_K 0) as [Hneg|]; [|lia].
    rewrite Z.pow_neg_r in Hsmall by lia. lia. }
  assert (Hmono : 2 ^ SMALLEST_K <= 2 ^ k) by (apply pow2_le_mono; lia).
  assert (Hk64 : k <= 64).
  { destruct (Z_lt_le_dec 64 k) as [Hbig|]; [|lia].
    assert (2 ^ 65 <= 2 ^ k) by (apply pow2_le_mono; lia).
    change (2 ^ 65) with (2 * 2 ^ 64) in *. lia. }
  assert (Hk1 : 1 <= k).
  { destruct (Z.eq_dec k 0) as [->|]; [|lia]. simpl in Hpow. lia. }
  rewrite btok_nonzero by lia. cbv zeta. rewrite Hpow.
  assert (Hlog : Z.log2 (wrap (wrap (2 ^ k) - 1)) = k - 1).
  { destruct (Z.eq_dec k 64) as [->|Hne].
    - reflexivity.
    - assert (2 ^ k < 2 ^ 64) by (apply pow2_lt_mono; lia).
      pose proof (pow2_pos k ltac:(lia)).
      rewrite (wrap_small (2 ^ k)) by lia. rewrite wrap_small by lia.
      pose proof (pow2_succ (k - 1) ltac:(lia)) as Hsucc.
      replace (k - 1 + 1) with k in Hsucc by lia.
      pose proof (pow2_pos (k - 1) ltac:(lia)).
      apply Z.log2_unique; [lia|].
      replace (Z.succ (k - 1)) with k by lia. lia. }
  rewrite Hlog. replace (k - 1 + 1) with k by lia.
  destruct (Z.ltb_spec k SMALLEST_K); [lia|].
  destruct (Z.leb_spec MAX_K k); lia.
Qed.

(** C8, as the code has it.  For every non-zero requested size the result
    of [btok] lies between [SMALLEST_K] and [MAX_K - 1]; the empty request
    is answered before any clamping, with order 0. *)
Theorem btok_clamped_unless_zero :
  SMALLEST_K <= MAX_K - 1 ->
  (forall s, s <> 0 -> SMALLEST_K <= btok s <= MAX_K - 1) /\ btok 0 = 0.
Proof.
  intros Hk. split; [|reflexivity].
  intros s Hs. apply btok_bounds; assumption.
Qed.

End BtokClaims.

Lemma btok_exact_at_power_of_two_witness : @btok lab_h 40 = 6.
Proof.
  apply (@btok_exact_at_power_of_two lab_h 40 6); lab_h_consts; lia.
Defined.

Lemma btok_clamped_unless_zero_witness :
  (forall s, s <> 0 -> 6 <= @btok lab_h s <= 47) /\ @btok lab_h 0 = 0.
Proof.
  apply (@btok_clamped_unless_zero lab_h). lab_h_consts. lia.
Defined.

(** With the customary constants the empty request gets order 0, below
    the minimum order 6. *)
Lemma btok_zero_below_minimum :
  @btok lab_h 0 = 0 /\ ~ (@SMALLEST_K lab_h <= @btok lab_h 0).
Proof. split; [reflexivity|]. vm_compute. intros H. apply H. reflexivity. Qed.

(** ** Loads and stores *)

Section Memory.
Context {cfg : LabH}.

Lemma same_frame_refl st : same_frame st st.
Proof. unfold same_frame. tauto. Qed.

Lemma same_frame_trans st1 st2 st3 :
  same_frame st1 st2 -> same_frame st2 st3 -> same_frame st1 st3.
Proof. unfold same_frame. intuition congruence. Qed.

Lemma in_arena_frame st st' a :
  same_frame st st' -> in_arena (pool st') a = in_arena (pool st) a.
Proof.
  intros (Hk & Hn & Hb & _). unfold in_arena. rewrite Hb, Hn. reflexivity.
Qed.

Lemma store_is_Some st p h :
  is_Some (store st p h) <-> is_Some (load st p).
Proof.
  destruct p as [|i|a]; simpl.
  - split; intros [? ?]; discriminate.
  - destruct (Z.leb_spec 0 i) as [Hi|Hi]; simpl.
    + destruct (Z.ltb_spec i (Z.of_nat (length (avail_ (pool st))))) as [Hl|Hl].
      * split; [|eauto]. intros _. apply lookup_lt_is_Some. lia.
      * split; [intros [? ?]; discriminate|].
        intros Hs. apply lookup_lt_is_Some in Hs. lia.
    + split; intros [? ?]; discriminate.
  - destruct (in_arena (pool st) a); split; eauto; intros [? ?]; discriminate.
Qed.

Lemma store_spec st p h st' :
  store st p h = Some st' ->
  (forall q, load st' q = if decide (q = p) then Some h else load st q) /\
  same_frame st st'.
Proof.
  destruct p as [|i|a]; simpl; [discriminate| |].
  - destruct (Z.leb_spec 0 i) as [Hi|Hi]; simpl; [|discriminate].
    destruct (Z.ltb_spec i (Z.of_nat (length (avail_ (pool st))))) as [Hl|Hl];
      [|discriminate].
    intros [= <-]. split.
    + intros q. destruct (decide (q = Sentinel i)) as [->|Hne].
      * simpl. destruct (Z.leb_spec 0 i); [|lia].
        apply list_lookup_insert_eq. lia.
      * destruct q as [|j|b]; simpl; try reflexivity.
        destruct (Z.leb_spec 0 j); [|reflexivity].
        apply list_lookup_insert_ne. intros E. apply Hne. f_equal. lia.
    + unfold same_frame. simpl. rewrite length_insert. tauto.
  - destruct (in_arena (pool st) a) eqn:Ha; [|discriminate].
    intros [= <-]. split.
    + intros q. destruct (decide (q = Mem a)) as [->|Hne].
      * simpl. rewrite Ha. rewrite lookup_insert_eq. reflexivity.
      * destruct q as [|j|b]; simpl; try reflexivity.
        destruct (in_arena (pool st) b); [|reflexivity].
        rewrite lookup_insert_ne by congruence. reflexivity.
    + unfold same_frame. simpl. tauto.
Qed.

Lemma modify_spec st p f st' :
  (h ← load st p; store st p (f h)) = Some st' -> updates st p f st'.
Proof.
  destruct (load st p) as [h|] eqn:Hl; simpl; [|discriminate].
  intros Hs. apply store_spec in Hs as [Hload Hfr].
  split; [eauto|]. split; [|exact Hfr].
  intros q. rewrite Hload. destruct (decide (q = p)) as [->|]; [|reflexivity].
  rewrite Hl. reflexivity.
Qed.

Lemma modify_is_Some st p f :
  is_Some (load st p) -> is_Some (h ← load st p; store st p (f h)).
Proof.
  intros [h Hl]. rewrite Hl. simpl. apply store_is_Some. eauto.
Qed.

Lemma set_tag_spec st p v st' :
  set_tag st p v = Some st' -> updates st p (with_tag v) st'.
Proof. apply modify_spec. Qed.

Lemma set_kval_spec st p v st' :
  set_kval st p v = Some st' -> updates st p (with_kval v) st'.
Proof. apply modify_spec. Qed.

Lemma set_next_spec st p v st' :
  set_next st p v = Some st' -> updates st p (with_next v) st'.
Proof. apply modify_spec. Qed.

Lemma set_prev_spec st p v st' :
  set_prev st p v = Some st' -> updates st p (with_prev v) st'.
Proof. apply modify_spec. Qed.

Lemma set_tag_is_Some st p v : is_Some (load st p) -> is_Some (set_tag st p v).
Proof. apply modify_is_Some. Qed.
Lemma set_kval_is_Some st p v : is_Some (load st p) -> is_Some (set_kval st p v).
Proof. apply modify_is_Some. Qed.
Lemma set_next_is_Some st p v : is_Some (load st p) -> is_Some (set_next st p v).
Proof. apply modify_is_Some. Qed.
Lemma set_prev_is_Some st p v : is_Some (load st p) -> is_Some (set_prev st p v).
Proof. apply modify_is_Some. Qed.

(** An update keeps every header readable that was, and no other. *)
Lemma updates_is_Some st p f st' q :
  updates st p f st' -> is_Some (load st' q) <-> is_Some (load st q).
Proof.
  intros (_ & Hl & _). rewrite Hl.
  destruct (decide (q = p)); [|reflexivity].
  rewrite fmap_is_Some. reflexivity.
Qed.

Lemma updates_same st p f st' h :
  updates st p f st' -> load st p = Some h -> load st' p = Some (f h).
Proof.
  intros (_ & Hl & _) Hp. rewrite Hl, decide_True by reflexivity.
  rewrite Hp. reflexivity.
Qed.

Lemma updates_other st p f st' q :
  updates st p f st' -> q <> p -> load st' q = load st q.
Proof.
  intros (_ & Hl & _) Hne. rewrite Hl, decide_False by assumption.
  reflexivity.
Qed.

Lemma updates_frame st p f st' : updates st p f st' -> same_frame st st'.
Proof. intros (_ & _ & H). exact H. Qed.

End Memory.

(** From here on headers are handled through the lemmas above only. *)
#[global] Arguments load : simpl never.
#[global] Arguments store : simpl never.
#[global] Arguments set_tag : simpl never.
#[global] Arguments set_kval : simpl never.
#[global] Arguments set_next : simpl never.
#[global] Arguments set_prev : simpl never.

(** ** The early exits of the interface *)

Section EarlyExits.
Context {cfg : LabH}.

(** A request whose order is above [kval_m] is refused before any list is
    looked at: only [errno] changes. *)
Lemma buddy_malloc_order_too_large st size :
  size <> 0 -> kval_m (pool st) < btok size ->
  buddy_malloc st ThePool size = Some (NULL, set_errno ENOMEM st).
Proof.
  intros Hz Hk. unfold buddy_malloc.
  destruct (Z.eqb_spec size 0); [contradiction|].
  destruct (Z.ltb_spec (kval_m (pool st)) (btok size)); [reflexivity|lia].
Qed.

(** C9. Null arguments: [buddy_malloc] with a null pool returns NULL, and
    [buddy_free] with a null pool or a null pointer returns at once; in all
    three cases the state (pool, free lists, headers, payload) is the one
    it was called in. *)
Theorem null_arguments_change_nothing (st : state) (size : Z) (p : ptr)
    (pool_p : pool_ptr) :
  buddy_malloc st NullPool size = Some (NULL, st) /\
  buddy_free st NullPool p = Some st /\
  buddy_free st pool_p NULL = Some st.
Proof.
  split; [reflexivity|]. split; [reflexivity|].
  destruct pool_p; reflexivity.
Qed.

(** C10. [buddy_destroy] on a pool with a mapping calls munmap on
    [(base, numbytes)] and then sets [base] to NULL, touching nothing else;
    on a pool whose [base] is NULL (never mapped, mapping failed, or already
    destroyed) and on a null pool it does nothing; so destroying twice is
    destroying once. *)
Theorem buddy_destroy_once_is_enough (st : state) (pool_p pool_q : pool_ptr) :
  (base (pool st) <> NULL ->
     base (pool (buddy_destroy st ThePool)) = NULL /\
     os_trace (buddy_destroy st ThePool) =
       os_trace st ++ [Munmap (base (pool st)) (numbytes (pool st))] /\
     heap (buddy_destroy st ThePool) = heap st /\
     avail_ (pool (buddy_destroy st ThePool)) = avail_ (pool st)) /\
  (base (pool st) = NULL -> buddy_destroy st pool_p = st) /\
  buddy_destroy st NullPool = st /\
  buddy_destroy (buddy_destroy st ThePool) pool_q = buddy_destroy st ThePool /\
  (forall size st', buddy_init st size None = Some st' ->
     buddy_destroy st' pool_p = st').
Proof.
  repeat split.
  - unfold buddy_destroy. destruct (base (pool st)); [contradiction|..]; reflexivity.
  - unfold buddy_destroy. destruct (base (pool st)); [contradiction|..]; reflexivity.
  - unfold buddy_destroy. destruct (base (pool st)); reflexivity.
  - unfold buddy_destroy. destruct (base (pool st)); reflexivity.
  - intros Hb. unfold buddy_destroy. destruct pool_p; [reflexivity|].
    rewrite Hb. reflexivity.
  - destruct pool_q; [reflexivity|].
    unfold buddy_destroy at 1.
    destruct (base (pool st)) eqn:Hb.
    + unfold buddy_destroy. rewrite Hb. rewrite Hb. reflexivity.
    + unfold buddy_destroy. rewrite Hb. reflexivity.
    + unfold buddy_destroy. rewrite Hb. reflexivity.
  - intros size st'. unfold buddy_init.
    destruct (shl1 _) as [nb|]; simpl; [|discriminate].
    intros [= <-]. destruct pool_p; reflexivity.
Qed.

End EarlyExits.

(** ** Aligned blocks and their buddies *)

Lemma aligned_iff b a k : 0 <= k -> aligned b a k <-> exists p, a - b = 2 ^ k * p.
Proof.
  intros Hk. pose proof (pow2_pos k Hk). unfold aligned. split.
  - intros H0. exists ((a - b) / 2 ^ k).
    pose proof (Z.div_mod (a - b) (2 ^ k) ltac:(lia)). lia.
  - intros [p Hp]. rewrite Hp, Z.mul_comm. apply Z.mod_mul. lia.
Qed.

Lemma aligned_weaken b a k j : 0 <= j <= k -> aligned b a k -> aligned b a j.
Proof.
  intros Hj H. apply aligned_iff in H as [p Hp]; [|lia].
  apply aligned_iff; [lia|]. exists (2 ^ (k - j) * p).
  replace k with (j + (k - j)) in Hp at 1 by lia.
  rewrite Z.pow_add_r in Hp by lia. lia.
Qed.

Lemma aligned_nest b a k a' j :
  0 <= j <= k -> aligned b a k -> aligned b a' j -> overlap a k a' j ->
  a <= a' /\ a' + 2 ^ j <= a + 2 ^ k.
Proof.
  intros Hj Ha Ha' [Ho1 Ho2].
  apply aligned_iff in Ha as [p Hp]; [|lia].
  apply aligned_iff in Ha' as [q Hq]; [|lia].
  pose proof (pow2_pos j ltac:(lia)) as Hpj.
  pose proof (pow2_pos (k - j) ltac:(lia)) as Hpt.
  assert (Hk : 2 ^ k = 2 ^ j * 2 ^ (k - j)).
  { rewrite <- Z.pow_add_r by lia. f_equal. lia. }
  set (t := 2 ^ (k - j)) in *. set (s := 2 ^ j) in *.
  rewrite Hk in *.
  assert (t * p <= q) by nia.
  assert (q + 1 <= t * (p + 1)) by nia.
  nia.
Qed.

Lemma aligned_same_start b a a' j :
  0 <= j -> aligned b a j -> aligned b a' j -> a <= a' < a + 2 ^ j -> a = a'.
Proof.
  intros Hj Ha Ha' Hr.
  apply aligned_iff in Ha as [p Hp]; [|lia].
  apply aligned_iff in Ha' as [q Hq]; [|lia].
  pose proof (pow2_pos j ltac:(lia)) as Hpj.
  assert (p = q) by nia. subst. lia.
Qed.

Lemma land_pow2_even k q : 0 <= k -> Z.land (2 ^ (k + 1) * q) (2 ^ k) = 0.
Proof.
  intros Hk. apply Z.bits_inj'. intros n Hn.
  rewrite Z.land_spec, Z.bits_0.
  rewrite (Z.pow2_bits_eqb k n) by lia.
  destruct (Z.eqb_spec k n) as [<-|]; [|apply andb_false_r].
  rewrite andb_true_r.
  rewrite Z.mul_comm. rewrite Z.mul_pow2_bits by lia.
  apply Z.testbit_neg_r. lia.
Qed.

Lemma lxor_pow2_aligned u k :
  0 <= k -> 0 <= u -> u mod 2 ^ k = 0 ->
  (u mod 2 ^ (k + 1) = 0 /\ Z.lxor u (2 ^ k) = u + 2 ^ k) \/
  ((u - 2 ^ k) mod 2 ^ (k + 1) = 0 /\ 0 <= u - 2 ^ k /\
   Z.lxor u (2 ^ k) = u - 2 ^ k).
Proof.
  intros Hk Hu Hm. pose proof (pow2_pos k Hk) as Hp.
  pose proof (pow2_succ k Hk) as Hs.
  assert (exists p, u = 2 ^ k * p) as [p ->].
  { exists (u / 2 ^ k). pose proof (Z.div_mod u (2 ^ k) ltac:(lia)). lia. }
  assert (0 <= p) by nia.
  destruct (Z.Even_or_Odd p) as [[q ->]|[q ->]].
  - left. replace (2 ^ k * (2 * q)) with (2 ^ (k + 1) * q) by lia.
    split.
    + rewrite Z.mul_comm. apply Z.mod_mul. lia.
    + symmetry. apply Z.add_nocarry_lxor. apply land_pow2_even. lia.
  - right. replace (2 ^ k * (2 * q + 1) - 2 ^ k) with (2 ^ (k + 1) * q) by lia.
    split; [|split].
    + rewrite Z.mul_comm. apply Z.mod_mul. lia.
    + nia.
    + replace (2 ^ k * (2 * q + 1)) with (2 ^ (k + 1) * q + 2 ^ k) by lia.
      rewrite (Z.add_nocarry_lxor (2 ^ (k + 1) * q) (2 ^ k))
        by (apply land_pow2_even; lia).
      rewrite Z.lxor_assoc, Z.lxor_nilpotent, Z.lxor_0_r. reflexivity.
Qed.

Section Tiles.
Context {cfg : LabH}.
Variables (b m : Z).
Hypothesis Hsmall : 0 <= SMALLEST_K.

Lemma aligned_base : aligned b b m.
Proof. unfold aligned. rewrite Z.sub_diag. apply Zmod_0_l. Qed.

Lemma buddy_of_aligned a k :
  0 <= k -> b <= a -> aligned b a k -> aligned b (buddy_of b a k) k.
Proof.
  intros Hk Hb Ha. unfold buddy_of, aligned in *.
  destruct (lxor_pow2_aligned (a - b) k Hk ltac:(lia) Ha) as [(_ & ->)|(_ & _ & ->)].
  - replace (b + (a - b + 2 ^ k) - b) with (a - b + 1 * 2 ^ k) by lia.
    rewrite Z.mod_add by (pose proof (pow2_pos k Hk); lia). exact Ha.
  - replace (b + (a - b - 2 ^ k) - b) with (a - b + (-1) * 2 ^ k) by lia.
    rewrite Z.mod_add by (pose proof (pow2_pos k Hk); lia). exact Ha.
Qed.

(** A block and its buddy are the two halves of an aligned block of the
    next order. *)
Lemma buddy_parent a k :
  0 <= k -> b <= a -> aligned b a k ->
  exists par, aligned b par (k + 1) /\ b <= par /\
    ((par = a /\ buddy_of b a k = a + 2 ^ k) \/
     (par = buddy_of b a k /\ a = par + 2 ^ k)).
Proof.
  intros Hk Hb Ha. unfold buddy_of, aligned in *.
  destruct (lxor_pow2_aligned (a - b) k Hk ltac:(lia) Ha)
    as [(Hp & ->)|(Hp & Hnn & ->)].
  - exists a. split; [exact Hp|]. split; [lia|]. left. split; lia.
  - exists (a - 2 ^ k). split.
    + replace (a - 2 ^ k - b) with (a - b - 2 ^ k) by lia. exact Hp.
    + split; [lia|]. right. split; lia.
Qed.

(** An aligned block of order at most [m] that starts inside the arena
    lies inside it. *)
Lemma aligned_in_arena a k :
  0 <= k <= m -> aligned b a k -> b <= a < b + 2 ^ m ->
  a + 2 ^ k <= b + 2 ^ m.
Proof.
  intros Hk Ha Hr. pose proof (pow2_pos k ltac:(lia)).
  apply (aligned_nest b b m a k Hk aligned_base Ha).
  unfold overlap. lia.
Qed.

Lemma tiles_ext (L L' : Z -> Z -> Prop) :
  (forall a k, L a k <-> L' a k) -> tiles b m L -> tiles b m L'.
Proof.
  intros He [Hg Hd Hc]. split.
  - intros a k H. apply Hg, He, H.
  - intros a k a' k' H H'. apply Hd; apply He; assumption.
  - intros x Hx. destruct (Hc x Hx) as (a & k & H & Hr).
    exists a, k. split; [apply He, H|exact Hr].
Qed.

Lemma tiles_order L a k : tiles b m L -> L a k -> 0 <= k <= m.
Proof.
  intros [Hg _ _] H. destruct (Hg a k H) as (Hk & _ & Hb & Ht).
  split; [lia|].
  destruct (Z_lt_le_dec m k) as [Hlt|]; [|lia]. exfalso.
  pose proof (pow2_pos k ltac:(lia)).
  destruct (Z_lt_le_dec m 0) as [Hneg|Hnn].
  - rewrite (Z.pow_neg_r 2 m) in Ht by lia. lia.
  - pose proof (pow2_lt_mono m k ltac:(lia)). lia.
Qed.

(** The buddy address of a block below the top order is where a block of
    at most that order starts. *)
Lemma tiles_buddy_live L a k :
  tiles b m L -> L a k -> k < m ->
  exists j, j <= k /\ L (buddy_of b a k) j.
Proof.
  intros Ht H Hkm. pose proof (tiles_order L a k Ht H) as Hk.
  destruct Ht as [Hg Hd Hc].
  destruct (Hg a k H) as (_ & Hal & Hb & Htop).
  pose proof (pow2_pos k ltac:(lia)) as Hpk.
  pose proof (pow2_succ k ltac:(lia)) as Hsk.
  pose proof (buddy_of_aligned a k ltac:(lia) Hb Hal) as Hbal.
  destruct (buddy_parent a k ltac:(lia) Hb Hal) as (par & Hpal & Hpb & Hcase).
  assert (Hpar : par + 2 ^ (k + 1) <= b + 2 ^ m).
  { apply aligned_in_arena; [lia|exact Hpal|]. lia. }
  set (y := buddy_of b a k) in *.
  assert (Hy : b <= y < b + 2 ^ m) by lia.
  destruct (Hc y Hy) as (a' & k' & H' & Hr').
  destruct (Hg a' k' H') as (Hk' & Hal' & Hb' & Htop').
  destruct (Z_lt_le_dec k k') as [Hbig|Hle].
  - exfalso.
    assert (Hn : a' <= par /\ par + 2 ^ (k + 1) <= a' + 2 ^ k').
    { apply (aligned_nest b a' k' par (k + 1)); [lia|assumption..|].
      unfold overlap. lia. }
    destruct (Hd a k a' k' H H') as [_ ?]; [unfold overlap; lia|lia].
  - exists k'. split; [lia|].
    replace y with a'; [exact H'|].
    apply (aligned_same_start b a' y k'); [lia|exact Hal'| |lia].
    apply (aligned_weaken b y k k'); [lia|exact Hbal].
Qed.

(** Two free buddies become one block of the next order. *)
Lemma tiles_merge L a k par :
  tiles b m L -> L a k -> L (buddy_of b a k) k -> k < m ->
  par = Z.min a (buddy_of b a k) ->
  tiles b m (fun a0 k0 =>
    (L a0 k0 /\ (a0, k0) <> (a, k) /\ (a0, k0) <> (buddy_of b a k, k)) \/
    (a0 = par /\ k0 = k + 1)).
Proof.
  intros Ht H Hy Hkm Hmin. pose proof (tiles_order L a k Ht H) as Hk.
  destruct Ht as [Hg Hd Hc].
  destruct (Hg a k H) as (Hsk & Hal & Hb & Htop).
  pose proof (pow2_pos k ltac:(lia)) as Hpk.
  pose proof (pow2_succ k ltac:(lia)) as Hpsk.
  destruct (buddy_parent a k ltac:(lia) Hb Hal) as (par' & Hpal & Hpb & Hcase).
  set (y := buddy_of b a k) in *.
  assert (par' = par) by lia. subst par'. clear Hmin.
  assert (Hpar : par + 2 ^ (k + 1) <= b + 2 ^ m).
  { apply aligned_in_arena; [lia|exact Hpal|]. lia. }
  split.
  - intros a0 k0 [(H0 & _ & _)|[-> ->]]; [apply Hg, H0|].
    repeat split; try assumption; lia.
  - intros a0 k0 a1 k1 [(H0 & Hn0 & Hn0')|[-> ->]] [(H1 & Hn1 & Hn1')|[-> ->]] Ho.
    + apply Hd; assumption.
    + exfalso. unfold overlap in Ho.
      destruct (Hg a0 k0 H0) as (Hk0 & _).
      pose proof (pow2_pos k0 ltac:(lia)).
      destruct (Z_lt_le_dec a0 (par + 2 ^ k)).
      * destruct (Hd a0 k0 par k) as [? ?].
        { exact H0. }
        { destruct Hcase as [[-> _]|[-> _]]; assumption. }
        { unfold overlap. lia. }
        subst. destruct Hcase as [[-> _]|[E _]]; [apply Hn0|apply Hn0'];
          congruence.
      * destruct (Hd a0 k0 (par + 2 ^ k) k) as [? ?].
        { exact H0. }
        { destruct Hcase as [[-> E]|[E ->]]; [rewrite <- E|]; assumption. }
        { unfold overlap. lia. }
        subst. destruct Hcase as [[-> E]|[E E']]; [apply Hn0'|apply Hn0];
          congruence.
    + exfalso. unfold overlap in Ho.
      destruct (Hg a1 k1 H1) as (Hk1 & _).
      pose proof (pow2_pos k1 ltac:(lia)).
      destruct (Z_lt_le_dec a1 (par + 2 ^ k)).
      * destruct (Hd a1 k1 par k) as [? ?].
        { exact H1. }
        { destruct Hcase as [[-> _]|[-> _]]; assumption. }
        { unfold overlap. lia. }
        subst. destruct Hcase as [[-> _]|[E _]]; [apply Hn1|apply Hn1'];
          congruence.
      * destruct (Hd a1 k1 (par + 2 ^ k) k) as [? ?].
        { exact H1. }
        { destruct Hcase as [[-> E]|[E ->]]; [rewrite <- E|]; assumption. }
        { unfold overlap. lia. }
        subst. destruct Hcase as [[-> E]|[E E']]; [apply Hn1'|apply Hn1];
          congruence.
    + split; reflexivity.
  - intros x Hx. destruct (Hc x Hx) as (a0 & k0 & H0 & Hr).
    destruct (decide ((a0, k0) = (a, k))) as [[= -> ->]|Hn].
    { exists par, (k + 1). split; [right; split; reflexivity|lia]. }
    destruct (decide ((a0, k0) = (y, k))) as [[= -> ->]|Hn'].
    { exists par, (k + 1). split; [right; split; reflexivity|lia]. }
    exists a0, k0. split; [left; repeat split; assumption|exact Hr].
Qed.

(** A block splits into its two halves. *)
Lemma tiles_split L a k :
  tiles b m L -> L a (k + 1) -> SMALLEST_K <= k ->
  tiles b m (fun a0 k0 =>
    (L a0 k0 /\ (a0, k0) <> (a, k + 1)) \/
    (a0 = a /\ k0 = k) \/ (a0 = a + 2 ^ k /\ k0 = k)).
Proof.
  intros [Hg Hd Hc] H Hk.
  destruct (Hg a (k + 1) H) as (_ & Hal & Hb & Htop).
  pose proof (pow2_pos k ltac:(lia)) as Hpk.
  pose proof (pow2_succ k ltac:(lia)) as Hpsk.
  assert (Hlo : aligned b a k) by (apply (aligned_weaken b a (k + 1)); [lia|exact Hal]).
  assert (Hhi : aligned b (a + 2 ^ k) k).
  { unfold aligned in *. replace (a + 2 ^ k - b) with (a - b + 1 * 2 ^ k) by lia.
    rewrite Z.mod_add by lia. exact Hlo. }
  assert (Hcl : forall a0 k0, L a0 k0 -> (a0, k0) <> (a, k + 1) ->
            forall a1, (a1 = a \/ a1 = a + 2 ^ k) -> overlap a0 k0 a1 k -> False).
  { intros a0 k0 H0 Hn a1 Ha1 [Ho1 Ho2]. apply Hn.
    destruct (Hd a0 k0 a (k + 1) H0 H) as [-> ->]; [|reflexivity].
    unfold overlap. lia. }
  split.
  - intros a0 k0 [(H0 & _)|[[-> ->]|[-> ->]]]; [apply Hg, H0|..];
      repeat split; try assumption; lia.
  - intros a0 k0 a1 k1 [(H0 & Hn0)|[[-> ->]|[-> ->]]]
                        [(H1 & Hn1)|[[-> ->]|[-> ->]]] Ho;
      try (split; reflexivity); try (apply Hd; assumption);
      try (exfalso; unfold overlap in Ho; lia).
    + exfalso. eapply (Hcl a0 k0 H0 Hn0 a); [lia|exact Ho].
    + exfalso. eapply (Hcl a0 k0 H0 Hn0 (a + 2 ^ k)); [lia|exact Ho].
    + exfalso. eapply (Hcl a1 k1 H1 Hn1 a); [lia|].
      unfold overlap in *. lia.
    + exfalso. eapply (Hcl a1 k1 H1 Hn1 (a + 2 ^ k)); [lia|].
      unfold overlap in *. lia.
  - intros x Hx. destruct (Hc x Hx) as (a0 & k0 & H0 & Hr).
    destruct (decide ((a0, k0) = (a, k + 1))) as [[= -> ->]|Hn].
    + destruct (Z_lt_le_dec x (a + 2 ^ k)).
      * exists a, k. split; [right; left; split; reflexivity|lia].
      * exists (a + 2 ^ k), k. split; [right; right; split; reflexivity|lia].
    + exists a0, k0. split; [left; split; assumption|exact Hr].
Qed.

End Tiles.

(** ** Views of the headers under an update *)

Section Views.
Context {cfg : LabH}.

Lemma updates_view {A} (g : avail -> A) st p f st' r :
  updates st p f st' ->
  (g <$> load st' r) =
    if decide (r = p) then (fun h => g (f h)) <$> load st r
    else g <$> load st r.
Proof.
  intros (_ & Hl & _). rewrite Hl.
  destruct (decide (r = p)); [|reflexivity].
  destruct (load st r); reflexivity.
Qed.

Lemma updates_view_same {A} (g : avail -> A) st p f st' r :
  updates st p f st' -> (forall h, g (f h) = g h) ->
  (g <$> load st' r) = (g <$> load st r).
Proof.
  intros Hu Hg. rewrite (updates_view g st p f st' r Hu).
  destruct (decide (r = p)); [|reflexivity].
  destruct (load st r); simpl; [rewrite Hg|]; reflexivity.
Qed.

Lemma updates_view_set {A} (g : avail -> A) st p f st' v :
  updates st p f st' -> (forall h, g (f h) = v) ->
  (g <$> load st' p) = Some v.
Proof.
  intros Hu Hg. rewrite (updates_view g st p f st' p Hu).
  rewrite decide_True by reflexivity.
  destruct Hu as ([h Hh] & _). rewrite Hh. simpl. rewrite Hg. reflexivity.
Qed.

Lemma nextp_set_next st p v st' r :
  updates st p (with_next v) st' ->
  nextp st' r = if decide (r = p) then Some v else nextp st r.
Proof.
  intros Hu. destruct (decide (r = p)) as [->|Hne].
  - apply (updates_view_set next st p _ st' v Hu). reflexivity.
  - unfold nextp. rewrite (updates_view next _ _ _ _ r Hu).
    rewrite decide_False by assumption. reflexivity.
Qed.

Lemma prevp_set_prev st p v st' r :
  updates st p (with_prev v) st' ->
  prevp st' r = if decide (r = p) then Some v else prevp st r.
Proof.
  intros Hu. destruct (decide (r = p)) as [->|Hne].
  - apply (updates_view_set prev st p _ st' v Hu). reflexivity.
  - unfold prevp. rewrite (updates_view prev _ _ _ _ r Hu).
    rewrite decide_False by assumption. reflexivity.
Qed.

Lemma prevp_set_next st p v st' r :
  updates st p (with_next v) st' -> prevp st' r = prevp st r.
Proof. intros Hu. apply (updates_view_same prev _ _ _ _ r Hu). reflexivity. Qed.

Lemma nextp_set_prev st p v st' r :
  updates st p (with_prev v) st' -> nextp st' r = nextp st r.
Proof. intros Hu. apply (updates_view_same next _ _ _ _ r Hu). reflexivity. Qed.

Lemma meta_set_next st p v st' r :
  updates st p (with_next v) st' -> meta st' r = meta st r.
Proof.
  intros Hu.
  apply (updates_view_same (fun h => (tag h, kval h)) _ _ _ _ r Hu).
  reflexivity.
Qed.

Lemma meta_set_prev st p v st' r :
  updates st p (with_prev v) st' -> meta st' r = meta st r.
Proof.
  intros Hu.
  apply (updates_view_same (fun h => (tag h, kval h)) _ _ _ _ r Hu).
  reflexivity.
Qed.

Lemma nextp_set_tag st p v st' r :
  updates st p (with_tag v) st' -> nextp st' r = nextp st r.
Proof. intros Hu. apply (updates_view_same next _ _ _ _ r Hu). reflexivity. Qed.

Lemma prevp_set_tag st p v st' r :
  updates st p (with_tag v) st' -> prevp st' r = prevp st r.
Proof. intros Hu. apply (updates_view_same prev _ _ _ _ r Hu). reflexivity. Qed.

Lemma nextp_set_kval st p v st' r :
  updates st p (with_kval v) st' -> nextp st' r = nextp st r.
Proof. intros Hu. apply (updates_view_same next _ _ _ _ r Hu). reflexivity. Qed.

Lemma prevp_set_kval st p v st' r :
  updates st p (with_kval v) st' -> prevp st' r = prevp st r.
Proof. intros Hu. apply (updates_view_same prev _ _ _ _ r Hu). reflexivity. Qed.

Lemma meta_set_tag st p v st' r :
  updates st p (with_tag v) st' ->
  meta st' r = if decide (r = p) then (fun tk => (v, tk.2)) <$> meta st r
               else meta st r.
Proof.
  intros Hu. unfold meta.
  rewrite (updates_view (fun h => (tag h, kval h)) _ _ _ _ r Hu).
  destruct (decide (r = p)); [|reflexivity].
  destruct (load st r); reflexivity.
Qed.

Lemma meta_set_kval st p v st' r :
  updates st p (with_kval v) st' ->
  meta st' r = if decide (r = p) then (fun tk => (tk.1, v)) <$> meta st r
               else meta st r.
Proof.
  intros Hu. unfold meta.
  rewrite (updates_view (fun h => (tag h, kval h)) _ _ _ _ r Hu).
  destruct (decide (r = p)); [|reflexivity].
  destruct (load st r); reflexivity.
Qed.

Lemma meta_is_Some st r : is_Some (meta st r) <-> is_Some (load st r).
Proof. unfold meta. apply fmap_is_Some. Qed.

Lemma nextp_is_Some st r : is_Some (nextp st r) <-> is_Some (load st r).
Proof. unfold nextp. apply fmap_is_Some. Qed.

Lemma prevp_is_Some st r : is_Some (prevp st r) <-> is_Some (load st r).
Proof. unfold prevp. apply fmap_is_Some. Qed.

Lemma nextp_Some_load st r q : nextp st r = Some q -> is_Some (load st r).
Proof. intros H. apply nextp_is_Some. eauto. Qed.

Lemma prevp_Some_load st r q : prevp st r = Some q -> is_Some (load st r).
Proof. intros H. apply prevp_is_Some. eauto. Qed.

Lemma meta_Some_load st r tk : meta st r = Some tk -> is_Some (load st r).
Proof. intros H. apply meta_is_Some. eauto. Qed.

Lemma load_views st r h :
  load st r = Some h ->
  nextp st r = Some (next h) /\ prevp st r = Some (prev h) /\
  meta st r = Some (tag h, kval h).
Proof. unfold nextp, prevp, meta. intros ->. auto. Qed.

End Views.

(** ** Doubly linked runs *)

Section Chains.
Context {cfg : LabH}.

Lemma last_ptr_cons p a l : last_ptr p (a :: l) = last_ptr (Mem a) l.
Proof.
  unfold last_ptr. destruct l as [|c l]; [reflexivity|].
  rewrite last_cons_cons. destruct (last (c :: l)) eqn:E; [reflexivity|].
  apply last_None in E. discriminate.
Qed.

Lemma last_ptr_cases p l :
  last_ptr p l = p \/ exists a, a ∈ l /\ last_ptr p l = Mem a.
Proof.
  unfold last_ptr. destruct (last l) as [a|] eqn:E; [|left; reflexivity].
  right. exists a. split; [|reflexivity].
  apply last_Some_elem_of. exact E.
Qed.

Lemma head_ptr_cases l q :
  head_ptr l q = q \/ exists a, a ∈ l /\ head_ptr l q = Mem a.
Proof.
  destruct l as [|a l]; [left; reflexivity|].
  right. exists a. split; [left|reflexivity].
Qed.

(** A run only depends on [next] of its nodes but the last and on [prev]
    of its nodes but the first. *)
Lemma chain_frame st st' p l q :
  nextp st' p = nextp st p ->
  (forall a, a ∈ l -> nextp st' (Mem a) = nextp st (Mem a)) ->
  (forall a, a ∈ l -> prevp st' (Mem a) = prevp st (Mem a)) ->
  prevp st' q = prevp st q ->
  chain st p l q -> chain st' p l q.
Proof.
  revert p. induction l as [|a l IH]; intros p Hp Hn Hv Hq.
  - simpl. unfold link. rewrite Hp, Hq. tauto.
  - simpl. intros [[H1 H2] Hc]. split.
    + unfold link. rewrite Hp, (Hv a) by left. auto.
    + apply IH; try assumption.
      * apply Hn. left.
      * intros c Hc'. apply Hn. right. exact Hc'.
      * intros c Hc'. apply Hv. right. exact Hc'.
Qed.

Lemma chain_app st p l1 x l2 q :
  chain st p (l1 ++ x :: l2) q <->
  chain st p l1 (Mem x) /\ chain st (Mem x) l2 q.
Proof.
  revert p. induction l1 as [|a l1 IH]; intros p; simpl.
  - reflexivity.
  - rewrite IH. tauto.
Qed.

Lemma chain_last st p l q : chain st p l q -> link st (last_ptr p l) q.
Proof.
  revert p. induction l as [|a l IH]; intros p; simpl.
  - auto.
  - intros [_ Hc]. rewrite last_ptr_cons. apply IH, Hc.
Qed.

Lemma chain_head st p l q : chain st p l q -> link st p (head_ptr l q).
Proof. destruct l; simpl; tauto. Qed.

(** Every node of a run can be read. *)
Lemma chain_load st p l q a :
  chain st p l q -> a ∈ l -> is_Some (load st (Mem a)).
Proof.
  revert p. induction l as [|c l IH]; intros p Hc Ha.
  - inversion Ha.
  - destruct Hc as [[_ Hl] Hc]. apply elem_of_cons in Ha as [->|Ha].
    + eapply prevp_Some_load, Hl.
    + eapply IH; eassumption.
Qed.

(** Taking [x] out: [prev(x)->next = next(x)] and [next(x)->prev = prev(x)]. *)
Lemma chain_unlink st st' p l1 x l2 q :
  chain st p (l1 ++ x :: l2) q ->
  NoDup (l1 ++ x :: l2) ->
  (forall a, a ∈ l1 ++ x :: l2 -> p <> Mem a /\ q <> Mem a) ->
  (forall r, nextp st' r =
     if decide (r = last_ptr p l1) then Some (head_ptr l2 q) else nextp st r) ->
  (forall r, prevp st' r =
     if decide (r = head_ptr l2 q) then Some (last_ptr p l1) else prevp st r) ->
  chain st' p (l1 ++ l2) q.
Proof.
  revert p. induction l1 as [|z l1 IH]; intros p Hc Hnd Hpq Hn Hv.
  - simpl in *. destruct Hc as [Hpx Hc]. unfold last_ptr in Hn, Hv.
    simpl in Hn, Hv.
    destruct l2 as [|y l2]; simpl in *.
    + split; [rewrite Hn|rewrite Hv]; rewrite decide_True by reflexivity;
        reflexivity.
    + destruct Hc as [Hxy Hc]. split.
      * split; [rewrite Hn|rewrite Hv]; rewrite decide_True by reflexivity;
          reflexivity.
      * apply NoDup_cons in Hnd as [Hx Hnd]. apply NoDup_cons in Hnd as [Hy Hnd].
        eapply chain_frame; [| | | |exact Hc].
        -- rewrite Hn, decide_False; [reflexivity|].
           intros E. destruct (Hpq y) as [Hp _]; [right; left|]. congruence.
        -- intros a Ha. rewrite Hn, decide_False; [reflexivity|].
           intros E. destruct (Hpq a) as [Hp _]; [right; right; exact Ha|].
           congruence.
        -- intros a Ha. rewrite Hv, decide_False; [reflexivity|].
           intros [= ->]. contradiction.
        -- rewrite Hv, decide_False; [reflexivity|].
           intros E. destruct (Hpq y) as [_ Hq]; [right; left|]. congruence.
  - simpl in Hc. destruct Hc as [Hpz Hc].
    change ((z :: l1) ++ x :: l2) with (z :: (l1 ++ x :: l2)) in Hnd, Hpq.
    apply NoDup_cons in Hnd as [Hz Hnd].
    rewrite last_ptr_cons in Hn, Hv.
    simpl. split.
    + destruct Hpz as [H1 H2]. split.
      * rewrite Hn, decide_False; [exact H1|].
        intros E.
        destruct (last_ptr_cases (Mem z) l1) as [E'|(a & Ha & E')];
          rewrite E' in E.
        -- destruct (Hpq z) as [Hp _]; [left|]. congruence.
        -- destruct (Hpq a) as [Hp _]; [right; apply elem_of_app; left; exact Ha|].
           congruence.
      * rewrite Hv, decide_False; [exact H2|].
        intros E.
        destruct (head_ptr_cases l2 q) as [E'|(a & Ha & E')];
          rewrite E' in E.
        -- destruct (Hpq z) as [_ Hq]; [left|]. congruence.
        -- injection E as ->. apply Hz. apply elem_of_app. right. right.
           exact Ha.
    + apply IH; try assumption.
      intros a Ha. split.
      * intros [= ->]. contradiction.
      * destruct (Hpq a) as [_ Hq]; [right; exact Ha|]. exact Hq.
Qed.

(** Putting [x] first: [x->next = p->next], [x->prev = p],
    [p->next->prev = x], [p->next = x]. *)
Lemma chain_push st st' p l x q :
  chain st p l q ->
  NoDup (x :: l) ->
  (forall a, a ∈ x :: l -> p <> Mem a /\ q <> Mem a) ->
  (forall r, nextp st' r =
     if decide (r = p) then Some (Mem x)
     else if decide (r = Mem x) then Some (head_ptr l q) else nextp st r) ->
  (forall r, prevp st' r =
     if decide (r = head_ptr l q) then Some (Mem x)
     else if decide (r = Mem x) then Some p else prevp st r) ->
  chain st' p (x :: l) q.
Proof.
  intros Hc Hnd Hpq Hn Hv.
  apply NoDup_cons in Hnd as [Hx Hnd].
  assert (Hpx : p <> Mem x) by (apply Hpq; left).
  assert (Hqx : q <> Mem x) by (apply Hpq; left).
  assert (Hhx : head_ptr l q <> Mem x).
  { destruct (head_ptr_cases l q) as [->|(a & Ha & ->)]; [exact Hqx|].
    intros [= ->]. contradiction. }
  simpl. split.
  - split.
    + rewrite Hn, decide_True by reflexivity. reflexivity.
    + rewrite Hv, decide_False by congruence.
      rewrite decide_True by reflexivity. reflexivity.
  - destruct l as [|y l]; simpl in *.
    + split.
      * rewrite Hn, decide_False by congruence.
        rewrite decide_True by reflexivity. reflexivity.
      * rewrite Hv, decide_True by reflexivity. reflexivity.
    + destruct Hc as [Hpy Hc]. apply NoDup_cons in Hnd as [Hy Hnd]. split.
      * split.
        -- rewrite Hn, decide_False by congruence.
           rewrite decide_True by reflexivity. reflexivity.
        -- rewrite Hv, decide_True by reflexivity. reflexivity.
      * assert (Hyx : y <> x) by (intros ->; apply Hx; left).
        eapply chain_frame; [| | | |exact Hc].
        -- rewrite Hn, decide_False, decide_False; [reflexivity|congruence|].
           intros E. destruct (Hpq y) as [Hp _]; [right; left|]. congruence.
        -- intros a Ha. rewrite Hn, decide_False, decide_False; [reflexivity| |].
           ++ intros [= ->]. apply Hx. right. exact Ha.
           ++ intros E. destruct (Hpq a) as [Hp _]; [right; right; exact Ha|].
              congruence.
        -- intros a Ha. rewrite Hv, decide_False, decide_False; [reflexivity| |].
           ++ intros [= ->]. apply Hx. right. exact Ha.
           ++ intros [= ->]. contradiction.
        -- rewrite Hv, decide_False, decide_False; [reflexivity| |].
           ++ congruence.
           ++ intros E. destruct (Hpq y) as [_ Hq]; [right; left|]. congruence.
Qed.

End Chains.

(** ** The setters and the two list operations, on readable headers *)

Section Operations.
Context {cfg : LabH}.

Lemma set_tag_ex st p v :
  is_Some (load st p) ->
  exists st', set_tag st p v = Some st' /\ updates st p (with_tag v) st'.
Proof.
  intros H. destruct (set_tag_is_Some st p v H) as [st' E].
  exists st'. split; [exact E|]. apply set_tag_spec, E.
Qed.

Lemma set_kval_ex st p v :
  is_Some (load st p) ->
  exists st', set_kval st p v = Some st' /\ updates st p (with_kval v) st'.
Proof.
  intros H. destruct (set_kval_is_Some st p v H) as [st' E].
  exists st'. split; [exact E|]. apply set_kval_spec, E.
Qed.

Lemma set_next_ex st p v :
  is_Some (load st p) ->
  exists st', set_next st p v = Some st' /\ updates st p (with_next v) st'.
Proof.
  intros H. destruct (set_next_is_Some st p v H) as [st' E].
  exists st'. split; [exact E|]. apply set_next_spec, E.
Qed.

Lemma set_prev_ex st p v :
  is_Some (load st p) ->
  exists st', set_prev st p v = Some st' /\ updates st p (with_prev v) st'.
Proof.
  intros H. destruct (set_prev_is_Some st p v H) as [st' E].
  exists st'. split; [exact E|]. apply set_prev_spec, E.
Qed.

Lemma unlink_spec st x px nx :
  nextp st (Mem x) = Some nx -> prevp st (Mem x) = Some px ->
  px <> Mem x ->
  is_Some (load st px) -> is_Some (load st nx) ->
  exists st', unlink st (Mem x) = Some st' /\
    (forall r, nextp st' r = if decide (r = px) then Some nx else nextp st r) /\
    (forall r, prevp st' r = if decide (r = nx) then Some px else prevp st r) /\
    (forall r, meta st' r = meta st r) /\
    same_frame st st'.
Proof.
  intros Hn Hp Hne Hpx Hnx. unfold unlink.
  destruct (load st (Mem x)) as [h|] eqn:Hx.
  2:{ unfold nextp in Hn. rewrite Hx in Hn. discriminate. }
  assert (next h = nx) as Hnh by (unfold nextp in Hn; rewrite Hx in Hn; simpl in Hn; congruence).
  assert (prev h = px) as Hph by (unfold prevp in Hp; rewrite Hx in Hp; simpl in Hp; congruence).
  simpl. rewrite Hnh, Hph.
  destruct (set_next_ex st px nx Hpx) as (st1 & E1 & U1). rewrite E1. simpl.
  rewrite (updates_other _ _ _ _ (Mem x) U1) by congruence.
  rewrite Hx. simpl. rewrite Hnh, Hph.
  assert (Hnx1 : is_Some (load st1 nx)) by (apply (updates_is_Some _ _ _ _ nx U1), Hnx).
  destruct (set_prev_ex st1 nx px Hnx1) as (st2 & E2 & U2). rewrite E2.
  exists st2. split; [reflexivity|]. split; [|split; [|split]].
  - intros r. rewrite (nextp_set_prev _ _ _ _ r U2). apply (nextp_set_next _ _ _ _ r U1).
  - intros r. rewrite (prevp_set_prev _ _ _ _ r U2).
    rewrite (prevp_set_next _ _ _ _ r U1). reflexivity.
  - intros r. rewrite (meta_set_prev _ _ _ _ r U2). apply (meta_set_next _ _ _ _ r U1).
  - eapply same_frame_trans; eapply updates_frame; eassumption.
Qed.

Lemma push_front_spec st i x nx0 :
  nextp st (Sentinel i) = Some nx0 ->
  is_Some (load st (Mem x)) -> is_Some (load st nx0) -> nx0 <> Mem x ->
  exists st', push_front st i (Mem x) = Some st' /\
    (forall r, nextp st' r =
       if decide (r = Sentinel i) then Some (Mem x)
       else if decide (r = Mem x) then Some nx0 else nextp st r) /\
    (forall r, prevp st' r =
       if decide (r = nx0) then Some (Mem x)
       else if decide (r = Mem x) then Some (Sentinel i) else prevp st r) /\
    (forall r, meta st' r = meta st r) /\
    same_frame st st'.
Proof.
  intros Hn Hx Hnx Hne. unfold push_front.
  destruct (load st (Sentinel i)) as [s|] eqn:Hs.
  2:{ unfold nextp in Hn. rewrite Hs in Hn. discriminate. }
  assert (next s = nx0) as Hns by (unfold nextp in Hn; rewrite Hs in Hn; simpl in Hn; congruence).
  simpl. rewrite Hns.
  destruct (set_next_ex st (Mem x) nx0 Hx) as (st1 & E1 & U1). rewrite E1. simpl.
  assert (Hx1 : is_Some (load st1 (Mem x))) by (apply (updates_is_Some _ _ _ _ _ U1), Hx).
  destruct (set_prev_ex st1 (Mem x) (Sentinel i) Hx1) as (st2 & E2 & U2).
  rewrite E2. simpl.
  rewrite (updates_other _ _ _ _ (Sentinel i) U2) by congruence.
  rewrite (updates_other _ _ _ _ (Sentinel i) U1) by congruence.
  rewrite Hs. simpl. rewrite Hns.
  assert (Hnx2 : is_Some (load st2 nx0)).
  { apply (updates_is_Some _ _ _ _ _ U2), (updates_is_Some _ _ _ _ _ U1), Hnx. }
  destruct (set_prev_ex st2 nx0 (Mem x) Hnx2) as (st3 & E3 & U3).
  rewrite E3. simpl.
  assert (Hs3 : is_Some (load st3 (Sentinel i))).
  { apply (updates_is_Some _ _ _ _ _ U3), (updates_is_Some _ _ _ _ _ U2),
      (updates_is_Some _ _ _ _ _ U1). rewrite Hs. eauto. }
  destruct (set_next_ex st3 (Sentinel i) (Mem x) Hs3) as (st4 & E4 & U4).
  rewrite E4. exists st4. split; [reflexivity|]. split; [|split; [|split]].
  - intros r. rewrite (nextp_set_next _ _ _ _ r U4).
    destruct (decide (r = Sentinel i)); [reflexivity|].
    rewrite (nextp_set_prev _ _ _ _ r U3), (nextp_set_prev _ _ _ _ r U2).
    apply (nextp_set_next _ _ _ _ r U1).
  - intros r. rewrite (prevp_set_next _ _ _ _ r U4).
    rewrite (prevp_set_prev _ _ _ _ r U3).
    destruct (decide (r = nx0)); [reflexivity|].
    rewrite (prevp_set_prev _ _ _ _ r U2).
    destruct (decide (r = Mem x)); [reflexivity|].
    apply (prevp_set_next _ _ _ _ r U1).
  - intros r. rewrite (meta_set_next _ _ _ _ r U4), (meta_set_prev _ _ _ _ r U3),
      (meta_set_prev _ _ _ _ r U2). apply (meta_set_next _ _ _ _ r U1).
  - eapply same_frame_trans; [|eapply updates_frame; eassumption].
    eapply same_frame_trans; [|eapply updates_frame; eassumption].
    eapply same_frame_trans; eapply updates_frame; eassumption.
Qed.

End Operations.

#[global] Arguments unlink : simpl never.
#[global] Arguments push_front : simpl never.

(** ** Consequences of the arena invariant *)

Section InvariantFacts.
Context {cfg : LabH}.
Hypothesis Hsane : lab_h_sane.

Lemma arena_base_frame st st' :
  same_frame st st' -> arena_base st' = arena_base st.
Proof. intros (_ & _ & Hb & _). unfold arena_base. rewrite Hb. reflexivity. Qed.

Lemma hdr_fits k : SMALLEST_K <= k -> sizeof_avail <= 2 ^ k.
Proof.
  intros Hk. use_sane Hsane. etransitivity; [apply (sane_header Hsane)|].
  apply pow2_le_mono. lia.
Qed.

Lemma load_in_arena st a :
  base (pool st) = Mem (arena_base st) ->
  arena_base st <= a ->
  a + sizeof_avail <= arena_base st + numbytes (pool st) ->
  is_Some (load st (Mem a)).
Proof.
  intros Hb H1 H2. unfold load, in_arena. rewrite Hb.
  destruct (Z.leb_spec (arena_base st) a); [|lia].
  destruct (Z.leb_spec (a + sizeof_avail) (arena_base st + numbytes (pool st)));
    [|lia].
  simpl. eauto.
Qed.

Section WithInv.
Variables (st : state) (F : Z -> list Z) (R : gset (Z * Z))
          (held : option (Z * Z)).
Hypothesis Hinv : arena_inv st F R held.

Lemma inv_live_order a k : live F R held a k -> SMALLEST_K <= k <= kval_m (pool st).
Proof.
  intros H.
  pose proof (tiles_order _ _ (sane_smallest Hsane) _ a k
                (inv_tiles _ _ _ _ Hinv) H).
  destruct (tiles_geom _ _ _ (inv_tiles _ _ _ _ Hinv) a k H). lia.
Qed.

Lemma inv_live_range a k :
  live F R held a k ->
  0 <= k < MAX_K /\ aligned (arena_base st) a k /\ arena_base st <= a /\
  a + 2 ^ k <= arena_base st + 2 ^ kval_m (pool st).
Proof.
  intros H. pose proof (inv_live_order a k H).
  destruct (tiles_geom _ _ _ (inv_tiles _ _ _ _ Hinv) a k H) as (? & ? & ? & ?).
  pose proof (inv_kval_m _ _ _ _ Hinv). use_sane Hsane.
  repeat split; try assumption; lia.
Qed.

Lemma inv_live_load a k : live F R held a k -> is_Some (load st (Mem a)).
Proof.
  intros H. destruct (inv_live_range a k H) as (Hk & _ & Hlo & Hhi).
  pose proof (inv_live_order a k H) as Hk'.
  pose proof (hdr_fits k ltac:(lia)).
  destruct (inv_base _ _ _ _ Hinv) as (Hb & _ & _).
  apply load_in_arena; [exact Hb|exact Hlo|].
  rewrite (inv_numbytes _ _ _ _ Hinv). lia.
Qed.

Lemma inv_live_unique a k k' :
  live F R held a k -> live F R held a k' -> k = k'.
Proof.
  intros H H'.
  destruct (inv_live_range a k H) as (Hk & _).
  destruct (inv_live_range a k' H') as (Hk' & _).
  pose proof (pow2_pos k ltac:(lia)). pose proof (pow2_pos k' ltac:(lia)).
  apply (tiles_disj _ _ _ (inv_tiles _ _ _ _ Hinv) a k a k' H H').
  unfold overlap. lia.
Qed.

Lemma live_free i a : 0 <= i < MAX_K -> a ∈ F i -> live F R held a i.
Proof. intros Hi Ha. right. left. split; assumption. Qed.

Lemma live_reserved a k : (a, k) ∈ R -> live F R held a k.
Proof. intros H. left. exact H. Qed.

Lemma live_held a k : held = Some (a, k) -> live F R held a k.
Proof. intros H. right. right. exact H. Qed.

Lemma inv_cross i j a :
  0 <= i < MAX_K -> 0 <= j < MAX_K -> a ∈ F i -> a ∈ F j -> i = j.
Proof.
  intros Hi Hj Hai Haj.
  apply (inv_live_unique a); apply live_free; assumption.
Qed.

Lemma inv_reserved_not_free a k i :
  (a, k) ∈ R -> 0 <= i < MAX_K -> a ∈ F i -> False.
Proof.
  intros Hr Hi Hf.
  assert (k = i) as ->.
  { apply (inv_live_unique a); [apply live_reserved|apply live_free]; assumption. }
  pose proof (inv_reserved _ _ _ _ Hinv a i Hr) as H1.
  pose proof (inv_free _ _ _ _ Hinv i a Hi Hf) as H2.
  unfold hdr_is in *. rewrite H1 in H2. use_sane Hsane. congruence.
Qed.

Lemma inv_held_not_free a k i :
  held = Some (a, k) -> 0 <= i < MAX_K -> a ∈ F i -> False.
Proof.
  intros Hh Hi Hf.
  assert (k = i) as ->.
  { apply (inv_live_unique a); [apply live_held|apply live_free]; assumption. }
  destruct (inv_held _ _ _ _ Hinv a i Hh) as [_ Hn]. contradiction.
Qed.

Lemma inv_held_not_reserved a k k' : held = Some (a, k) -> (a, k') ∈ R -> False.
Proof.
  intros Hh Hr.
  assert (k = k') as ->.
  { apply (inv_live_unique a); [apply live_held|apply live_reserved]; assumption. }
  destruct (inv_held _ _ _ _ Hinv a k' Hh) as [Hn _]. contradiction.
Qed.

Lemma inv_sentinel_next i :
  0 <= i < MAX_K -> nextp st (Sentinel i) = Some (head_ptr (F i) (Sentinel i)).
Proof.
  intros Hi. pose proof (inv_lists _ _ _ _ Hinv i Hi) as Hc.
  apply chain_head in Hc. apply Hc.
Qed.

Lemma inv_sentinel_load i : 0 <= i < MAX_K -> is_Some (load st (Sentinel i)).
Proof. intros Hi. eapply nextp_Some_load, inv_sentinel_next, Hi. Qed.

(** A block strictly inside the one in hand is not a block of its own. *)
Lemma inv_inside_held_fresh a k y j :
  held = Some (a, k) -> a < y < a + 2 ^ k -> ~ live F R held y j.
Proof.
  intros Hh Hy Hl.
  destruct (inv_live_range y j Hl) as (Hj & _).
  pose proof (pow2_pos j ltac:(lia)).
  destruct (tiles_disj _ _ _ (inv_tiles _ _ _ _ Hinv) y j a k Hl (live_held a k Hh)).
  - unfold overlap. lia.
  - lia.
Qed.

End WithInv.

(** The invariant only reads the links and, at the blocks that exist, the
    tag and the order. *)
Lemma arena_inv_transport st st' F R held :
  arena_inv st F R held ->
  same_frame st st' ->
  (forall r, nextp st' r = nextp st r) ->
  (forall r, prevp st' r = prevp st r) ->
  (forall a k, live F R None a k -> meta st' (Mem a) = meta st (Mem a)) ->
  arena_inv st' F R held.
Proof.
  intros Hinv Hfr Hn Hp Hm.
  pose proof (arena_base_frame _ _ Hfr) as Hb.
  destruct Hfr as (Hk & Hnb & Hbase & Hlen & _).
  destruct Hinv as [H1 H2 H3 H4 H5 H6 H7 H8 H9 H10].
  constructor.
  - rewrite Hb, Hbase, Hk. exact H1.
  - rewrite Hnb, Hk. exact H2.
  - rewrite Hk. exact H3.
  - rewrite Hlen. exact H4.
  - intros i Hi. eapply chain_frame; [| | | |apply H5, Hi]; auto.
  - exact H6.
  - intros i a Hi Ha. unfold hdr_is. rewrite (Hm a i); [apply H7; assumption|].
    right. left. split; assumption.
  - intros a k Hr. unfold hdr_is. rewrite (Hm a k); [apply H8; assumption|].
    left. exact Hr.
  - exact H9.
  - rewrite Hb, Hk. exact H10.
Qed.

End InvariantFacts.

(** ** The list operations on a well-formed arena *)

Section ListOps.
Context {cfg : LabH}.
Hypothesis Hsane : lab_h_sane.

Lemma inv_unlink st F R held j l1 x l2 :
  arena_inv st F R held ->
  0 <= j < MAX_K -> F j = l1 ++ x :: l2 ->
  exists st', unlink st (Mem x) = Some st' /\
    same_frame st st' /\
    (forall r, meta st' r = meta st r) /\
    (forall i, 0 <= i < MAX_K -> free_list st' i ((<[j := l1 ++ l2]> F) i)).
Proof.
  intros Hinv Hj HF.
  pose proof (inv_lists _ _ _ _ Hinv j Hj) as Hc.
  pose proof (inv_nodup _ _ _ _ Hinv j Hj) as Hnd.
  unfold free_list in Hc. rewrite HF in Hc, Hnd.
  pose proof Hc as Hc'. apply chain_app in Hc' as [C1 C2].
  apply chain_last in C1 as [Hpn Hxp].
  apply chain_head in C2 as [Hxn Hnp].
  set (px := last_ptr (Sentinel j) l1) in *.
  set (nx := head_ptr l2 (Sentinel j)) in *.
  assert (Hpx : px <> Mem x).
  { subst px. destruct (last_ptr_cases (Sentinel j) l1) as [->|(a & Ha & ->)];
      [discriminate|].
    intros [= ->]. apply NoDup_app in Hnd as (_ & Hnd & _).
    apply (Hnd x Ha). left. }
  destruct (unlink_spec st x px nx Hxn Hxp Hpx) as (st' & E & Hn & Hp & Hm & Hfr).
  { eapply nextp_Some_load, Hpn. }
  { eapply prevp_Some_load, Hnp. }
  exists st'. split; [exact E|]. split; [exact Hfr|]. split; [exact Hm|].
  intros i Hi. unfold free_list.
  destruct (decide (i = j)) as [->|Hne].
  - rewrite fn_lookup_insert.
    eapply chain_unlink; [exact Hc|exact Hnd| |exact Hn|exact Hp].
    intros a _. split; discriminate.
  - rewrite fn_lookup_insert_ne by congruence.
    assert (Hout : forall c, c ∈ F i -> c ∈ l1 ++ x :: l2 -> False).
    { intros c Hci Hcj. rewrite <- HF in Hcj.
      apply Hne. eapply (inv_cross Hsane _ _ _ _ Hinv i j c); eassumption. }
    eapply chain_frame; [| | | |apply (inv_lists _ _ _ _ Hinv i Hi)].
    + rewrite Hn, decide_False; [reflexivity|].
      subst px. destruct (last_ptr_cases (Sentinel j) l1) as [->|(a & Ha & ->)];
        congruence.
    + intros c Hc0. rewrite Hn, decide_False; [reflexivity|].
      subst px. destruct (last_ptr_cases (Sentinel j) l1) as [->|(a & Ha & ->)];
        [discriminate|].
      intros [= ->]. apply (Hout a Hc0). apply elem_of_app. left. exact Ha.
    + intros c Hc0. rewrite Hp, decide_False; [reflexivity|].
      subst nx. destruct (head_ptr_cases l2 (Sentinel j)) as [->|(a & Ha & ->)];
        [discriminate|].
      intros [= ->]. apply (Hout a Hc0). apply elem_of_app. right. right.
      exact Ha.
    + rewrite Hp, decide_False; [reflexivity|].
      subst nx. destruct (head_ptr_cases l2 (Sentinel j)) as [->|(a & Ha & ->)];
        congruence.
Qed.

Lemma inv_push st F R held j x :
  arena_inv st F R held ->
  0 <= j < MAX_K ->
  (forall i, 0 <= i < MAX_K -> x ∉ F i) ->
  is_Some (load st (Mem x)) ->
  exists st', push_front st j (Mem x) = Some st' /\
    same_frame st st' /\
    (forall r, meta st' r = meta st r) /\
    (forall i, 0 <= i < MAX_K -> free_list st' i ((<[j := x :: F j]> F) i)).
Proof.
  intros Hinv Hj Hfresh Hx.
  pose proof (inv_lists _ _ _ _ Hinv j Hj) as Hc.
  pose proof (inv_nodup _ _ _ _ Hinv j Hj) as Hnd.
  unfold free_list in Hc.
  pose proof (chain_head _ _ _ _ Hc) as [Hsn Hnp].
  set (nx := head_ptr (F j) (Sentinel j)) in *.
  assert (Hnx : nx <> Mem x).
  { subst nx. destruct (head_ptr_cases (F j) (Sentinel j)) as [->|(a & Ha & ->)];
      [discriminate|].
    intros [= ->]. apply (Hfresh j Hj Ha). }
  destruct (push_front_spec st j x nx Hsn Hx) as (st' & E & Hn & Hp & Hm & Hfr).
  { eapply prevp_Some_load, Hnp. }
  { exact Hnx. }
  exists st'. split; [exact E|]. split; [exact Hfr|]. split; [exact Hm|].
  intros i Hi. unfold free_list.
  destruct (decide (i = j)) as [->|Hne].
  - rewrite fn_lookup_insert.
    eapply chain_push; [exact Hc| | |exact Hn|exact Hp].
    + apply NoDup_cons. split; [apply Hfresh, Hj|exact Hnd].
    + intros a _. split; discriminate.
  - rewrite fn_lookup_insert_ne by congruence.
    assert (Hout : forall c, c ∈ F i -> c ∈ F j -> False).
    { intros c Hci Hcj.
      apply Hne. eapply (inv_cross Hsane _ _ _ _ Hinv i j c); eassumption. }
    eapply chain_frame; [| | | |apply (inv_lists _ _ _ _ Hinv i Hi)].
    + rewrite Hn, decide_False, decide_False by congruence. reflexivity.
    + intros c Hc0. rewrite Hn, decide_False, decide_False; [reflexivity| |discriminate].
      intros [= ->]. apply (Hfresh i Hi Hc0).
    + intros c Hc0. rewrite Hp, decide_False, decide_False; [reflexivity| |].
      * intros [= ->]. apply (Hfresh i Hi Hc0).
      * subst nx.
        destruct (head_ptr_cases (F j) (Sentinel j)) as [->|(a & Ha & ->)];
          [discriminate|].
        intros [= ->]. apply (Hout a Hc0 Ha).
    + rewrite Hp, decide_False, decide_False; [reflexivity|discriminate|].
      subst nx.
      destruct (head_ptr_cases (F j) (Sentinel j)) as [->|(a & Ha & ->)];
        congruence.
Qed.

End ListOps.

(** ** Steps of the allocator that keep the arena well formed *)

Section Steps.
Context {cfg : LabH}.
Hypothesis Hsane : lab_h_sane.

Lemma elem_of_fn_insert (F : Z -> list Z) j l a i :
  a ∈ (<[j := l]> F) i <-> (i = j /\ a ∈ l) \/ (i <> j /\ a ∈ F i).
Proof.
  destruct (decide (i = j)) as [->|Hne].
  - rewrite fn_lookup_insert. intuition congruence.
  - rewrite fn_lookup_insert_ne by congruence. intuition congruence.
Qed.

Lemma arena_inv_rebuild st st' F R held F' R' held' :
  arena_inv st F R held ->
  same_frame st st' ->
  (forall i, 0 <= i < MAX_K -> free_list st' i (F' i)) ->
  (forall i, 0 <= i < MAX_K -> NoDup (F' i)) ->
  (forall i a, 0 <= i < MAX_K -> a ∈ F' i -> hdr_is st' a BLOCK_AVAIL i) ->
  (forall a k, (a, k) ∈ R' -> hdr_is st' a BLOCK_RESERVED k) ->
  (forall a k, held' = Some (a, k) -> ((a, k) ∉ R') /\ (a ∉ F' k)) ->
  tiles (arena_base st) (kval_m (pool st)) (live F' R' held') ->
  arena_inv st' F' R' held'.
Proof.
  intros Hinv Hfr H5 H6 H7 H8 H9 H10.
  pose proof (arena_base_frame _ _ Hfr) as Hb.
  destruct Hfr as (Hk & Hnb & Hbase & Hlen & _).
  destruct Hinv as [H1 H2 H3 H4 _ _ _ _ _ _].
  constructor; try assumption.
  - rewrite Hb, Hbase, Hk. exact H1.
  - rewrite Hnb, Hk. exact H2.
  - rewrite Hk. exact H3.
  - rewrite Hlen. exact H4.
  - rewrite Hb, Hk. exact H10.
Qed.

(** Taking the first block of a free list in hand. *)
Lemma inv_take st F R j x l :
  arena_ok st F R -> 0 <= j < MAX_K -> F j = x :: l ->
  exists st', unlink st (Mem x) = Some st' /\
    same_frame st st' /\
    arena_inv st' (<[j := l]> F) R (Some (x, j)).
Proof.
  intros Hinv Hj HF.
  destruct (inv_unlink Hsane st F R None j [] x l Hinv Hj HF)
    as (st' & E & Hfr & Hm & Hl).
  simpl in Hl.
  pose proof (inv_nodup _ _ _ _ Hinv j Hj) as Hnd. rewrite HF in Hnd.
  apply NoDup_cons in Hnd as [Hx Hnd].
  assert (Hsub : forall i a, a ∈ (<[j := l]> F) i -> a ∈ F i).
  { intros i a Ha. apply elem_of_fn_insert in Ha as [[-> Ha]|[_ Ha]];
      [rewrite HF; right|]; exact Ha. }
  exists st'. split; [exact E|]. split; [exact Hfr|].
  eapply arena_inv_rebuild; [exact Hinv|exact Hfr|exact Hl|..].
  - intros i Hi. destruct (decide (i = j)) as [->|Hne].
    + rewrite fn_lookup_insert. exact Hnd.
    + rewrite fn_lookup_insert_ne by congruence.
      apply (inv_nodup _ _ _ _ Hinv i Hi).
  - intros i a Hi Ha. unfold hdr_is. rewrite Hm.
    apply (inv_free _ _ _ _ Hinv i a Hi), Hsub, Ha.
  - intros a k Hr. unfold hdr_is. rewrite Hm.
    apply (inv_reserved _ _ _ _ Hinv a k Hr).
  - intros a k [= <- <-]. split.
    + intros Hr. eapply (inv_reserved_not_free Hsane _ _ _ _ Hinv x j j Hr Hj).
      rewrite HF. left.
    + rewrite fn_lookup_insert. exact Hx.
  - eapply tiles_ext; [|apply (inv_tiles _ _ _ _ Hinv)].
    intros a k. unfold live. split.
    + intros [Hr|[[Hk Ha]|Hh]]; [left; exact Hr| |discriminate].
      destruct (decide ((a, k) = (x, j))) as [[= -> ->]|Hne];
        [right; right; reflexivity|].
      right. left. split; [exact Hk|].
      apply elem_of_fn_insert.
      destruct (decide (k = j)) as [->|Hkj]; [left|right; split; assumption].
      split; [reflexivity|]. rewrite HF in Ha.
      apply elem_of_cons in Ha as [->|Ha]; [congruence|exact Ha].
    + intros [Hr|[[Hk Ha]|[= <- <-]]]; [left; exact Hr|..].
      * right. left. split; [exact Hk|]. apply Hsub, Ha.
      * right. left. split; [exact Hj|]. rewrite HF. left.
Qed.

(** Handing out the block in hand. *)
Lemma inv_reserve st F R a k :
  arena_inv st F R (Some (a, k)) ->
  exists st',
    (forall (A : Type) (K : state -> option A),
       (st1 ← set_tag st (Mem a) BLOCK_RESERVED;
        st2 ← set_kval st1 (Mem a) k;
        K st2) = K st') /\
    same_frame st st' /\
    arena_ok st' F ({[(a, k)]} ∪ R).
Proof.
  intros Hinv.
  pose proof (inv_live_load Hsane _ _ _ _ Hinv a k (live_held _ _ _ a k eq_refl))
    as Hld.
  destruct (set_tag_ex st (Mem a) BLOCK_RESERVED Hld) as (st1 & E1 & U1).
  assert (Hld1 : is_Some (load st1 (Mem a)))
    by (apply (updates_is_Some _ _ _ _ _ U1), Hld).
  destruct (set_kval_ex st1 (Mem a) k Hld1) as (st2 & E2 & U2).
  exists st2. split.
  { intros A K. rewrite E1. simpl. rewrite E2. reflexivity. }
  assert (Hfr : same_frame st st2).
  { eapply same_frame_trans; eapply updates_frame; eassumption. }
  split; [exact Hfr|].
  assert (Hma : meta st2 (Mem a) = Some (BLOCK_RESERVED, k)).
  { rewrite (meta_set_kval _ _ _ _ _ U2), decide_True by reflexivity.
    rewrite (meta_set_tag _ _ _ _ _ U1), decide_True by reflexivity.
    destruct Hld as [h Hh]. unfold meta. rewrite Hh. reflexivity. }
  assert (Hmo : forall a0, a0 <> a -> meta st2 (Mem a0) = meta st (Mem a0)).
  { intros a0 Hne.
    rewrite (meta_set_kval _ _ _ _ _ U2), decide_False by congruence.
    rewrite (meta_set_tag _ _ _ _ _ U1), decide_False by congruence.
    reflexivity. }
  assert (Hn : forall r, nextp st2 r = nextp st r).
  { intros r. rewrite (nextp_set_kval _ _ _ _ _ U2).
    apply (nextp_set_tag _ _ _ _ _ U1). }
  assert (Hp : forall r, prevp st2 r = prevp st r).
  { intros r. rewrite (prevp_set_kval _ _ _ _ _ U2).
    apply (prevp_set_tag _ _ _ _ _ U1). }
  eapply arena_inv_rebuild; [exact Hinv|exact Hfr|..].
  - intros i Hi. eapply chain_frame; [| | | |apply (inv_lists _ _ _ _ Hinv i Hi)];
      auto.
  - apply (inv_nodup _ _ _ _ Hinv).
  - intros i a0 Hi Ha0. unfold hdr_is. rewrite Hmo.
    + apply (inv_free _ _ _ _ Hinv i a0 Hi Ha0).
    + intros ->. eapply (inv_held_not_free Hsane _ _ _ _ Hinv a k i); eauto.
  - intros a0 k0 Hr. apply elem_of_union in Hr as [Hr|Hr].
    + apply elem_of_singleton in Hr as [= -> ->]. exact Hma.
    + unfold hdr_is. rewrite Hmo; [apply (inv_reserved _ _ _ _ Hinv a0 k0 Hr)|].
      intros ->. eapply (inv_held_not_reserved Hsane _ _ _ _ Hinv a k k0); eauto.
  - discriminate.
  - eapply tiles_ext; [|apply (inv_tiles _ _ _ _ Hinv)].
    intros a0 k0. unfold live. split.
    + intros [Hr|[Hf|[= <- <-]]].
      * left. apply elem_of_union. right. exact Hr.
      * right. left. exact Hf.
      * left. apply elem_of_union. left. apply elem_of_singleton. reflexivity.
    + intros [Hr|[Hf|Hh]]; [|right; left; exact Hf|discriminate].
      apply elem_of_union in Hr as [Hr|Hr].
      * apply elem_of_singleton in Hr as [= -> ->]. right. right. reflexivity.
      * left. exact Hr.
Qed.

(** Taking back a block that was handed out. *)
Lemma inv_unreserve st F R a k :
  arena_ok st F R -> (a, k) ∈ R ->
  exists st', set_tag st (Mem a) BLOCK_AVAIL = Some st' /\
    same_frame st st' /\
    arena_inv st' F (R ∖ {[(a, k)]}) (Some (a, k)) /\
    meta st' (Mem a) = Some (BLOCK_AVAIL, k).
Proof.
  intros Hinv Hr.
  pose proof (inv_live_load Hsane _ _ _ _ Hinv a k (live_reserved _ _ _ a k Hr))
    as Hld.
  destruct (set_tag_ex st (Mem a) BLOCK_AVAIL Hld) as (st1 & E1 & U1).
  exists st1. split; [exact E1|].
  pose proof (updates_frame _ _ _ _ U1) as Hfr. split; [exact Hfr|].
  assert (Hma : meta st1 (Mem a) = Some (BLOCK_AVAIL, k)).
  { rewrite (meta_set_tag _ _ _ _ _ U1), decide_True by reflexivity.
    pose proof (inv_reserved _ _ _ _ Hinv a k Hr) as Hh. unfold hdr_is in Hh.
    rewrite Hh. reflexivity. }
  assert (Hmo : forall a0, a0 <> a -> meta st1 (Mem a0) = meta st (Mem a0)).
  { intros a0 Hne.
    rewrite (meta_set_tag _ _ _ _ _ U1), decide_False by congruence.
    reflexivity. }
  split; [|exact Hma].
  eapply arena_inv_rebuild; [exact Hinv|exact Hfr|..].
  - intros i Hi.
    eapply chain_frame; [| | | |apply (inv_lists _ _ _ _ Hinv i Hi)];
      intros; first [apply (nextp_set_tag _ _ _ _ _ U1)
                    |apply (prevp_set_tag _ _ _ _ _ U1)].
  - apply (inv_nodup _ _ _ _ Hinv).
  - intros i a0 Hi Ha0. unfold hdr_is. rewrite Hmo.
    + apply (inv_free _ _ _ _ Hinv i a0 Hi Ha0).
    + intros ->. eapply (inv_reserved_not_free Hsane _ _ _ _ Hinv a k i); eauto.
  - intros a0 k0 Hr0. apply elem_of_difference in Hr0 as [Hr0 Hne].
    unfold hdr_is. rewrite Hmo; [apply (inv_reserved _ _ _ _ Hinv a0 k0 Hr0)|].
    intros ->. apply Hne. apply elem_of_singleton. f_equal.
    eapply (inv_live_unique Hsane _ _ _ _ Hinv a); apply live_reserved; eassumption.
  - intros a0 k0 [= <- <-]. split.
    + intros Hd. apply elem_of_difference in Hd as [_ Hd]. apply Hd.
      apply elem_of_singleton. reflexivity.
    + intros Hf.
      pose proof (inv_live_order Hsane _ _ _ _ Hinv a k (live_reserved _ _ _ a k Hr)).
      pose proof (inv_kval_m _ _ _ _ Hinv). use_sane Hsane.
      eapply (inv_reserved_not_free Hsane _ _ _ _ Hinv a k k Hr); [lia|exact Hf].
  - eapply tiles_ext; [|apply (inv_tiles _ _ _ _ Hinv)].
    intros a0 k0. unfold live. split.
    + intros [Hr0|[Hf|Hh]]; [|right; left; exact Hf|discriminate].
      destruct (decide ((a0, k0) = (a, k))) as [[= -> ->]|Hne].
      * right. right. reflexivity.
      * left. apply elem_of_difference. split; [exact Hr0|].
        intros E. apply elem_of_singleton in E. contradiction.
    + intros [Hr0|[Hf|[= <- <-]]].
      * left. apply elem_of_difference in Hr0 as [Hr0 _]. exact Hr0.
      * right. left. exact Hf.
      * left. exact Hr.
Qed.

(** Putting the block in hand on the free list of its order. *)
Lemma inv_release st F R a k :
  arena_inv st F R (Some (a, k)) ->
  meta st (Mem a) = Some (BLOCK_AVAIL, k) ->
  exists st', push_front st k (Mem a) = Some st' /\
    same_frame st st' /\
    arena_ok st' (<[k := a :: F k]> F) R.
Proof.
  intros Hinv Hma.
  pose proof (live_held F R _ a k eq_refl) as Hlive.
  destruct (inv_live_range Hsane _ _ _ _ Hinv a k Hlive) as (Hk & _).
  assert (Hfresh : forall i, 0 <= i < MAX_K -> a ∉ F i).
  { intros i Hi Ha. eapply (inv_held_not_free Hsane _ _ _ _ Hinv a k i); eauto. }
  destruct (inv_push Hsane st F R _ k a Hinv Hk Hfresh) as (st' & E & Hfr & Hm & Hl).
  { eapply inv_live_load; eassumption. }
  exists st'. split; [exact E|]. split; [exact Hfr|].
  eapply arena_inv_rebuild; [exact Hinv|exact Hfr|exact Hl|..].
  - intros i Hi. destruct (decide (i = k)) as [->|Hne].
    + rewrite fn_lookup_insert. apply NoDup_cons. split; [apply Hfresh, Hi|].
      apply (inv_nodup _ _ _ _ Hinv k Hi).
    + rewrite fn_lookup_insert_ne by congruence.
      apply (inv_nodup _ _ _ _ Hinv i Hi).
  - intros i a0 Hi Ha0. unfold hdr_is. rewrite Hm.
    apply elem_of_fn_insert in Ha0 as [[-> Ha0]|[_ Ha0]].
    + apply elem_of_cons in Ha0 as [->|Ha0]; [exact Hma|].
      apply (inv_free _ _ _ _ Hinv k a0 Hi Ha0).
    + apply (inv_free _ _ _ _ Hinv i a0 Hi Ha0).
  - intros a0 k0 Hr. unfold hdr_is. rewrite Hm.
    apply (inv_reserved _ _ _ _ Hinv a0 k0 Hr).
  - discriminate.
  - eapply tiles_ext; [|apply (inv_tiles _ _ _ _ Hinv)].
    intros a0 k0. unfold live. split.
    + intros [Hr|[[Hk0 Hf]|[= <- <-]]]; [left; exact Hr|..].
      * right. left. split; [exact Hk0|]. apply elem_of_fn_insert.
        destruct (decide (k0 = k)) as [->|Hne]; [left|right; split; assumption].
        split; [reflexivity|]. right. exact Hf.
      * right. left. split; [exact Hk|]. rewrite fn_lookup_insert. left.
    + intros [Hr|[[Hk0 Hf]|Hh]]; [left; exact Hr| |discriminate].
      apply elem_of_fn_insert in Hf as [[-> Hf]|[_ Hf]].
      * apply elem_of_cons in Hf as [->|Hf]; [right; right; reflexivity|].
        right. left. split; assumption.
      * right. left. split; assumption.
Qed.

End Steps.

(** ** Bytes on the free lists *)

Section FreeSum.
Context {cfg : LabH}.

Lemma free_sum_insert_aux (F : Z -> list Z) j l (L : list Z) :
  NoDup L ->
  foldr (fun i acc => 2 ^ i * Z.of_nat (length ((<[j := l]> F) i)) + acc) 0 L =
  foldr (fun i acc => 2 ^ i * Z.of_nat (length (F i)) + acc) 0 L +
  (if decide (j ∈ L)
   then 2 ^ j * (Z.of_nat (length l) - Z.of_nat (length (F j))) else 0).
Proof.
  induction L as [|i L IH]; intros Hnd.
  - destruct (decide (j ∈ [])) as [Hin|_]; [inversion Hin|]. simpl. lia.
  - apply NoDup_cons in Hnd as [Hi Hnd].
    cbn [foldr]. rewrite (IH Hnd).
    destruct (decide (i = j)) as [->|Hne].
    + rewrite fn_lookup_insert.
      destruct (decide (j ∈ L)) as [|_]; [contradiction|].
      destruct (decide (j ∈ j :: L)) as [_|Hn]; [lia|].
      exfalso. apply Hn. left.
    + rewrite fn_lookup_insert_ne by congruence.
      destruct (decide (j ∈ L)) as [Hin|Hnin];
        destruct (decide (j ∈ i :: L)) as [Hin'|Hnin']; try lia.
      * exfalso. apply Hnin'. right. exact Hin.
      * exfalso. apply elem_of_cons in Hin' as [->|Hc]; contradiction.
Qed.

Lemma free_sum_insert (F : Z -> list Z) j l :
  0 <= j < MAX_K ->
  free_sum (<[j := l]> F) =
  free_sum F + 2 ^ j * (Z.of_nat (length l) - Z.of_nat (length (F j))).
Proof.
  intros Hj. unfold free_sum.
  rewrite free_sum_insert_aux by apply NoDup_seqZ.
  destruct (decide (j ∈ seqZ 0 MAX_K)) as [_|Hn]; [reflexivity|].
  exfalso. apply Hn. apply elem_of_seqZ. lia.
Qed.

Lemma NoDup_remove_mid {A} (l1 : list A) x l2 :
  NoDup (l1 ++ x :: l2) -> NoDup (l1 ++ l2) /\ x ∉ l1 ++ l2.
Proof.
  intros H. apply NoDup_app in H as (H1 & H12 & H2).
  apply NoDup_cons in H2 as [Hx H2]. split.
  - apply NoDup_app. split; [exact H1|]. split; [|exact H2].
    intros a Ha Ha2. apply (H12 a Ha). right. exact Ha2.
  - intros Hin. apply elem_of_app in Hin as [Hin|Hin]; [|contradiction].
    apply (H12 x Hin). left.
Qed.

End FreeSum.

(** ** The loops of [buddy_malloc] and [buddy_free] *)

Section Loops.
Context {cfg : LabH}.
Hypothesis Hsane : lab_h_sane.

(** The search stops at the first order from [i] on with a free block. *)
Lemma find_avail_ok st F R held n :
  arena_inv st F R held ->
  forall i, 0 <= i -> i + Z.of_nat n <= MAX_K ->
  exists j, find_avail n st i = Some j /\
    i <= j <= i + Z.of_nat n /\
    (forall i', i <= i' < j -> F i' = []) /\
    (j < i + Z.of_nat n -> F j <> []).
Proof.
  intros Hinv. induction n as [|n IH]; intros i Hi Hn.
  - exists i. simpl. split; [reflexivity|]. split; [lia|]. split; intros; lia.
  - cbn [find_avail].
    assert (Hr : 0 <= i < MAX_K) by lia.
    pose proof (inv_sentinel_next _ _ _ _ Hinv i Hr) as Hnx.
    destruct (load st (Sentinel i)) as [s|] eqn:Hs.
    2:{ unfold nextp in Hnx. rewrite Hs in Hnx. discriminate. }
    unfold nextp in Hnx. rewrite Hs in Hnx. simpl in Hnx. injection Hnx as Hnx.
    cbn [mbind option_bind]. rewrite Hnx.
    destruct (F i) as [|a l] eqn:HF; cbn [head_ptr].
    + destruct (decide (Sentinel i <> Sentinel i)) as [Hc|_]; [congruence|].
      destruct (IH (i + 1) ltac:(lia) ltac:(lia)) as (j & E & Hj & Hemp & Hne).
      exists j. split; [exact E|]. split; [lia|]. split.
      * intros i' Hi'. destruct (decide (i' = i)) as [->|]; [exact HF|].
        apply Hemp. lia.
      * intros Hlt. apply Hne. lia.
    + destruct (decide (Mem a <> Sentinel i)) as [_|Hc];
        [|exfalso; apply Hc; discriminate].
      exists i. split; [reflexivity|]. split; [lia|]. split; [intros; lia|].
      intros _. rewrite HF. discriminate.
Qed.

(** One round of the split loop: the upper half of the block in hand goes
    on the free list one order down. *)
Lemma inv_split_step st F R a j :
  arena_inv st F R (Some (a, j + 1)) -> SMALLEST_K <= j ->
  exists st',
    (forall (A : Type) (K : state -> option A),
       (st1 ← set_tag st (Mem (a + 2 ^ j)) BLOCK_AVAIL;
        st2 ← set_kval st1 (Mem (a + 2 ^ j)) j;
        st3 ← push_front st2 j (Mem (a + 2 ^ j));
        K st3) = K st') /\
    same_frame st st' /\
    arena_inv st' (<[j := (a + 2 ^ j) :: F j]> F) R (Some (a, j)).
Proof.
  intros Hinv Hj. use_sane Hsane.
  pose proof (live_held F R _ a (j + 1) eq_refl) as Hlive.
  destruct (inv_live_range Hsane _ _ _ _ Hinv a (j + 1) Hlive)
    as (Hk & Hal & Hlo & Hhi).
  pose proof (pow2_pos j ltac:(lia)) as Hpj.
  pose proof (pow2_succ j ltac:(lia)) as Hsj.
  pose proof (hdr_fits Hsane j Hj) as Hhdr.
  set (y := a + 2 ^ j) in *.
  assert (Hfresh : forall k, ~ live F R (Some (a, j + 1)) y k).
  { intros k. eapply (inv_inside_held_fresh Hsane _ _ _ _ Hinv a (j + 1));
      [reflexivity|]. subst y. lia. }
  assert (Hld : is_Some (load st (Mem y))).
  { destruct (inv_base _ _ _ _ Hinv) as (Hb & _ & _).
    apply (load_in_arena _ _ Hb); [subst y; lia|].
    rewrite (inv_numbytes _ _ _ _ Hinv). subst y. lia. }
  destruct (set_tag_ex st (Mem y) BLOCK_AVAIL Hld) as (st1 & E1 & U1).
  assert (Hld1 : is_Some (load st1 (Mem y)))
    by (apply (updates_is_Some _ _ _ _ _ U1), Hld).
  destruct (set_kval_ex st1 (Mem y) j Hld1) as (st2 & E2 & U2).
  assert (Hfr2 : same_frame st st2).
  { eapply same_frame_trans; eapply updates_frame; eassumption. }
  assert (Hmy : meta st2 (Mem y) = Some (BLOCK_AVAIL, j)).
  { rewrite (meta_set_kval _ _ _ _ _ U2), decide_True by reflexivity.
    rewrite (meta_set_tag _ _ _ _ _ U1), decide_True by reflexivity.
    destruct Hld as [h Hh]. unfold meta. rewrite Hh. reflexivity. }
  assert (Hmo : forall a0, a0 <> y -> meta st2 (Mem a0) = meta st (Mem a0)).
  { intros a0 Hne.
    rewrite (meta_set_kval _ _ _ _ _ U2), decide_False by congruence.
    rewrite (meta_set_tag _ _ _ _ _ U1), decide_False by congruence.
    reflexivity. }
  assert (Hinv2 : arena_inv st2 F R (Some (a, j + 1))).
  { eapply arena_inv_transport; [exact Hinv|exact Hfr2|..].
    - intros r. rewrite (nextp_set_kval _ _ _ _ _ U2).
      apply (nextp_set_tag _ _ _ _ _ U1).
    - intros r. rewrite (prevp_set_kval _ _ _ _ _ U2).
      apply (prevp_set_tag _ _ _ _ _ U1).
    - intros a0 k0 Hl0. apply Hmo. intros ->. apply (Hfresh k0).
      destruct Hl0 as [Hr|[Hf|Hh]]; [left; exact Hr|right; left; exact Hf|].
      discriminate. }
  assert (Hyfree : forall i, 0 <= i < MAX_K -> y ∉ F i).
  { intros i Hi Hy. apply (Hfresh i). right. left. split; assumption. }
  assert (Hjr : 0 <= j < MAX_K) by lia.
  destruct (inv_push Hsane st2 F R _ j y Hinv2 Hjr Hyfree)
    as (st3 & E3 & Hfr3 & Hm3 & Hl3).
  { apply (updates_is_Some _ _ _ _ _ U2), Hld1. }
  exists st3. split.
  { intros A K. rewrite E1. simpl. rewrite E2. simpl. rewrite E3. reflexivity. }
  assert (Hfr : same_frame st st3) by (eapply same_frame_trans; eassumption).
  split; [exact Hfr|].
  assert (Hnot : forall k0, live F R (Some (a, j + 1)) a k0 -> k0 = j + 1).
  { intros k0 Hl0. eapply (inv_live_unique Hsane _ _ _ _ Hinv a); eassumption. }
  eapply arena_inv_rebuild; [exact Hinv|exact Hfr|exact Hl3|..].
  - intros i Hi. destruct (decide (i = j)) as [->|Hne].
    + rewrite fn_lookup_insert. apply NoDup_cons.
      split; [apply Hyfree, Hi|apply (inv_nodup _ _ _ _ Hinv j Hi)].
    + rewrite fn_lookup_insert_ne by congruence.
      apply (inv_nodup _ _ _ _ Hinv i Hi).
  - intros i a0 Hi Ha0. unfold hdr_is. rewrite Hm3.
    apply elem_of_fn_insert in Ha0 as [[-> Ha0]|[_ Ha0]].
    + apply elem_of_cons in Ha0 as [->|Ha0]; [exact Hmy|].
      apply (inv_free _ _ _ _ Hinv2 j a0 Hi Ha0).
    + apply (inv_free _ _ _ _ Hinv2 i a0 Hi Ha0).
  - intros a0 k0 Hr. unfold hdr_is. rewrite Hm3.
    apply (inv_reserved _ _ _ _ Hinv2 a0 k0 Hr).
  - intros a0 k0 [= <- <-]. split.
    + intros Hr. pose proof (Hnot j (live_reserved _ _ _ a j Hr)). lia.
    + rewrite fn_lookup_insert. intros Hin.
      apply elem_of_cons in Hin as [Hin|Hin]; [subst y; lia|].
      pose proof (Hnot j (live_free _ _ _ j a Hjr Hin)). lia.
  - eapply tiles_ext;
      [|apply (tiles_split _ _ (sane_smallest Hsane) _ a j
                 (inv_tiles _ _ _ _ Hinv) Hlive Hj)].
    intros a0 k0. simpl. unfold live. split.
    + intros [[[Hr|[[Hk0 Hf]|Hh]] Hne]|[[-> ->]|[-> ->]]].
      * left. exact Hr.
      * right. left. split; [exact Hk0|]. apply elem_of_fn_insert.
        destruct (decide (k0 = j)) as [->|Hkj]; [left|right; split; assumption].
        split; [reflexivity|]. right. exact Hf.
      * congruence.
      * right. right. reflexivity.
      * right. left. split; [exact Hjr|]. rewrite fn_lookup_insert. left.
    + intros [Hr|[[Hk0 Hf]|[= <- <-]]].
      * left. split; [left; exact Hr|].
        intros [= -> ->].
        eapply (inv_held_not_reserved Hsane _ _ _ _ Hinv a (j + 1)); eauto.
      * apply elem_of_fn_insert in Hf as [[-> Hf]|[Hkj Hf]].
        -- apply elem_of_cons in Hf as [->|Hf]; [right; right; split; reflexivity|].
           left. split; [right; left; split; assumption|]. intros [= _ E]. lia.
        -- left. split; [right; left; split; assumption|].
           intros [= -> ->].
           eapply (inv_held_not_free Hsane _ _ _ _ Hinv a (j + 1)); eauto.
      * right. left. split; reflexivity.
Qed.

Lemma split_ok R n :
  forall st F a i k,
  arena_inv st F R (Some (a, i)) -> i = k + Z.of_nat n -> SMALLEST_K <= k ->
  exists st' F', split n st (Mem a) i = Some st' /\
    same_frame st st' /\
    arena_inv st' F' R (Some (a, k)) /\
    free_sum F' + 2 ^ k = free_sum F + 2 ^ i.
Proof.
  induction n as [|n IH]; intros st F a i k Hinv Hi Hk.
  - exists st, F. simpl. replace i with k in * by lia.
    split; [reflexivity|]. split; [apply same_frame_refl|]. split; [exact Hinv|].
    reflexivity.
  - use_sane Hsane.
    pose proof (live_held F R _ a i eq_refl) as Hlive.
    destruct (inv_live_range Hsane _ _ _ _ Hinv a i Hlive) as (Hir & _).
    cbn [split]. rewrite shl1_pow by lia. simpl.
    replace i with ((i - 1) + 1) in Hinv by lia.
    destruct (inv_split_step st F R a (i - 1) Hinv ltac:(lia))
      as (st1 & E1 & Hfr1 & Hinv1).
    rewrite E1.
    destruct (IH st1 _ a (i - 1) k Hinv1 ltac:(lia) Hk)
      as (st' & F' & E & Hfr & Hinv' & Hsum).
    exists st', F'. split; [exact E|].
    split; [eapply same_frame_trans; eassumption|]. split; [exact Hinv'|].
    rewrite Hsum. rewrite free_sum_insert by lia. simpl.
    pose proof (pow2_succ (i - 1) ltac:(lia)) as Hs.
    replace (i - 1 + 1) with i in Hs by lia. lia.
Qed.

End Loops.

(** ** Coalescing on a well-formed arena *)

Section Coalescing.
Context {cfg : LabH}.
Hypothesis Hsane : lab_h_sane.

Lemma buddy_calc_ok st a b k h :
  base (pool st) = Mem b -> load st (Mem a) = Some h -> kval h = k ->
  0 <= k < 64 -> 0 <= a - b < 2 ^ 64 ->
  buddy_calc st (Mem a) = Some (Mem (buddy_of b a k)).
Proof.
  intros Hb Hl Hk Hk64 Hoff. unfold buddy_calc. rewrite Hb, Hl. simpl.
  rewrite Hk, shl1_pow by assumption. simpl.
  rewrite wrap_small by assumption. reflexivity.
Qed.

Lemma meta_load st r t k :
  meta st r = Some (t, k) ->
  exists h, load st r = Some h /\ tag h = t /\ kval h = k.
Proof.
  unfold meta. destruct (load st r) as [h|]; simpl; [|discriminate].
  intros [= <- <-]. eauto.
Qed.

(** One round of the coalescing loop with the block at [a] of order [k]
    in hand: it breaks, or takes the buddy off the free list of order [k]
    and goes on with the pair as one block of order [k + 1]. *)
Lemma inv_merge_step st F R a k :
  arena_inv st F R (Some (a, k)) ->
  meta st (Mem a) = Some (BLOCK_AVAIL, k) ->
  k < kval_m (pool st) ->
  coalesce_body st (Mem a) k = Some None \/
  exists st' l1 l2 a',
    F k = l1 ++ buddy_of (arena_base st) a k :: l2 /\
    a' = Z.min a (buddy_of (arena_base st) a k) /\
    coalesce_body st (Mem a) k = Some (Some (st', Mem a', k + 1)) /\
    same_frame st st' /\
    arena_inv st' (<[k := l1 ++ l2]> F) R (Some (a', k + 1)) /\
    meta st' (Mem a') = Some (BLOCK_AVAIL, k + 1) /\
    a' <= a /\ a + 2 ^ k <= a' + 2 ^ (k + 1).
Proof.
  intros Hinv Hma Hkm. use_sane Hsane.
  pose proof (live_held F R _ a k eq_refl) as Hlive.
  destruct (inv_live_range Hsane _ _ _ _ Hinv a k Hlive) as (Hk & Hal & Hlo & Hhi).
  destruct (inv_base _ _ _ _ Hinv) as (Hb & Hbpos & Htop).
  pose proof (inv_kval_m _ _ _ _ Hinv) as Hm.
  pose proof (pow2_pos k ltac:(lia)) as Hpk.
  set (b := arena_base st) in *.
  set (y := buddy_of b a k) in *.
  destruct (meta_load _ _ _ _ Hma) as (h & Hh & Hht & Hhk).
  assert (Hbc : buddy_calc st (Mem a) = Some (Mem y)).
  { apply (buddy_calc_ok st a b k h Hb Hh Hhk); lia. }
  destruct (tiles_buddy_live _ _ (sane_smallest Hsane) _ a k
              (inv_tiles _ _ _ _ Hinv) Hlive Hkm) as (j & Hjk & Hly).
  fold b in Hly. fold y in Hly.
  destruct (buddy_parent b a k ltac:(lia) Hlo Hal) as (par & Hpal & Hpb & Hcase).
  fold y in Hcase.
  assert (Hya : y <> a) by lia.
  pose proof (inv_live_load Hsane _ _ _ _ Hinv y j Hly) as [hb Hhb].
  unfold coalesce_body. rewrite Hbc. simpl. rewrite Hhb. simpl.
  destruct (decide (tag hb <> BLOCK_AVAIL \/ kval hb <> k)) as [Hbrk|Hgo];
    [left; reflexivity|right].
  assert (Htag : tag hb = BLOCK_AVAIL).
  { destruct (decide (tag hb = BLOCK_AVAIL)); [assumption|]. exfalso. auto. }
  assert (Hkv : kval hb = k).
  { destruct (decide (kval hb = k)); [assumption|]. exfalso. auto. }
  assert (Hmy : meta st (Mem y) = Some (BLOCK_AVAIL, k)).
  { unfold meta. rewrite Hhb. simpl. rewrite Htag, Hkv. reflexivity. }
  assert (Hyf : y ∈ F k).
  { destruct Hly as [Hr|[[Hj Hf]|Hh']].
    - pose proof (inv_reserved _ _ _ _ Hinv y j Hr) as Hr'. unfold hdr_is in Hr'.
      rewrite Hmy in Hr'. congruence.
    - pose proof (inv_free _ _ _ _ Hinv j y Hj Hf) as Hf'. unfold hdr_is in Hf'.
      rewrite Hmy in Hf'. injection Hf' as ->. exact Hf.
    - congruence. }
  apply list_elem_of_split in Hyf as (l1 & l2 & HF).
  destruct (inv_unlink Hsane st F R _ k l1 y l2 Hinv Hk HF)
    as (st1 & E1 & Hfr1 & Hm1 & Hl1).
  rewrite E1. simpl.
  pose proof (inv_nodup _ _ _ _ Hinv k Hk) as Hnd. rewrite HF in Hnd.
  apply NoDup_remove_mid in Hnd as [Hnd Hy12].
  set (a' := Z.min a y).
  assert (Hblk : (if y <? a then Mem y else Mem a) = Mem a').
  { subst a'. destruct (Z.ltb_spec y a); f_equal; lia. }
  rewrite Hblk.
  assert (Hma' : meta st1 (Mem a') = Some (BLOCK_AVAIL, k)).
  { rewrite Hm1. subst a'. destruct (Z.min_spec a y) as [[_ ->]|[_ ->]]; assumption. }
  destruct (set_kval_ex st1 (Mem a') (k + 1)) as (st2 & E2 & U2).
  { eapply meta_Some_load, Hma'. }
  rewrite E2. simpl.
  exists st2, l1, l2, a'. split; [exact HF|]. split; [reflexivity|].
  split; [reflexivity|].
  assert (Hfr : same_frame st st2).
  { eapply same_frame_trans; [exact Hfr1|eapply updates_frame; exact U2]. }
  split; [exact Hfr|].
  assert (Hma2 : meta st2 (Mem a') = Some (BLOCK_AVAIL, k + 1)).
  { rewrite (meta_set_kval _ _ _ _ _ U2), decide_True by reflexivity.
    rewrite Hma'. reflexivity. }
  assert (Hcont : a' <= a /\ a + 2 ^ k <= a' + 2 ^ (k + 1)).
  { pose proof (pow2_succ k ltac:(lia)). subst a'. lia. }
  split; [|split; [exact Hma2|exact Hcont]].
  assert (Hmo : forall a0, a0 <> a' -> meta st2 (Mem a0) = meta st (Mem a0)).
  { intros a0 Hne.
    rewrite (meta_set_kval _ _ _ _ _ U2), decide_False by congruence.
    apply Hm1. }
  assert (Ha'cases : a' = a \/ a' = y) by (subst a'; lia).
  assert (Hsub : forall i a0, a0 ∈ (<[k := l1 ++ l2]> F) i -> a0 ∈ F i).
  { intros i a0 Ha0. apply elem_of_fn_insert in Ha0 as [[-> Ha0]|[_ Ha0]];
      [|exact Ha0].
    rewrite HF. apply elem_of_app in Ha0 as [Ha0|Ha0]; apply elem_of_app;
      [left; exact Ha0|right; right; exact Ha0]. }
  assert (Hyk : y ∈ F k) by (rewrite HF; apply elem_of_app; right; left).
  assert (Hnf : forall i a0, 0 <= i < MAX_K ->
                  a0 ∈ (<[k := l1 ++ l2]> F) i -> a0 <> a').
  { intros i a0 Hi Ha0 ->. destruct Ha'cases as [E|E]; rewrite E in Ha0.
    - eapply (inv_held_not_free Hsane _ _ _ _ Hinv a k i);
        [reflexivity|exact Hi|apply Hsub, Ha0].
    - apply elem_of_fn_insert in Ha0 as [[-> Ha0]|[Hne Ha0]]; [contradiction|].
      apply Hne. eapply (inv_cross Hsane _ _ _ _ Hinv i k y); eassumption. }
  assert (Hnr : forall a0 k0, (a0, k0) ∈ R -> a0 <> a').
  { intros a0 k0 Hr ->. destruct Ha'cases as [E|E]; rewrite E in Hr.
    - eapply (inv_held_not_reserved Hsane _ _ _ _ Hinv a k k0); eauto.
    - eapply (inv_reserved_not_free Hsane _ _ _ _ Hinv y k0 k); eassumption. }
  eapply arena_inv_rebuild; [exact Hinv|exact Hfr|..].
  - intros i Hi.
    eapply chain_frame; [| | | |apply (Hl1 i Hi)]; intros;
      first [apply (nextp_set_kval _ _ _ _ _ U2)
            |apply (prevp_set_kval _ _ _ _ _ U2)].
  - intros i Hi. destruct (decide (i = k)) as [->|Hne].
    + rewrite fn_lookup_insert. exact Hnd.
    + rewrite fn_lookup_insert_ne by congruence.
      apply (inv_nodup _ _ _ _ Hinv i Hi).
  - intros i a0 Hi Ha0. unfold hdr_is. rewrite Hmo by (eapply Hnf; eassumption).
    apply (inv_free _ _ _ _ Hinv i a0 Hi), Hsub, Ha0.
  - intros a0 k0 Hr. unfold hdr_is. rewrite Hmo by (eapply Hnr; eassumption).
    apply (inv_reserved _ _ _ _ Hinv a0 k0 Hr).
  - intros a0 k0 [= <- <-]. split.
    + intros Hr. eapply Hnr; [exact Hr|reflexivity].
    + intros Hf. eapply (Hnf (k + 1)); [lia|exact Hf|reflexivity].
  - eapply tiles_ext;
      [|apply (tiles_merge _ _ (sane_smallest Hsane) _ a k a'
                 (inv_tiles _ _ _ _ Hinv) Hlive)].
    + intros a0 k0. simpl. fold b. fold y. unfold live. split.
      * intros [[[Hr|[[Hk0 Hf]|Hh']] [Hne1 Hne2]]|[-> ->]].
        -- left. exact Hr.
        -- right. left. split; [exact Hk0|]. apply elem_of_fn_insert.
           destruct (decide (k0 = k)) as [->|Hkk]; [left|right; split; assumption].
           split; [reflexivity|]. rewrite HF in Hf.
           apply elem_of_app in Hf as [Hf|Hf]; apply elem_of_app; [left; exact Hf|].
           apply elem_of_cons in Hf as [->|Hf]; [congruence|right; exact Hf].
        -- congruence.
        -- right. right. reflexivity.
      * intros [Hr|[[Hk0 Hf]|[= <- <-]]].
        -- left. split; [left; exact Hr|]. split; intros [= -> ->].
           ++ eapply (inv_held_not_reserved Hsane _ _ _ _ Hinv a k k); eauto.
           ++ eapply (inv_reserved_not_free Hsane _ _ _ _ Hinv y k k); eassumption.
        -- left. split; [right; left; split; [exact Hk0|apply Hsub, Hf]|].
           split; intros [= -> ->].
           ++ eapply (inv_held_not_free Hsane _ _ _ _ Hinv a k k);
                [reflexivity|exact Hk|apply Hsub, Hf].
           ++ rewrite fn_lookup_insert in Hf. contradiction.
        -- right. split; reflexivity.
    + fold b. fold y. right. left. split; assumption.
    + exact Hkm.
    + reflexivity.
Qed.

(** The coalescing loop. *)
Lemma coalesce_ok R n :
  forall st F a k,
  arena_inv st F R (Some (a, k)) ->
  meta st (Mem a) = Some (BLOCK_AVAIL, k) ->
  Z.of_nat n = kval_m (pool st) - k ->
  exists st' F' a' k',
    coalesce n st (Mem a) k = Some (st', Mem a', k') /\
    same_frame st st' /\
    arena_inv st' F' R (Some (a', k')) /\
    meta st' (Mem a') = Some (BLOCK_AVAIL, k') /\
    free_sum F' + 2 ^ k' = free_sum F + 2 ^ k /\
    k <= k' <= kval_m (pool st) /\
    a' <= a /\ a + 2 ^ k <= a' + 2 ^ k'.
Proof.
  induction n as [|n IH]; intros st F a k Hinv Hma Hn.
  - exists st, F, a, k. simpl. split; [reflexivity|].
    split; [apply same_frame_refl|]. split; [exact Hinv|]. split; [exact Hma|].
    repeat split; lia.
  - cbn [coalesce].
    destruct (inv_merge_step st F R a k Hinv Hma ltac:(lia))
      as [E|(st1 & l1 & l2 & a1 & HF & _ & E & Hfr1 & Hinv1 & Hma1 & Hc1)].
    + rewrite E. simpl. exists st, F, a, k. split; [reflexivity|].
      split; [apply same_frame_refl|]. split; [exact Hinv|].
      split; [exact Hma|]. repeat split; lia.
    + rewrite E. simpl.
      pose proof Hfr1 as (Hkm & _).
      destruct (IH st1 _ a1 (k + 1) Hinv1 Hma1 ltac:(lia))
        as (st' & F' & a' & k' & E' & Hfr & Hinv' & Hma' & Hsum & Hk' & Hc').
      exists st', F', a', k'. split; [exact E'|].
      split; [eapply same_frame_trans; eassumption|].
      split; [exact Hinv'|]. split; [exact Hma'|].
      pose proof (live_held F R _ a k eq_refl) as Hlive.
      destruct (inv_live_range Hsane _ _ _ _ Hinv a k Hlive) as (Hk & _).
      split; [|repeat split; lia].
      rewrite Hsum. rewrite free_sum_insert by lia. rewrite HF.
      rewrite !length_app. simpl.
      pose proof (pow2_succ k ltac:(lia)). lia.
Qed.

End Coalescing.

(** ** [buddy_malloc] and [buddy_free] on a well-formed arena *)

Section Interface.
Context {cfg : LabH}.
Hypothesis Hsane : lab_h_sane.

Lemma buddy_free_ok st F R a k :
  arena_ok st F R -> (a, k) ∈ R ->
  exists st' F',
    buddy_free st ThePool (Mem (a + sizeof_avail)) = Some st' /\
    same_frame st st' /\
    arena_ok st' F' (R ∖ {[(a, k)]}) /\
    free_sum F' = free_sum F + 2 ^ k /\
    exists a' k' l, F' k' = a' :: l /\ k <= k' <= kval_m (pool st) /\
      a' <= a /\ a + 2 ^ k <= a' + 2 ^ k'.
Proof.
  intros Hinv Hr. use_sane Hsane.
  pose proof (live_reserved F R None a k Hr) as Hlive.
  pose proof (inv_live_order Hsane _ _ _ _ Hinv a k Hlive) as Hk.
  pose proof (inv_reserved _ _ _ _ Hinv a k Hr) as Hmeta.
  destruct (meta_load _ _ _ _ Hmeta) as (h & Hh & _ & Hhk).
  unfold buddy_free. cbn [avail_pred mbind option_bind].
  replace (a + sizeof_avail - sizeof_avail) with a by lia.
  rewrite Hh. cbn [mbind option_bind]. rewrite Hhk.
  destruct (inv_unreserve Hsane st F R a k Hinv Hr) as (st1 & E1 & Hfr1 & Hinv1 & Hma1).
  rewrite E1. cbn [mbind option_bind].
  pose proof Hfr1 as (Hkm1 & _).
  destruct (coalesce_ok Hsane _ (Z.to_nat (kval_m (pool st1) - k)) st1 F a k
              Hinv1 Hma1 ltac:(lia))
    as (st2 & F2 & a2 & k2 & E2 & Hfr2 & Hinv2 & Hma2 & Hsum & Hk2 & Hc2).
  rewrite E2. cbn [mbind option_bind].
  destruct (inv_release Hsane st2 F2 _ a2 k2 Hinv2 Hma2) as (st3 & E3 & Hfr3 & Hinv3).
  exists st3, (<[k2 := a2 :: F2 k2]> F2). split; [exact E3|].
  split.
  { eapply same_frame_trans; [exact Hfr1|].
    eapply same_frame_trans; eassumption. }
  split; [exact Hinv3|].
  pose proof (inv_kval_m _ _ _ _ Hinv) as Hm.
  split.
  - rewrite free_sum_insert by lia. simpl.
    replace (Z.of_nat (S (length (F2 k2))) - Z.of_nat (length (F2 k2))) with 1
      by lia.
    lia.
  - exists a2, k2, (F2 k2). rewrite fn_lookup_insert.
    split; [reflexivity|]. split; [lia|]. exact Hc2.
Qed.

Lemma buddy_malloc_ok st F R size :
  arena_ok st F R -> size <> 0 ->
  ((forall i, btok size <= i <= kval_m (pool st) -> F i = []) /\
   buddy_malloc st ThePool size = Some (NULL, set_errno ENOMEM st)) \/
  (btok size <= kval_m (pool st) /\
   (exists i, btok size <= i <= kval_m (pool st) /\ F i <> []) /\
   exists a st' F',
     buddy_malloc st ThePool size = Some (Mem (a + sizeof_avail), st') /\
     same_frame st st' /\
     (forall k', (a, k') ∉ R) /\
     arena_ok st' F' ({[(a, btok size)]} ∪ R) /\
     free_sum F' + 2 ^ btok size = free_sum F).
Proof.
  intros Hinv Hz. use_sane Hsane.
  assert (Hk : SMALLEST_K <= btok size <= MAX_K - 1)
    by (apply btok_bounds; [assumption|lia]).
  pose proof (inv_kval_m _ _ _ _ Hinv) as Hm.
  set (k := btok size) in *. set (km := kval_m (pool st)) in *.
  unfold buddy_malloc. destruct (Z.eqb_spec size 0) as [|_]; [contradiction|].
  fold k. fold km.
  destruct (Z.ltb_spec km k) as [Hbig|Hfit].
  { left. split; [intros; lia|reflexivity]. }
  destruct (find_avail_ok st F R None (Z.to_nat (km + 1 - k)) Hinv k
              ltac:(lia) ltac:(lia)) as (j & Ej & Hj & Hemp & Hne).
  rewrite Ej. cbn [mbind option_bind].
  destruct (Z.ltb_spec km j) as [Hnone|Hsome].
  { left. split; [|reflexivity]. intros i Hi. apply Hemp. lia. }
  right. split; [exact Hfit|].
  specialize (Hne ltac:(lia)).
  split; [exists j; split; [lia|exact Hne]|].
  destruct (F j) as [|x l] eqn:HF; [contradiction|].
  assert (Hjr : 0 <= j < MAX_K) by lia.
  pose proof (inv_sentinel_next _ _ _ _ Hinv j Hjr) as Hnx.
  rewrite HF in Hnx. cbn [head_ptr] in Hnx.
  destruct (load st (Sentinel j)) as [s|] eqn:Hs;
    [|unfold nextp in Hnx; rewrite Hs in Hnx; discriminate].
  unfold nextp in Hnx. rewrite Hs in Hnx. cbn in Hnx. injection Hnx as Hnx.
  cbn [mbind option_bind]. rewrite Hnx.
  destruct (inv_take Hsane st F R j x l Hinv Hjr HF) as (st1 & E1 & Hfr1 & Hinv1).
  rewrite E1. cbn [mbind option_bind].
  destruct (split_ok Hsane R (Z.to_nat (j - k)) st1 _ x j k Hinv1 ltac:(lia)
              ltac:(lia)) as (st2 & F2 & E2 & Hfr2 & Hinv2 & Hsum).
  rewrite E2. cbn [mbind option_bind].
  destruct (inv_reserve Hsane st2 F2 R x k Hinv2) as (st3 & E3 & Hfr3 & Hinv3).
  rewrite E3. cbn [avail_succ mbind option_bind].
  exists x, st3, F2. split; [reflexivity|].
  split.
  { eapply same_frame_trans; [exact Hfr1|].
    eapply same_frame_trans; eassumption. }
  split.
  { intros k' Hr.
    eapply (inv_held_not_reserved Hsane _ _ _ _ Hinv2 x k k'); eauto. }
  split; [exact Hinv3|].
  rewrite Hsum. rewrite free_sum_insert by lia. rewrite HF. simpl.
  replace (Z.of_nat (length l) - Z.of_nat (S (length l))) with (-1) by lia.
  lia.
Qed.

End Interface.

(** ** Reading the free lists off the state *)

Section Walk.
Context {cfg : LabH}.
Hypothesis Hsane : lab_h_sane.

Lemma load_written st a h :
  load st (Mem a) = Some h -> h <> zero_avail -> is_Some (heap st !! a).
Proof.
  unfold load. destruct (in_arena (pool st) a); [|discriminate].
  destruct (heap st !! a) as [h'|]; [eauto|].
  simpl. intros [= <-] H. contradiction.
Qed.

(** The nodes of a run are headers that were written. *)
Lemma chain_written st p l q a :
  chain st p l q -> p <> NULL -> a ∈ l -> is_Some (heap st !! a).
Proof.
  revert p. induction l as [|c l IH]; intros p Hc Hp Ha.
  - inversion Ha.
  - destruct Hc as [[_ Hl] Hc]. apply elem_of_cons in Ha as [->|Ha].
    + unfold prevp in Hl. destruct (load st (Mem c)) as [h|] eqn:Hh;
        [|discriminate].
      simpl in Hl. injection Hl as Hl.
      apply (load_written st c h Hh). intros ->. simpl in Hl. congruence.
    + apply (IH (Mem c)); [exact Hc|discriminate|exact Ha].
Qed.

Lemma walk_chain st i l :
  forall p fuel, chain st p l (Sentinel i) -> (length l < fuel)%nat ->
  walk fuel st (Sentinel i) (head_ptr l (Sentinel i)) = Mem <$> l.
Proof.
  induction l as [|a l IH]; intros p fuel Hc Hf.
  - destruct fuel as [|f]; [reflexivity|]. cbn [walk head_ptr].
    rewrite decide_True by reflexivity. reflexivity.
  - destruct fuel as [|f]; [simpl in Hf; lia|].
    destruct Hc as [_ Hc]. cbn [walk head_ptr].
    rewrite decide_False by discriminate.
    pose proof (chain_head _ _ _ _ Hc) as [Hn _].
    unfold nextp in Hn. destruct (load st (Mem a)) as [h|]; [|discriminate].
    simpl in Hn. injection Hn as Hn. rewrite Hn.
    rewrite fmap_cons. f_equal. apply (IH (Mem a)); [exact Hc|].
    simpl in Hf. lia.
Qed.

Lemma free_list_nodes_ok st F R held i :
  arena_inv st F R held -> 0 <= i < MAX_K ->
  free_list_nodes st i = Mem <$> F i.
Proof.
  intros Hinv Hi.
  pose proof (inv_lists _ _ _ _ Hinv i Hi) as Hc. unfold free_list in Hc.
  pose proof (inv_sentinel_next _ _ _ _ Hinv i Hi) as Hn.
  unfold free_list_nodes. unfold nextp in Hn.
  destruct (load st (Sentinel i)) as [s|]; [|discriminate].
  simpl in Hn. injection Hn as ->.
  apply (walk_chain st i (F i) (Sentinel i)); [exact Hc|].
  assert (length (F i) <= size (heap st))%nat; [|lia].
  rewrite <- size_dom. unfold size, set_size. simpl.
  apply submseteq_length, NoDup_submseteq.
  - apply (inv_nodup _ _ _ _ Hinv i Hi).
  - intros a Ha. apply elem_of_elements, elem_of_dom.
    apply (chain_written st (Sentinel i) (F i) (Sentinel i) a Hc);
      [discriminate|exact Ha].
Qed.

(** The free byte count read off the state is the one of the lists. *)
Lemma free_bytes_ok st F R held :
  arena_inv st F R held -> free_bytes st = free_sum F.
Proof.
  intros Hinv. unfold free_bytes, free_sum.
  assert (Hall : Forall (fun i => 0 <= i < MAX_K) (seqZ 0 MAX_K)).
  { apply Forall_forall. intros i Hi. apply elem_of_seqZ in Hi. lia. }
  induction Hall as [|i L Hi _ IH]; [reflexivity|].
  cbn [foldr]. rewrite IH.
  rewrite (free_list_nodes_ok st F R held i Hinv Hi), length_fmap.
  reflexivity.
Qed.

End Walk.

(** ** [buddy_init] *)

Section Init.
Context {cfg : LabH}.
Hypothesis Hsane : lab_h_sane.

Lemma init_kval_bounds size : SMALLEST_K <= init_kval size <= MAX_K - 1.
Proof.
  use_sane Hsane. unfold init_kval.
  destruct (Z.eqb_spec size 0); [lia|].
  destruct (Z.ltb_spec (btok size) MIN_K);
    [destruct (Z.leb_spec MAX_K MIN_K)|destruct (Z.leb_spec MAX_K (btok size))];
    lia.
Qed.

Lemma init_avail_ok n :
  forall st i, 0 <= i ->
  i + Z.of_nat n <= Z.of_nat (length (avail_ (pool st))) ->
  exists st', init_avail n st i = Some st' /\
    same_frame st st' /\ heap st' = heap st /\
    (forall j, load st' (Sentinel j) =
       if decide (i <= j < i + Z.of_nat n)
       then Some (mkAvail BLOCK_UNUSED j (Sentinel j) (Sentinel j))
       else load st (Sentinel j)) /\
    (forall a, load st' (Mem a) = load st (Mem a)).
Proof.
  induction n as [|n IH]; intros st i Hi Hlen.
  - exists st. simpl. split; [reflexivity|]. split; [apply same_frame_refl|].
    split; [reflexivity|]. split; [|reflexivity].
    intros j. rewrite decide_False by lia. reflexivity.
  - cbn [init_avail].
    destruct (store st (Sentinel i)
                (mkAvail BLOCK_UNUSED i (Sentinel i) (Sentinel i)))
      as [st1|] eqn:E1.
    2:{ exfalso. assert (Hs : is_Some (load st (Sentinel i))).
        { unfold load. destruct (Z.leb_spec 0 i); [|lia].
          apply lookup_lt_is_Some. lia. }
        apply (store_is_Some st (Sentinel i)
                 (mkAvail BLOCK_UNUSED i (Sentinel i) (Sentinel i))) in Hs.
        rewrite E1 in Hs. destruct Hs; discriminate. }
    cbn [mbind option_bind].
    assert (Hheap : heap st1 = heap st).
    { revert E1. unfold store.
      destruct ((0 <=? i) && (i <? Z.of_nat (length (avail_ (pool st)))));
        [|discriminate].
      intros [= <-]. reflexivity. }
    apply store_spec in E1 as [Hl1 Hfr1].
    pose proof Hfr1 as (_ & _ & _ & Hlen1 & _).
    destruct (IH st1 (i + 1) ltac:(lia) ltac:(lia))
      as (st' & E & Hfr & Hh & Hs & Hm).
    exists st'. split; [exact E|].
    split; [eapply same_frame_trans; eassumption|].
    split; [congruence|]. split.
    + intros j. rewrite Hs, Hl1.
      destruct (decide (i + 1 <= j < i + 1 + Z.of_nat n)) as [H1|H1].
      * rewrite decide_True by lia. reflexivity.
      * destruct (decide (Sentinel j = Sentinel i)) as [[= ->]|Hne].
        -- rewrite decide_True by lia. reflexivity.
        -- rewrite decide_False; [reflexivity|].
           intros H2. apply Hne. f_equal. lia.
    + intros a. rewrite Hm, Hl1. rewrite decide_False by discriminate.
      reflexivity.
Qed.

(** A successful [buddy_init]: what the pool and the arena hold
    afterwards. *)
Lemma buddy_init_ok st size b :
  Z.of_nat (length (avail_ (pool st))) = MAX_K ->
  0 < b -> b + 2 ^ init_kval size <= 2 ^ 64 ->
  exists st', buddy_init st size (Some b) = Some st' /\
    kval_m (pool st') = init_kval size /\
    numbytes (pool st') = 2 ^ init_kval size /\
    base (pool st') = Mem b /\
    os_trace st' = os_trace st ++ [Mmap (2 ^ init_kval size) (Some b)] /\
    load st' (Mem b) =
      Some (mkAvail BLOCK_AVAIL (init_kval size)
              (Sentinel (init_kval size)) (Sentinel (init_kval size))) /\
    load st' (Sentinel (init_kval size)) =
      Some (mkAvail BLOCK_UNUSED (init_kval size) (Mem b) (Mem b)) /\
    (forall i, 0 <= i < MAX_K -> i <> init_kval size ->
       load st' (Sentinel i) =
         Some (mkAvail BLOCK_UNUSED i (Sentinel i) (Sentinel i))) /\
    (forall x, payload st' x = 0) /\
    arena_ok st' (init_lists (init_kval size) b) ∅.
Proof.
  intros Hlen Hb Htop. use_sane Hsane.
  pose proof (init_kval_bounds size) as Hkv.
  set (kv := init_kval size) in *.
  pose proof (hdr_fits Hsane kv ltac:(lia)) as Hhdr.
  unfold buddy_init. fold kv. rewrite shl1_pow by lia.
  cbn [mbind option_bind].
  set (st0 := set_payload (fun _ => 0)
                (set_heap ∅
                   (set_pool
                      (mkPool kv (2 ^ kv) (Mem b)
                         (avail_ (pool (log_os (Mmap (2 ^ kv) (Some b)) st))))
                      (log_os (Mmap (2 ^ kv) (Some b)) st)))).
  destruct (init_avail_ok (Z.to_nat MAX_K) st0 0 ltac:(lia))
    as (st1 & E1 & Hfr1 & Hh1 & Hs1 & Hm1).
  { simpl. lia. }
  rewrite E1. cbn [mbind option_bind].
  assert (Hld0 : load st0 (Mem b) = Some zero_avail).
  { unfold load, in_arena. simpl.
    destruct (Z.leb_spec b b); [|lia].
    destruct (Z.leb_spec (b + sizeof_avail) (b + 2 ^ kv)); [|lia].
    reflexivity. }
  assert (Hld1 : load st1 (Mem b) = Some zero_avail) by (rewrite Hm1; exact Hld0).
  destruct (set_tag_ex st1 (Mem b) BLOCK_AVAIL) as (st2 & E2 & U2); [eauto|].
  rewrite E2. cbn [mbind option_bind].
  pose proof (updates_same _ _ _ _ _ U2 Hld1) as Hld2.
  destruct (set_kval_ex st2 (Mem b) kv) as (st3 & E3 & U3); [eauto|].
  rewrite E3. cbn [mbind option_bind].
  pose proof (updates_same _ _ _ _ _ U3 Hld2) as Hld3.
  destruct (set_next_ex st3 (Mem b) (Sentinel kv)) as (st4 & E4 & U4); [eauto|].
  rewrite E4. cbn [mbind option_bind].
  pose proof (updates_same _ _ _ _ _ U4 Hld3) as Hld4.
  destruct (set_prev_ex st4 (Mem b) (Sentinel kv)) as (st5 & E5 & U5); [eauto|].
  rewrite E5. cbn [mbind option_bind].
  pose proof (updates_same _ _ _ _ _ U5 Hld4) as Hld5.
  cbn in Hld5.
  assert (Hsent : forall j st', 
            (forall q, q <> Mem b -> load st' q = load st1 q) ->
            0 <= j < MAX_K ->
            load st' (Sentinel j) =
              Some (mkAvail BLOCK_UNUSED j (Sentinel j) (Sentinel j))).
  { intros j st' Hsame Hj. rewrite Hsame by discriminate.
    rewrite Hs1, decide_True by lia. reflexivity. }
  assert (Hsame5 : forall q, q <> Mem b -> load st5 q = load st1 q).
  { intros q Hq.
    rewrite (updates_other _ _ _ _ q U5 Hq), (updates_other _ _ _ _ q U4 Hq),
      (updates_other _ _ _ _ q U3 Hq), (updates_other _ _ _ _ q U2 Hq).
    reflexivity. }
  pose proof (Hsent kv st5 Hsame5 ltac:(lia)) as Hk5.
  destruct (set_next_ex st5 (Sentinel kv) (Mem b)) as (st6 & E6 & U6); [eauto|].
  rewrite E6. cbn [mbind option_bind].
  pose proof (updates_same _ _ _ _ _ U6 Hk5) as Hk6.
  destruct (set_prev_ex st6 (Sentinel kv) (Mem b)) as (st7 & E7 & U7); [eauto|].
  rewrite E7.
  pose proof (updates_same _ _ _ _ _ U7 Hk6) as Hk7. cbn in Hk7.
  assert (Hb7 : load st7 (Mem b) =
            Some (mkAvail BLOCK_AVAIL kv (Sentinel kv) (Sentinel kv))).
  { rewrite (updates_other _ _ _ _ _ U7), (updates_other _ _ _ _ _ U6)
      by discriminate. exact Hld5. }
  assert (Hother : forall i, 0 <= i < MAX_K -> i <> kv ->
            load st7 (Sentinel i) =
              Some (mkAvail BLOCK_UNUSED i (Sentinel i) (Sentinel i))).
  { intros i Hi Hne.
    rewrite (updates_other _ _ _ _ _ U7), (updates_other _ _ _ _ _ U6)
      by congruence.
    apply (Hsent i st5 Hsame5 Hi). }
  assert (Hfr : same_frame st0 st7).
  { eapply same_frame_trans; [exact Hfr1|].
    eapply same_frame_trans; [eapply updates_frame; exact U2|].
    eapply same_frame_trans; [eapply updates_frame; exact U3|].
    eapply same_frame_trans; [eapply updates_frame; exact U4|].
    eapply same_frame_trans; [eapply updates_frame; exact U5|].
    eapply same_frame_trans; eapply updates_frame; eassumption. }
  destruct Hfr as (Fk & Fn & Fb & Fl & Fp & Fe & Fo).
  simpl in Fk, Fn, Fb, Fl, Fp, Fo.
  assert (Hbase : arena_base st7 = b) by (unfold arena_base; rewrite Fb; reflexivity).
  exists st7. split; [reflexivity|].
  split; [exact Fk|]. split; [exact Fn|]. split; [exact Fb|].
  split; [exact Fo|]. split; [exact Hb7|]. split; [exact Hk7|].
  split; [exact Hother|]. split; [intros x; rewrite Fp; reflexivity|].
  assert (Hlive : forall a k, live (init_lists kv b) ∅ None a k ->
            a = b /\ k = kv).
  { intros a k [Hr|[[_ Hf]|Hh]]; [inversion Hr| |discriminate].
    unfold init_lists in Hf. destruct (decide (k = kv)) as [->|_].
    - apply list_elem_of_singleton in Hf. auto.
    - inversion Hf. }
  constructor.
  - rewrite Hbase, Fb, Fk. simpl. auto.
  - rewrite Fn, Fk. reflexivity.
  - rewrite Fk. simpl. lia.
  - rewrite Fl. simpl. exact Hlen.
  - intros i Hi. unfold free_list, init_lists.
    destruct (decide (i = kv)) as [->|Hne].
    + simpl. unfold link, nextp, prevp. rewrite Hk7, Hb7. simpl. auto.
    + simpl. unfold link, nextp, prevp. rewrite (Hother i Hi Hne). simpl. auto.
  - intros i _. unfold init_lists. destruct (decide (i = kv));
      [apply NoDup_singleton|apply NoDup_nil_2].
  - intros i a Hi Ha.
    destruct (Hlive a i) as [-> ->]; [right; left; split; assumption|].
    unfold hdr_is, meta. rewrite Hb7. reflexivity.
  - intros a k Hr. inversion Hr.
  - discriminate.
  - rewrite Hbase, Fk. simpl. split.
    + intros a k Hl. destruct (Hlive a k Hl) as [-> ->].
      split; [lia|]. split; [apply aligned_base|]. lia.
    + intros a k a' k' Hl Hl' _.
      destruct (Hlive a k Hl) as [-> ->]. destruct (Hlive a' k' Hl') as [-> ->].
      auto.
    + intros x Hx. exists b, kv. split; [|exact Hx].
      right. left. split; [lia|]. unfold init_lists.
      rewrite decide_True by reflexivity. left.
Qed.

End Init.

(** ** States with the same pool and headers *)

Section SameMemory.
Context {cfg : LabH}.
Hypothesis Hsane : lab_h_sane.

(** The invariant reads the pool and the headers only. *)
Lemma arena_inv_same_memory st st' F R held :
  pool st' = pool st -> heap st' = heap st ->
  arena_inv st F R held -> arena_inv st' F R held.
Proof.
  intros Hp Hh Hinv.
  assert (Hl : forall q, load st' q = load st q).
  { intros q. unfold load. rewrite Hp, Hh. reflexivity. }
  assert (Hb : arena_base st' = arena_base st)
    by (unfold arena_base; rewrite Hp; reflexivity).
  destruct Hinv as [H1 H2 H3 H4 H5 H6 H7 H8 H9 H10].
  constructor; rewrite ?Hb, ?Hp; try assumption.
  - intros i Hi.
    eapply chain_frame; [| | | |apply (H5 i Hi)]; intros;
      unfold nextp, prevp; rewrite Hl; reflexivity.
  - intros i a Hi Ha. unfold hdr_is, meta. rewrite Hl. apply (H7 i a Hi Ha).
  - intros a k Hr. unfold hdr_is, meta. rewrite Hl. apply (H8 a k Hr).
Qed.

End SameMemory.

(** ** A request near the top of the 64-bit range *)

Section Overflow.
Context {cfg : LabH}.
Hypothesis Hsane : lab_h_sane.

(** Whatever the constants of lab.h, as long as the header has two bytes
    or more: [SIZE_MAX] plus the header size wraps around to less than the
    header size, and [btok] answers the smallest order. *)
Lemma btok_size_max : 2 <= sizeof_avail -> btok SIZE_MAX = SMALLEST_K.
Proof.
  intros Hh. use_sane Hsane.
  assert (Hs63 : 2 ^ SMALLEST_K <= 2 ^ 63) by (apply pow2_le_mono; lia).
  rewrite btok_nonzero by (unfold SIZE_MAX; lia). cbv zeta.
  assert (Hw : wrap (SIZE_MAX + sizeof_avail) = sizeof_avail - 1).
  { unfold wrap, SIZE_MAX.
    replace (2 ^ 64 - 1 + sizeof_avail) with (sizeof_avail - 1 + 1 * 2 ^ 64)
      by lia.
    rewrite Z.mod_add by lia. apply Z.mod_small. lia. }
  rewrite Hw. rewrite wrap_small by lia.
  assert (Hlog : Z.log2 (sizeof_avail - 1 - 1) + 1 <= SMALLEST_K).
  { destruct (Z.eq_dec (sizeof_avail - 1 - 1) 0) as [->|Hne].
    - simpl. destruct (Z.eq_dec SMALLEST_K 0) as [E|]; [|lia].
      rewrite E in *. simpl in *. lia.
    - assert (Z.log2 (sizeof_avail - 1 - 1) < SMALLEST_K); [|lia].
      apply Z.log2_lt_pow2; lia. }
  destruct (Z.ltb_spec (Z.log2 (sizeof_avail - 1 - 1) + 1) SMALLEST_K);
    [destruct (Z.leb_spec MAX_K SMALLEST_K)
    |destruct (Z.leb_spec MAX_K (Z.log2 (sizeof_avail - 1 - 1) + 1))]; lia.
Qed.

(** On a well-formed arena with any free block, a request for [SIZE_MAX]
    bytes is served with a block of the smallest order. *)
Lemma buddy_malloc_size_max st F R :
  2 <= sizeof_avail -> arena_ok st F R ->
  (exists i, 0 <= i < MAX_K /\ F i <> []) ->
  numbytes (pool st) < SIZE_MAX /\
  exists a st', buddy_malloc st ThePool SIZE_MAX =
                  Some (Mem (a + sizeof_avail), st') /\
    hdr_is st' a BLOCK_RESERVED SMALLEST_K.
Proof.
  intros Hh Hok (i & Hi & HFi). use_sane Hsane.
  pose proof (inv_kval_m _ _ _ _ Hok) as Hm. split.
  { rewrite (inv_numbytes _ _ _ _ Hok). unfold SIZE_MAX.
    assert (2 ^ kval_m (pool st) <= 2 ^ 63) by (apply pow2_le_mono; lia).
    lia. }
  destruct (F i) as [|x l] eqn:HF; [contradiction|].
  assert (Hlive : live F R None x i)
    by (right; left; split; [exact Hi|rewrite HF; left]).
  pose proof (inv_live_order Hsane _ _ _ _ Hok x i Hlive) as Hio.
  destruct (buddy_malloc_ok Hsane st F R SIZE_MAX Hok ltac:(unfold SIZE_MAX; lia))
    as [[Hemp _]|(_ & _ & a & st' & F' & E & _ & _ & Hok' & _)].
  - exfalso. rewrite btok_size_max in Hemp by assumption.
    rewrite (Hemp i) in HF by lia. discriminate.
  - exists a, st'. split; [exact E|].
    rewrite btok_size_max in Hok' by assumption.
    apply (inv_reserved _ _ _ _ Hok'). apply elem_of_union. left.
    apply elem_of_singleton. reflexivity.
Qed.

End Overflow.

(** ** The customary constants and the small arena *)

Lemma lab_h_is_sane : @lab_h_sane lab_h.
Proof. constructor; lab_h_consts; lia. Qed.

Lemma demo_arena_eq :
  @buddy_init lab_h blank_state 1 (Some 4096) = Some demo_arena.
Proof. vm_compute. reflexivity. Qed.

Lemma demo_alloc_eq :
  @buddy_malloc lab_h demo_arena ThePool 100 = Some demo_alloc.
Proof. vm_compute. reflexivity. Qed.

Lemma demo_arena_ok : @arena_ok lab_h demo_arena (init_lists 20 4096) ∅.
Proof.
  destruct (@buddy_init_ok lab_h lab_h_is_sane blank_state 1 4096)
    as (st & E & _ & _ & _ & _ & _ & _ & _ & _ & Hok);
    [reflexivity|lia|vm_compute; discriminate|].
  rewrite demo_arena_eq in E. injection E as <-. exact Hok.
Qed.

(** ** Initialisation *)

Section InitClaim.
Context {cfg : LabH}.

Lemma free_sum_ext (F G : Z -> list Z) :
  (forall i, F i = G i) -> free_sum F = free_sum G.
Proof.
  intros H. unfold free_sum. induction (seqZ 0 MAX_K) as [|i L IH];
    [reflexivity|].
  cbn [foldr]. rewrite IH, H. reflexivity.
Qed.

Lemma free_sum_nil : free_sum (fun _ => []) = 0.
Proof.
  unfold free_sum. induction (seqZ 0 MAX_K) as [|i L IH]; [reflexivity|].
  cbn [foldr]. rewrite IH. simpl. lia.
Qed.

Lemma free_sum_init m b : 0 <= m < MAX_K -> free_sum (init_lists m b) = 2 ^ m.
Proof.
  intros Hm.
  rewrite (free_sum_ext _ (<[m := [b]]> (fun _ => []))).
  - rewrite free_sum_insert by assumption. rewrite free_sum_nil. simpl. lia.
  - intros i. unfold init_lists. destruct (decide (i = m)) as [->|Hne].
    + rewrite fn_lookup_insert. reflexivity.
    + rewrite fn_lookup_insert_ne by congruence. reflexivity.
Qed.

(** C6. A successful [buddy_init] leaves [numbytes = 2^kval_m], every
    sentinel but the one of order [kval_m] pointing to itself (an empty
    list), and on the list of order [kval_m] exactly one block: it starts
    at the base of the mapping, is tagged [BLOCK_AVAIL] with order
    [kval_m], and so covers the arena; all the arena's bytes are free.
    When mmap fails, [base] is set to NULL and neither the sentinels nor
    the arena are touched. *)
Theorem buddy_init_arena (st : state) (size b : Z) :
  lab_h_sane ->
  Z.of_nat (length (avail_ (pool st))) = MAX_K ->
  0 < b -> b + 2 ^ init_kval size <= 2 ^ 64 ->
  (exists st', buddy_init st size (Some b) = Some st' /\
     numbytes (pool st') = 2 ^ kval_m (pool st') /\
     base (pool st') = Mem b /\
     0 <= kval_m (pool st') < MAX_K /\
     (forall i, 0 <= i < MAX_K -> i <> kval_m (pool st') ->
        nextp st' (Sentinel i) = Some (Sentinel i) /\
        prevp st' (Sentinel i) = Some (Sentinel i)) /\
     free_list st' (kval_m (pool st')) [b] /\
     hdr_is st' b BLOCK_AVAIL (kval_m (pool st')) /\
     free_bytes st' = numbytes (pool st')) /\
  (exists st', buddy_init st size None = Some st' /\
     base (pool st') = NULL /\
     avail_ (pool st') = avail_ (pool st) /\
     heap st' = heap st).
Proof.
  intros Hsane Hlen Hb Htop. use_sane Hsane.
  pose proof (init_kval_bounds Hsane size) as Hkv. split.
  - destruct (buddy_init_ok Hsane st size b Hlen Hb Htop)
      as (st' & E & Hk & Hn & Hbase & _ & Hblk & Htopl & Hoth & _ & Hok).
    exists st'. split; [exact E|]. rewrite Hk.
    split; [exact Hn|]. split; [exact Hbase|]. split; [lia|]. split.
    { intros i Hi Hne. unfold nextp, prevp. rewrite (Hoth i Hi Hne).
      split; reflexivity. }
    split.
    { assert (Hr : 0 <= init_kval size < MAX_K) by lia.
      pose proof (inv_lists _ _ _ _ Hok (init_kval size) Hr) as Hl.
      unfold init_lists in Hl. rewrite decide_True in Hl by reflexivity.
      exact Hl. }
    split.
    { unfold hdr_is, meta. rewrite Hblk. reflexivity. }
    rewrite (free_bytes_ok _ _ _ _ Hok), free_sum_init by lia.
    symmetry. exact Hn.
  - unfold buddy_init. rewrite shl1_pow by lia. simpl.
    eexists. split; [reflexivity|]. simpl. auto.
Qed.

End InitClaim.

Lemma buddy_init_arena_witness :
  exists st', @buddy_init lab_h blank_state 1 (Some 4096) = Some st' /\
    numbytes (pool st') = 2 ^ kval_m (pool st') /\
    @free_list lab_h st' (kval_m (pool st')) [4096] /\
    @free_bytes lab_h st' = numbytes (pool st').
Proof.
  destruct (@buddy_init_arena lab_h blank_state 1 4096)
    as [(st' & E & Hn & _ & _ & _ & Hl & _ & Hf) _].
  - constructor; lab_h_consts; lia.
  - reflexivity.
  - lia.
  - vm_compute. discriminate.
  - exists st'. auto.
Defined.

(** ** Allocation *)

Section MallocClaims.
Context {cfg : LabH}.

Lemma order_of_reserved st a k :
  hdr_is st a BLOCK_RESERVED k ->
  order_of st (Mem (a + sizeof_avail)) = Some k.
Proof.
  intros Hh. destruct (meta_load _ _ _ _ Hh) as (h & Hl & _ & Hk).
  unfold order_of. cbn [avail_pred mbind option_bind].
  replace (a + sizeof_avail - sizeof_avail) with a by lia.
  rewrite Hl. simpl. rewrite Hk. reflexivity.
Qed.

(** C1, as the code has it.  On a well-formed arena, for a request of
    [size > 0] bytes that fits the arena together with its header:
    when every free list of an order from [btok size] to [kval_m] is empty,
    [buddy_malloc] returns NULL with [errno = ENOMEM] and changes nothing
    else; otherwise it returns the address just past the header of a block
    of order [k = btok size] that holds at least [size] usable bytes, is
    recorded reserved with order [k], starts at a multiple of [2^k] from
    the base, lies inside the arena and shares no byte with any block
    reserved before; the arena stays well formed with that block added to
    the reserved ones. *)
Theorem buddy_malloc_block (st : state) (F : Z -> list Z) (R : gset (Z * Z))
    (size : Z) :
  lab_h_sane -> arena_ok st F R ->
  0 < size -> size + sizeof_avail <= numbytes (pool st) ->
  ((forall i, btok size <= i <= kval_m (pool st) -> F i = []) /\
   buddy_malloc st ThePool size = Some (NULL, set_errno ENOMEM st)) \/
  ((exists i, btok size <= i <= kval_m (pool st) /\ F i <> []) /\
   exists a st' F',
     buddy_malloc st ThePool size = Some (Mem (a + sizeof_avail), st') /\
     size <= 2 ^ btok size - sizeof_avail /\
     hdr_is st' a BLOCK_RESERVED (btok size) /\
     aligned (arena_base st) a (btok size) /\
     arena_base st <= a /\
     a + 2 ^ btok size <= arena_base st + numbytes (pool st) /\
     (forall a' k', (a', k') ∈ R -> ~ overlap a (btok size) a' k') /\
     arena_ok st' F' ({[(a, btok size)]} ∪ R)).
Proof.
  intros Hsane Hok Hsize Hfit. use_sane Hsane.
  destruct (buddy_malloc_ok Hsane st F R size Hok ltac:(lia))
    as [[Hemp E]|(Hk & Hex & a & st' & F' & E & Hfr & Hnew & Hok' & _)].
  { left. split; assumption. }
  right. split; [exact Hex|]. exists a, st', F'. split; [exact E|].
  pose proof (inv_kval_m _ _ _ _ Hok) as Hm.
  rewrite (inv_numbytes _ _ _ _ Hok) in *.
  assert (Hlive : live F' ({[(a, btok size)]} ∪ R) None a (btok size)).
  { left. apply elem_of_union. left. apply elem_of_singleton. reflexivity. }
  destruct (inv_live_range Hsane _ _ _ _ Hok' a (btok size) Hlive)
    as (_ & Hal & Hlo & Hhi).
  rewrite (arena_base_frame _ _ Hfr) in Hal, Hlo, Hhi.
  destruct Hfr as (Hkm & _). rewrite Hkm in Hhi.
  split.
  { assert (size + sizeof_avail <= 2 ^ btok size); [|lia].
    apply btok_holds; try lia.
    etransitivity; [exact Hfit|]. apply pow2_le_mono. lia. }
  split; [apply (inv_reserved _ _ _ _ Hok'); apply elem_of_union; left;
          apply elem_of_singleton; reflexivity|].
  split; [exact Hal|]. split; [exact Hlo|]. split; [exact Hhi|].
  split; [|exact Hok'].
  intros a' k' Hr Hov.
  destruct (tiles_disj _ _ _ (inv_tiles _ _ _ _ Hok') a (btok size) a' k' Hlive)
    as [-> _]; [left; apply elem_of_union; right; exact Hr|exact Hov|].
  apply (Hnew k' Hr).
Qed.

(** C7. On a well-formed arena, when [buddy_malloc(size)] returns a
    block, freeing it succeeds and brings the free byte count back to what
    it was before the allocation, and allocating [size] bytes again
    succeeds with a block of the same order, [btok size]. *)
Theorem malloc_free_malloc_round_trip (st : state) (F : Z -> list Z)
    (R : gset (Z * Z)) (size : Z) (p : ptr) (st1 : state) :
  lab_h_sane -> arena_ok st F R ->
  buddy_malloc st ThePool size = Some (p, st1) -> p <> NULL ->
  exists st2 p' st3,
    buddy_free st1 ThePool p = Some st2 /\
    free_bytes st2 = free_bytes st /\
    buddy_malloc st2 ThePool size = Some (p', st3) /\
    p' <> NULL /\
    order_of st1 p = Some (btok size) /\
    order_of st3 p' = order_of st1 p.
Proof.
  intros Hsane Hok E Hp. use_sane Hsane.
  assert (Hz : size <> 0).
  { intros ->. unfold buddy_malloc in E. simpl in E. congruence. }
  destruct (buddy_malloc_ok Hsane st F R size Hok Hz)
    as [[_ E']|(Hk & _ & a & st1' & F1 & E' & Hfr1 & _ & Hok1 & Hsum1)];
    rewrite E' in E; injection E as <- <-; [congruence|].
  set (k := btok size) in *.
  assert (Hr : (a, k) ∈ ({[(a, k)]} ∪ R : gset (Z * Z))).
  { apply elem_of_union. left. apply elem_of_singleton. reflexivity. }
  destruct (buddy_free_ok Hsane st1' F1 _ a k Hok1 Hr)
    as (st2 & F2 & E2 & Hfr2 & Hok2 & Hsum2 & a2 & k2 & l2 & HF2 & Hk2 & _).
  exists st2.
  destruct (buddy_malloc_ok Hsane st2 F2 _ size Hok2 Hz)
    as [[Hemp E3]|(_ & _ & a3 & st3 & F3 & E3 & _ & _ & Hok3 & _)].
  { exfalso. destruct Hfr2 as (Hkm2 & _).
    rewrite (Hemp k2) in HF2; [discriminate|]. fold k. lia. }
  exists (Mem (a3 + sizeof_avail)), st3.
  split; [exact E2|]. split.
  { rewrite (free_bytes_ok _ _ _ _ Hok2), (free_bytes_ok _ _ _ _ Hok). lia. }
  split; [exact E3|]. split; [discriminate|].
  assert (Ho1 : order_of st1' (Mem (a + sizeof_avail)) = Some k).
  { apply order_of_reserved, (inv_reserved _ _ _ _ Hok1), Hr. }
  split; [exact Ho1|]. rewrite Ho1.
  apply order_of_reserved, (inv_reserved _ _ _ _ Hok3).
  apply elem_of_union. left. apply elem_of_singleton. reflexivity.
Qed.

End MallocClaims.

Lemma buddy_malloc_block_witness :
  ((forall i, @btok lab_h 100 <= i <= kval_m (pool demo_arena) ->
      init_lists 20 4096 i = []) /\
   @buddy_malloc lab_h demo_arena ThePool 100 =
     Some (NULL, set_errno ENOMEM demo_arena)) \/
  ((exists i, @btok lab_h 100 <= i <= kval_m (pool demo_arena) /\
      init_lists 20 4096 i <> []) /\
   exists a st' F',
     @buddy_malloc lab_h demo_arena ThePool 100 = Some (Mem (a + 24), st') /\
     100 <= 2 ^ @btok lab_h 100 - 24 /\
     @hdr_is lab_h st' a 0 (@btok lab_h 100) /\
     aligned (@arena_base demo_arena) a (@btok lab_h 100) /\
     @arena_base demo_arena <= a /\
     a + 2 ^ @btok lab_h 100 <= @arena_base demo_arena + numbytes (pool demo_arena) /\
     (forall a' k', (a', k') ∈ (∅ : gset (Z * Z)) ->
        ~ overlap a (@btok lab_h 100) a' k') /\
     @arena_ok lab_h st' F' ({[(a, @btok lab_h 100)]} ∪ ∅)).
Proof.
  apply (@buddy_malloc_block lab_h demo_arena (init_lists 20 4096) ∅ 100).
  - constructor; lab_h_consts; lia.
  - exact demo_arena_ok.
  - lia.
  - vm_compute. discriminate.
Defined.

Lemma malloc_free_malloc_round_trip_witness :
  exists st2 p' st3,
    @buddy_free lab_h (snd demo_alloc) ThePool (fst demo_alloc) = Some st2 /\
    @free_bytes lab_h st2 = @free_bytes lab_h demo_arena /\
    @buddy_malloc lab_h st2 ThePool 100 = Some (p', st3) /\
    p' <> NULL /\
    @order_of lab_h (snd demo_alloc) (fst demo_alloc) = Some (@btok lab_h 100) /\
    @order_of lab_h st3 p' = @order_of lab_h (snd demo_alloc) (fst demo_alloc).
Proof.
  apply (@malloc_free_malloc_round_trip lab_h demo_arena (init_lists 20 4096)
           ∅ 100 (fst demo_alloc) (snd demo_alloc)).
  - constructor; lab_h_consts; lia.
  - exact demo_arena_ok.
  - vm_compute. reflexivity.
  - vm_compute. discriminate.
Defined.

(** On the fresh small arena, whose capacity is [2^20] bytes, a request for
    exactly [2^20] bytes is refused: with its header it needs a block of
    order 21. *)
Lemma buddy_malloc_capacity_refused :
  0 < 2 ^ 20 <= numbytes (pool demo_arena) /\
  @buddy_malloc lab_h demo_arena ThePool (2 ^ 20) =
    Some (NULL, set_errno ENOMEM demo_arena).
Proof. split; [vm_compute; split; congruence|]. vm_compute. reflexivity. Qed.

(** C4, at the input where the code departs from it.  On the fresh small
    arena of [2^20] bytes a request for [SIZE_MAX] bytes is not refused:
    [btok] adds the header size on 64 bits, the sum wraps around to 23 and
    the computed order is 6, so [buddy_malloc] hands out a 64-byte block
    and takes 64 bytes off the free lists. *)
Theorem buddy_malloc_size_max_not_refused :
  numbytes (pool demo_arena) < SIZE_MAX /\
  @btok lab_h SIZE_MAX = 6 /\
  @buddy_malloc lab_h demo_arena ThePool SIZE_MAX = Some demo_huge /\
  fst demo_huge = Mem 4120 /\
  @order_of lab_h (snd demo_huge) (fst demo_huge) = Some 6 /\
  @free_bytes lab_h (snd demo_huge) = @free_bytes lab_h demo_arena - 2 ^ 6.
Proof. repeat split; vm_compute; reflexivity. Qed.

(** ** Resizing *)

Section ReallocFacts.
Context {cfg : LabH}.

(** A request that does not fit a block of order [m] gets at least order
    [m], also when the clamp at [MAX_K - 1] cuts in. *)
Lemma btok_at_least bytes m :
  0 <= m <= MAX_K - 1 -> 0 < sizeof_avail ->
  2 ^ m < bytes + sizeof_avail -> bytes + sizeof_avail <= 2 ^ 64 ->
  0 < bytes ->
  m <= btok bytes.
Proof.
  intros Hm Hh Hbig Hno Hb.
  rewrite btok_nonzero by lia. cbv zeta.
  assert (Hlog : m <= Z.log2 (wrap (wrap (bytes + sizeof_avail) - 1))).
  { destruct (Z.eq_dec (bytes + sizeof_avail) (2 ^ 64)) as [E|E].
    - rewrite E. change (wrap (wrap (2 ^ 64) - 1)) with (2 ^ 64 - 1).
      change (Z.log2 (2 ^ 64 - 1)) with 63.
      destruct (Z_lt_le_dec 63 m); [|lia].
      assert (2 ^ 64 <= 2 ^ m) by (apply pow2_le_mono; lia). lia.
    - pose proof (pow2_pos m ltac:(lia)).
      rewrite (wrap_small (bytes + sizeof_avail)) by lia.
      rewrite wrap_small by lia.
      apply Z.log2_le_pow2; lia. }
  destruct (Z.ltb_spec (Z.log2 (wrap (wrap (bytes + sizeof_avail) - 1)) + 1)
              SMALLEST_K);
    destruct (Z.leb_spec MAX_K SMALLEST_K);
    try destruct (Z.leb_spec MAX_K
                    (Z.log2 (wrap (wrap (bytes + sizeof_avail) - 1)) + 1));
    lia.
Qed.

(** The invariant does not look at the payload bytes. *)
Lemma arena_inv_payload st f F R held :
  arena_inv st F R held -> arena_inv (set_payload f st) F R held.
Proof.
  intros [H1 H2 H3 H4 H5 H6 H7 H8 H9 H10].
  constructor; try assumption.
  intros i Hi. eapply chain_frame; [| | | |apply (H5 i Hi)]; reflexivity.
Qed.

(** Two live blocks that start at different addresses lie apart. *)
Lemma live_apart st F R a k a' k' :
  lab_h_sane -> arena_ok st F R ->
  live F R None a k -> live F R None a' k' -> a <> a' ->
  a + 2 ^ k <= a' \/ a' + 2 ^ k' <= a.
Proof.
  intros Hsane Hok Hl Hl' Hne.
  destruct (inv_live_range Hsane _ _ _ _ Hok a k Hl) as (Hk & _).
  destruct (inv_live_range Hsane _ _ _ _ Hok a' k' Hl') as (Hk' & _).
  pose proof (pow2_pos k ltac:(lia)). pose proof (pow2_pos k' ltac:(lia)).
  destruct (Z_le_gt_dec (a + 2 ^ k) a') as [|Hx]; [left; assumption|].
  destruct (Z_le_gt_dec (a' + 2 ^ k') a) as [|Hy]; [right; assumption|].
  exfalso. apply Hne.
  apply (tiles_disj _ _ _ (inv_tiles _ _ _ _ Hok) a k a' k' Hl Hl').
  unfold overlap. lia.
Qed.

(** A copy between two ranges of the mapping that lie apart. *)
Lemma memcpy_ok st b d s n :
  base (pool st) = Mem b ->
  b <= d -> d + n <= b + numbytes (pool st) ->
  b <= s -> s + n <= b + numbytes (pool st) ->
  d + n <= s \/ s + n <= d ->
  memcpy st (Mem d) (Mem s) n =
    Some (set_payload
            (fun x => if (d <=? x) && (x <? d + n)
                      then payload st (x - d + s) else payload st x) st).
Proof.
  intros Hb Hd1 Hd2 Hs1 Hs2 Hapart. unfold memcpy. rewrite Hb.
  destruct (Z.leb_spec b d); [|lia].
  destruct (Z.leb_spec (d + n) (b + numbytes (pool st))); [|lia].
  destruct (Z.leb_spec b s); [|lia].
  destruct (Z.leb_spec (s + n) (b + numbytes (pool st))); [|lia].
  destruct (Z.leb_spec (d + n) s); [reflexivity|].
  destruct (Z.leb_spec (s + n) d); [reflexivity|lia].
Qed.

End ReallocFacts.

(** C5, at the input where the code departs from it.  On the small arena
    of [2^20] bytes mapped at 4096, [buddy_malloc(&pool, 2^19 - 24)] hands
    out the lower half, the block of order 19 at 4096, and
    [buddy_malloc(&pool, 1)] a block of order 6.  Resizing the first
    block to [SIZE_MAX] bytes does not fit it, and the allocation of the
    new block is not refused: the size plus the header wraps around on 64
    bits, so that [buddy_malloc] returns a block of order 6, with 40 bytes
    behind its header.  [buddy_realloc] then copies the old block's
    [2^19 - 24] bytes to it: the copy is far longer than the new block and
    ends 64 bytes after the end of the mapping, and the call has no defined
    result. *)
Theorem buddy_realloc_size_max_overruns_new_block :
  @buddy_init lab_h blank_state 1 (Some 4096) = Some demo_arena /\
  @buddy_malloc lab_h demo_arena ThePool (2 ^ 19 - 24) = Some demo_half /\
  fst demo_half = Mem 4120 /\
  @buddy_malloc lab_h (snd demo_half) ThePool 1 = Some demo_half2 /\
  @order_of lab_h (snd demo_half2) (Mem 4120) = Some 19 /\
  2 ^ 19 - @sizeof_avail lab_h < SIZE_MAX /\
  @buddy_malloc lab_h (snd demo_half2) ThePool SIZE_MAX = Some demo_half3 /\
  fst demo_half3 = Mem 528472 /\
  @order_of lab_h (snd demo_half3) (Mem 528472) = Some 6 /\
  2 ^ 6 - @sizeof_avail lab_h < 2 ^ 19 - @sizeof_avail lab_h /\
  base (pool (snd demo_half3)) = Mem 4096 /\
  4096 + numbytes (pool (snd demo_half3)) + 64 =
    528472 + (2 ^ 19 - @sizeof_avail lab_h) /\
  memcpy (snd demo_half3) (Mem 528472) (Mem 4120)
    (2 ^ 19 - @sizeof_avail lab_h) = None /\
  @buddy_realloc lab_h (snd demo_half2) ThePool (Mem 4120) SIZE_MAX = None.
Proof. repeat split; vm_compute; reflexivity. Qed.

(** ** Freeing *)

Section FreeClaim.
Context {cfg : LabH}.

Lemma unlink_frame st x st' : unlink st x = Some st' -> same_frame st st'.
Proof.
  unfold unlink. destruct (load st x) as [h|]; [|discriminate].
  cbn [mbind option_bind].
  destruct (set_next st (prev h) (next h)) as [st1|] eqn:E1; [|discriminate].
  cbn [mbind option_bind].
  destruct (load st1 x) as [h1|]; [|discriminate].
  cbn [mbind option_bind]. intros E2.
  apply set_next_spec in E1. apply set_prev_spec in E2.
  eapply same_frame_trans; eapply updates_frame; eassumption.
Qed.

(** Flipping bit [k] of an offset below [2^m] stays below [2^m]. *)
Lemma buddy_of_range b a k m :
  0 <= k < m -> 0 <= a - b < 2 ^ m ->
  b <= buddy_of b a k < b + 2 ^ m.
Proof.
  intros Hk Ha. unfold buddy_of.
  pose proof (pow2_pos k ltac:(lia)) as Hpk.
  assert (Hnn : 0 <= Z.lxor (a - b) (2 ^ k)) by (apply Z.lxor_nonneg; lia).
  assert (Hlt : Z.lxor (a - b) (2 ^ k) < 2 ^ m).
  { destruct (Z.eq_dec (Z.lxor (a - b) (2 ^ k)) 0) as [->|Hne].
    - apply pow2_pos. lia.
    - apply Z.log2_lt_pow2; [lia|].
      eapply Z.le_lt_trans; [apply Z.log2_lxor; lia|].
      rewrite Z.log2_pow2 by lia.
      apply Z.max_lub_lt; [|lia].
      destruct (Z.eq_dec (a - b) 0) as [->|]; [simpl; lia|].
      apply Z.log2_lt_pow2; lia. }
  lia.
Qed.

Section Loop.
Variables (b km : Z).
Hypothesis Hb : 0 <= b.
Hypothesis Htop : b + 2 ^ km <= 2 ^ 64.
Hypothesis Hkm : km <= 64.

Lemma coalesce_inv_buddy st a k :
  coalesce_inv b km st a k -> k < km ->
  buddy_calc st (Mem a) = Some (Mem (buddy_of b a k)) /\
  b <= buddy_of b a k < b + 2 ^ km.
Proof.
  intros (Hbase & Hm & Ha & Hk & h & Hh & Hhk) Hlt. split.
  - apply (buddy_calc_ok st a b k h Hbase Hh Hhk); lia.
  - apply buddy_of_range; lia.
Qed.

(** One round of the loop of the source is one round of the loop of the
    specification. *)
Lemma coalesce_body_in_words st a k :
  coalesce_inv b km st a k -> k < km ->
  coalesce_body st (Mem a) k =
    (hb ← load st (Mem (buddy_of b a k));
     if decide (tag hb = BLOCK_AVAIL /\ kval hb = k) then
       st1 ← unlink st (Mem (buddy_of b a k));
       st2 ← set_kval st1 (Mem (Z.min a (buddy_of b a k))) (k + 1);
       Some (Some (st2, Mem (Z.min a (buddy_of b a k)), k + 1))
     else Some None).
Proof.
  intros Hinv Hlt. destruct (coalesce_inv_buddy st a k Hinv Hlt) as [Hbc _].
  unfold coalesce_body. rewrite Hbc. cbn [mbind option_bind].
  destruct (load st (Mem (buddy_of b a k))) as [hb|]; [|reflexivity].
  cbn [mbind option_bind].
  assert (Hmin : (if ptr_gt (Mem a) (Mem (buddy_of b a k))
                  then Mem (buddy_of b a k) else Mem a) =
                 Mem (Z.min a (buddy_of b a k))).
  { cbn [ptr_gt]. destruct (Z.ltb_spec (buddy_of b a k) a); f_equal; lia. }
  destruct (decide (tag hb <> BLOCK_AVAIL \/ kval hb <> k)) as [Hbrk|Hgo];
    destruct (decide (tag hb = BLOCK_AVAIL /\ kval hb = k)) as [Hyes|Hno].
  - exfalso. destruct Hyes. destruct Hbrk; contradiction.
  - reflexivity.
  - rewrite Hmin. reflexivity.
  - exfalso. apply Hno. split.
    + destruct (decide (tag hb = BLOCK_AVAIL)); [assumption|]. exfalso. auto.
    + destruct (decide (kval hb = k)); [assumption|]. exfalso. auto.
Qed.

(** A round that goes on leaves the loop as the next round expects it. *)
Lemma coalesce_inv_round st a k st' a' k' :
  coalesce_inv b km st a k -> k < km ->
  coalesce_body st (Mem a) k = Some (Some (st', Mem a', k')) ->
  coalesce_inv b km st' a' k'.
Proof.
  intros Hinv Hlt. rewrite (coalesce_body_in_words st a k Hinv Hlt).
  destruct (coalesce_inv_buddy st a k Hinv Hlt) as [_ Hy].
  destruct Hinv as (Hbase & Hm & Ha & Hk & _).
  destruct (load st (Mem (buddy_of b a k))) as [hb|]; [|discriminate].
  cbn [mbind option_bind].
  destruct (decide (tag hb = BLOCK_AVAIL /\ kval hb = k)); [|discriminate].
  destruct (unlink st (Mem (buddy_of b a k))) as [st1|] eqn:E1; [|discriminate].
  cbn [mbind option_bind].
  destruct (set_kval st1 (Mem (Z.min a (buddy_of b a k))) (k + 1))
    as [st2|] eqn:E2; [|discriminate].
  cbn [mbind option_bind]. intros [= <- <- <-].
  apply unlink_frame in E1. apply set_kval_spec in E2.
  pose proof (same_frame_trans _ _ _ E1 (updates_frame _ _ _ _ E2))
    as (Fk & _ & Fb & _).
  split; [congruence|]. split; [congruence|]. split; [lia|]. split; [lia|].
  destruct E2 as ([h1 Hh1] & Hl & _).
  exists (with_kval (k + 1) h1). rewrite Hl, decide_True by reflexivity.
  rewrite Hh1. split; reflexivity.
Qed.

Lemma coalesce_in_words_ok n :
  forall st a k, coalesce_inv b km st a k ->
  Z.of_nat n <= Z.max 0 (km - k) ->
  coalesce n st (Mem a) k =
    (fun r => (r.1.1, Mem r.1.2, r.2)) <$> coalesce_in_words n st a k.
Proof.
  induction n as [|n IH]; intros st a k Hinv Hn; [reflexivity|].
  cbn [coalesce coalesce_in_words].
  rewrite (coalesce_body_in_words st a k Hinv ltac:(lia)).
  assert (Hbase : arena_base st = b).
  { destruct Hinv as (Hbase & _). unfold arena_base. rewrite Hbase.
    reflexivity. }
  rewrite Hbase.
  destruct (load st (Mem (buddy_of b a k))) as [hb|] eqn:Hl; [|reflexivity].
  cbn [mbind option_bind].
  destruct (decide (tag hb = BLOCK_AVAIL /\ kval hb = k)) as [Hyes|];
    [|reflexivity].
  destruct (unlink st (Mem (buddy_of b a k))) as [st1|] eqn:E1; [|reflexivity].
  cbn [mbind option_bind].
  destruct (set_kval st1 (Mem (Z.min a (buddy_of b a k))) (k + 1))
    as [st2|] eqn:E2; [|reflexivity].
  cbn [mbind option_bind].
  apply IH; [|lia].
  apply (coalesce_inv_round st a k); [exact Hinv|lia|].
  rewrite (coalesce_body_in_words st a k Hinv ltac:(lia)), Hl.
  cbn [mbind option_bind]. rewrite decide_True by exact Hyes.
  rewrite E1. cbn [mbind option_bind]. rewrite E2. reflexivity.
Qed.

(** Every round the loop reaches finds what [coalesce_inv] says. *)
Lemma coalesce_reaches_inv st0 a0 k0 st a k :
  coalesce_inv b km st0 a0 k0 ->
  coalesce_reaches st0 a0 k0 st a k ->
  coalesce_inv b km st a k.
Proof.
  intros H0 Hr. induction Hr as [|st a k st' a' k' _ IH Hlt E]; [exact H0|].
  apply (coalesce_inv_round st a k st' a' k' IH); [|exact E].
  destruct IH as (_ & Hm & _). lia.
Qed.

End Loop.

(** C2. Freeing the block whose header, at [a] inside the arena, records
    the order [kval h].  (1) [buddy_free] is the algorithm of the
    specification: mark the block free; while [k < kval_m], take the buddy
    at the base plus the block's offset XOR [2^k]; stop when the buddy is
    not free or its order is not [k]; otherwise unlink it, go on with the
    lower-addressed of the two and [k + 1] recorded in its header; at the
    end push the block on the front of the list of order [k].  (2) In
    every round the loop reaches, the buddy address lies in
    [base, base + numbytes).  (3) On a well-formed arena and for a
    reserved block the call succeeds, and the final block is the first of
    the free list of its final order and contains the block freed. *)
Theorem buddy_free_coalesces (st : state) (b a : Z) (h : avail) :
  base (pool st) = Mem b -> 0 <= b ->
  numbytes (pool st) = 2 ^ kval_m (pool st) ->
  kval_m (pool st) <= 64 ->
  b + numbytes (pool st) <= 2 ^ 64 ->
  load st (Mem a) = Some h -> 0 <= kval h ->
  b <= a < b + numbytes (pool st) ->
  buddy_free st ThePool (Mem (a + sizeof_avail)) = free_in_words st a /\
  (forall st1 st' a' k',
     set_tag st (Mem a) BLOCK_AVAIL = Some st1 ->
     coalesce_reaches st1 a (kval h) st' a' k' ->
     k' < kval_m (pool st') ->
     buddy_calc st' (Mem a') = Some (Mem (buddy_of b a' k')) /\
     b <= buddy_of b a' k' < b + numbytes (pool st)) /\
  (forall F R, lab_h_sane -> arena_ok st F R -> (a, kval h) ∈ R ->
     exists st' F' a' k' l,
       buddy_free st ThePool (Mem (a + sizeof_avail)) = Some st' /\
       arena_ok st' F' (R ∖ {[(a, kval h)]}) /\
       F' k' = a' :: l /\
       kval h <= k' <= kval_m (pool st) /\
       a' <= a /\ a + 2 ^ kval h <= a' + 2 ^ k').
Proof.
  intros Hbase Hb Hnb Hkm Htop Hh Hk Ha. rewrite Hnb in *.
  assert (Hentry : forall st1, set_tag st (Mem a) BLOCK_AVAIL = Some st1 ->
            coalesce_inv b (kval_m (pool st)) st1 a (kval h)).
  { intros st1 E1. apply set_tag_spec in E1.
    pose proof (updates_frame _ _ _ _ E1) as (Fk & _ & Fb & _).
    split; [congruence|]. split; [exact Fk|]. split; [exact Ha|].
    split; [exact Hk|].
    exists (with_tag BLOCK_AVAIL h). split; [|reflexivity].
    apply (updates_same _ _ _ _ _ E1 Hh). }
  split; [|split].
  - unfold buddy_free, free_in_words. cbn [avail_pred mbind option_bind].
    replace (a + sizeof_avail - sizeof_avail) with a by lia.
    rewrite Hh. cbn [mbind option_bind].
    destruct (set_tag st (Mem a) BLOCK_AVAIL) as [st1|] eqn:E1; [|reflexivity].
    cbn [mbind option_bind].
    pose proof (Hentry st1 eq_refl) as Hinv.
    pose proof Hinv as (_ & Hm1 & _).
    rewrite (coalesce_in_words_ok b (kval_m (pool st)) Hb Htop Hkm _ st1 a
               (kval h) Hinv) by lia.
    destruct (coalesce_in_words _ st1 a (kval h)) as [[[s x] j]|]; reflexivity.
  - intros st1 st' a' k' E1 Hr Hlt.
    pose proof (coalesce_reaches_inv b _ Hb Htop Hkm _ _ _ _ _ _
                  (Hentry st1 E1) Hr) as Hinv.
    pose proof Hinv as (_ & Hm' & _).
    apply (coalesce_inv_buddy b _ Hb Htop Hkm st' a' k' Hinv). lia.
  - intros F R Hsane Hok Hr.
    destruct (buddy_free_ok Hsane st F R a (kval h) Hok Hr)
      as (st' & F' & E & _ & Hok' & _ & a' & k' & l & HF & Hk' & Hc).
    exists st', F', a', k', l. auto.
Qed.

End FreeClaim.

Lemma buddy_free_coalesces_witness :
  @buddy_free lab_h (snd demo_alloc) ThePool (Mem (4096 + 24)) =
    @free_in_words lab_h (snd demo_alloc) 4096.
Proof.
  apply (@buddy_free_coalesces lab_h (snd demo_alloc) 4096 4096
           (mkAvail 0 7 (Sentinel 20) (Sentinel 20))).
  - reflexivity.
  - lia.
  - reflexivity.
  - vm_compute. discriminate.
  - vm_compute. discriminate.
  - vm_compute. reflexivity.
  - simpl. lia.
  - vm_compute. split; [discriminate|reflexivity].
Defined.

Lemma buddy_destroy_once_is_enough_witness :
  base (pool (buddy_destroy demo_arena ThePool)) = NULL /\
  os_trace (buddy_destroy demo_arena ThePool) =
    os_trace demo_arena ++ [Munmap (Mem 4096) (2 ^ 20)] /\
  buddy_destroy (buddy_destroy demo_arena ThePool) ThePool =
    buddy_destroy demo_arena ThePool.
Proof.
  destruct (@buddy_destroy_once_is_enough lab_h demo_arena ThePool ThePool)
    as (H1 & _ & _ & H4 & _).
  destruct H1 as (Hb & Ht & _); [discriminate|].
  split; [exact Hb|]. split; [exact Ht|exact H4].
Defined.
(** ** More on the order calculator *)

Section BtokMore.
Context {cfg : LabH}.
Hypothesis Hsane : lab_h_sane.

(** The order before clamping grows with the request. *)
Lemma btok_raw_mono s t :
  0 < s <= t -> t + sizeof_avail <= 2 ^ 64 ->
  Z.log2 (wrap (wrap (s + sizeof_avail) - 1)) <=
  Z.log2 (wrap (wrap (t + sizeof_avail) - 1)).
Proof.
  intros Hst Ht. use_sane Hsane.
  assert (Hs : wrap (wrap (s + sizeof_avail) - 1) <= 2 ^ 64 - 1).
  { pose proof (wrap_range (wrap (s + sizeof_avail) - 1)). lia. }
  destruct (Z.eq_dec (t + sizeof_avail) (2 ^ 64)) as [E|E].
  - rewrite E. change (wrap (wrap (2 ^ 64) - 1)) with (2 ^ 64 - 1).
    apply Z.log2_le_mono. exact Hs.
  - rewrite (wrap_small (s + sizeof_avail)), (wrap_small (t + sizeof_avail))
      by lia.
    rewrite !wrap_small by lia. apply Z.log2_le_mono. lia.
Qed.

(** The block of the computed order holds a request that fits the largest
    order, and above the minimum order the block below does not. *)
Lemma btok_least_order_aux (bytes : Z) :
  0 < bytes -> bytes + sizeof_avail <= 2 ^ (MAX_K - 1) ->
  bytes + sizeof_avail <= 2 ^ btok bytes /\
  (SMALLEST_K < btok bytes -> 2 ^ (btok bytes - 1) < bytes + sizeof_avail).
Proof.
  intros Hb Hfit. use_sane Hsane. split.
  { apply btok_holds; lia. }
  assert (Hlt : 2 ^ (MAX_K - 1) < 2 ^ 64) by (apply pow2_lt_mono; lia).
  rewrite btok_nonzero by lia. cbv zeta.
  rewrite (wrap_small (bytes + sizeof_avail)) by lia.
  rewrite wrap_small by lia.
  set (n := bytes + sizeof_avail) in *.
  pose proof (log2_pred_bound n ltac:(lia)) as [Hlo Hhi].
  destruct (Z.ltb_spec (Z.log2 (n - 1) + 1) SMALLEST_K) as [Hs|Hs].
  - destruct (Z.leb_spec MAX_K SMALLEST_K); lia.
  - destruct (Z.leb_spec MAX_K (Z.log2 (n - 1) + 1)) as [Hc|Hc].
    + exfalso.
      assert (2 ^ (MAX_K - 1) <= 2 ^ Z.log2 (n - 1))
        by (apply pow2_le_mono; lia).
      lia.
    + intros _. replace (Z.log2 (n - 1) + 1 - 1) with (Z.log2 (n - 1)) by lia.
      exact Hlo.
Qed.

(** X1. The order is the least one that serves: for a request of
    [bytes > 0] that fits the largest order together with its header, the
    block of order [btok bytes] holds them, and unless the order is the
    minimum [SMALLEST_K], the block of the order below does not. *)
Theorem btok_least_sufficient_order (bytes : Z) :
  0 < bytes -> bytes + sizeof_avail <= 2 ^ (MAX_K - 1) ->
  bytes + sizeof_avail <= 2 ^ btok bytes /\
  (SMALLEST_K < btok bytes -> 2 ^ (btok bytes - 1) < bytes + sizeof_avail).
Proof. apply btok_least_order_aux. Qed.

(** X2. A larger request never gets a smaller order, as long as the larger
    one plus the header does not pass [2^64]. *)
Theorem btok_monotone (s t : Z) :
  0 < s <= t -> t + sizeof_avail <= 2 ^ 64 -> btok s <= btok t.
Proof.
  intros Hst Ht. use_sane Hsane.
  pose proof (btok_raw_mono s t Hst Ht) as Hraw.
  rewrite !btok_nonzero by lia. cbv zeta.
  set (u := Z.log2 (wrap (wrap (s + sizeof_avail) - 1))) in *.
  set (v := Z.log2 (wrap (wrap (t + sizeof_avail) - 1))) in *.
  destruct (Z.ltb_spec (u + 1) SMALLEST_K);
    destruct (Z.ltb_spec (v + 1) SMALLEST_K);
    destruct (Z.leb_spec MAX_K SMALLEST_K);
    try destruct (Z.leb_spec MAX_K (u + 1));
    try destruct (Z.leb_spec MAX_K (v + 1));
    lia.
Qed.

(** X3. A request that, with its header, is larger than the largest block
    (and below [2^64]) is not given an order of its own: [btok] answers
    [MAX_K - 1], the order of a block that cannot hold it. *)
Theorem btok_saturates (bytes : Z) :
  0 < bytes -> 2 ^ (MAX_K - 1) < bytes + sizeof_avail ->
  bytes + sizeof_avail <= 2 ^ 64 ->
  btok bytes = MAX_K - 1 /\ 2 ^ btok bytes < bytes + sizeof_avail.
Proof.
  intros Hb Hbig Hno. use_sane Hsane.
  assert (E : btok bytes = MAX_K - 1).
  { assert (SMALLEST_K <= btok bytes <= MAX_K - 1)
      by (apply btok_bounds; lia).
    assert (MAX_K - 1 <= btok bytes) by (apply btok_at_least; lia).
    lia. }
  rewrite E. split; [reflexivity|exact Hbig].
Qed.

(** X4. Where the 64-bit sum wraps around.  For a request within less
    than a header of [2^64], the size plus the header wraps around to less
    than a header, and [btok] answers the smallest order, [SMALLEST_K]. *)
Theorem btok_wraps_to_smallest (bytes : Z) :
  2 ^ 64 - sizeof_avail < bytes < 2 ^ 64 -> btok bytes = SMALLEST_K.
Proof.
  intros Hb. use_sane Hsane.
  assert (Hs63 : 2 ^ SMALLEST_K <= 2 ^ 63) by (apply pow2_le_mono; lia).
  rewrite btok_nonzero by lia. cbv zeta.
  assert (Hw : wrap (bytes + sizeof_avail) = bytes + sizeof_avail - 2 ^ 64).
  { unfold wrap. symmetry. apply (Z.mod_unique _ _ 1); lia. }
  rewrite Hw. rewrite wrap_small by lia.
  set (t := bytes + sizeof_avail - 2 ^ 64 - 1).
  assert (Ht : 0 <= t < 2 ^ SMALLEST_K) by (subst t; lia).
  assert (Hlog : Z.log2 t + 1 <= SMALLEST_K).
  { destruct (Z.eq_dec t 0) as [->|Hne].
    - simpl. destruct (Z.eq_dec SMALLEST_K 0) as [E|]; [|lia].
      rewrite E in *. simpl in *. lia.
    - assert (Z.log2 t < SMALLEST_K); [|lia].
      apply Z.log2_lt_pow2; lia. }
  destruct (Z.ltb_spec (Z.log2 t + 1) SMALLEST_K);
    [destruct (Z.leb_spec MAX_K SMALLEST_K)
    |destruct (Z.leb_spec MAX_K (Z.log2 t + 1))]; lia.
Qed.

End BtokMore.

Lemma btok_least_sufficient_order_witness :
  100 + @sizeof_avail lab_h <= 2 ^ @btok lab_h 100 /\
  (@SMALLEST_K lab_h < @btok lab_h 100 ->
   2 ^ (@btok lab_h 100 - 1) < 100 + @sizeof_avail lab_h).
Proof.
  apply (@btok_least_sufficient_order lab_h lab_h_is_sane 100);
    lab_h_consts; lia.
Defined.

Lemma btok_monotone_witness : @btok lab_h 40 <= @btok lab_h 41.
Proof.
  apply (@btok_monotone lab_h lab_h_is_sane 40 41); lab_h_consts; lia.
Defined.

Lemma btok_saturates_witness :
  @btok lab_h (2 ^ 47) = @MAX_K lab_h - 1 /\
  2 ^ @btok lab_h (2 ^ 47) < 2 ^ 47 + @sizeof_avail lab_h.
Proof.
  apply (@btok_saturates lab_h lab_h_is_sane (2 ^ 47)); lab_h_consts; lia.
Defined.

Lemma btok_wraps_to_smallest_witness :
  @btok lab_h (2 ^ 64 - 10) = @SMALLEST_K lab_h.
Proof.
  apply (@btok_wraps_to_smallest lab_h lab_h_is_sane (2 ^ 64 - 10)).
  lab_h_consts. lia.
Defined.
(** ** More on [buddy_calc] *)

Lemma buddy_of_involutive b a k :
  buddy_of b (buddy_of b a k) k = a.
Proof.
  unfold buddy_of.
  replace (b + Z.lxor (a - b) (2 ^ k) - b) with (Z.lxor (a - b) (2 ^ k)) by lia.
  rewrite Z.lxor_assoc, Z.lxor_nilpotent, Z.lxor_0_r. lia.
Qed.

Section BuddyMore.
Context {cfg : LabH}.

(** X5. Buddies come in pairs.  For a block at [a] whose header records
    the order [k], that starts at a multiple of [2^k] from the base and
    lies in an arena of [2^m] bytes with [k < m]: [buddy_calc] answers the
    block [2^k] bytes above or below, which is aligned for order [k] and
    lies in the arena as well; the lower of the two is aligned for order
    [k + 1]; and when the buddy's header records [k] too, [buddy_calc] on
    the buddy answers the block again. *)
Theorem buddy_calc_pairs (st : state) (b m a k : Z) (h : avail) :
  base (pool st) = Mem b -> load st (Mem a) = Some h -> kval h = k ->
  0 <= k < m -> m <= 64 ->
  aligned b a k -> b <= a < b + 2 ^ m ->
  exists a',
    buddy_calc st (Mem a) = Some (Mem a') /\
    (a' = a + 2 ^ k \/ a' = a - 2 ^ k) /\
    aligned b a' k /\
    b <= a' /\ a' + 2 ^ k <= b + 2 ^ m /\
    aligned b (Z.min a a') (k + 1) /\
    (forall h', load st (Mem a') = Some h' -> kval h' = k ->
       buddy_calc st (Mem a') = Some (Mem a)).
Proof.
  intros Hb Hh Hk Hkm Hm Hal Ha.
  assert (H64 : 2 ^ m <= 2 ^ 64) by (apply pow2_le_mono; lia).
  pose proof (pow2_pos k ltac:(lia)) as Hpk.
  exists (buddy_of b a k).
  pose proof (buddy_of_range b a k m ltac:(lia) ltac:(lia)) as Hr.
  pose proof (buddy_of_aligned b a k ltac:(lia) ltac:(lia) Hal) as Hal'.
  destruct (buddy_parent b a k ltac:(lia) ltac:(lia) Hal)
    as (par & Hpar & Hbp & Hcase).
  split; [apply (buddy_calc_ok st a b k h); auto; lia|].
  split; [destruct Hcase as [[_ E]|[E1 E2]]; lia|].
  split; [exact Hal'|].
  split; [lia|].
  split; [apply aligned_in_arena; [lia|exact Hal'|exact Hr]|].
  split.
  { replace (Z.min a (buddy_of b a k)) with par; [exact Hpar|].
    destruct Hcase as [[E1 E2]|[E1 E2]]; lia. }
  intros h' Hh' Hk'.
  rewrite (buddy_calc_ok st (buddy_of b a k) b k h') by (auto; lia).
  rewrite buddy_of_involutive. reflexivity.
Qed.

End BuddyMore.
Lemma buddy_calc_pairs_witness :
  exists a',
    @buddy_calc lab_h (snd demo_alloc) (Mem 4096) = Some (Mem a') /\
    (a' = 4096 + 2 ^ 7 \/ a' = 4096 - 2 ^ 7) /\
    aligned 4096 a' 7 /\
    4096 <= a' /\ a' + 2 ^ 7 <= 4096 + 2 ^ 20 /\
    aligned 4096 (Z.min 4096 a') (7 + 1) /\
    (forall h', @load lab_h (snd demo_alloc) (Mem a') = Some h' ->
       kval h' = 7 ->
       @buddy_calc lab_h (snd demo_alloc) (Mem a') = Some (Mem 4096)).
Proof.
  apply (@buddy_calc_pairs lab_h (snd demo_alloc) 4096 20 4096 7
           (mkAvail 0 7 (Sentinel 20) (Sentinel 20)));
    try reflexivity; try lia.
Defined.
(** ** Which headers the list operations write *)

Section Writes.
Context {cfg : LabH}.

(** [unlink] writes the two neighbours of the node and nothing else. *)
Lemma unlink_loads st x h st' :
  load st x = Some h -> unlink st x = Some st' ->
  forall q, q <> prev h -> q <> next h -> load st' q = load st q.
Proof.
  intros Hh E q Hq1 Hq2. unfold unlink in E. rewrite Hh in E.
  cbn [mbind option_bind] in E.
  destruct (set_next st (prev h) (next h)) as [st1|] eqn:E1; [|discriminate].
  cbn [mbind option_bind] in E.
  apply set_next_spec in E1.
  destruct (load st1 x) as [h1|] eqn:Hh1; [|discriminate].
  cbn [mbind option_bind] in E.
  assert (Hsame : next h1 = next h /\ prev h1 = prev h).
  { destruct E1 as (_ & Hl & _). rewrite Hl, Hh in Hh1.
    destruct (decide (x = prev h)); simpl in Hh1; injection Hh1 as <-;
      split; reflexivity. }
  destruct Hsame as [Hn1 Hp1]. rewrite Hn1, Hp1 in E.
  apply set_prev_spec in E.
  rewrite (updates_other _ _ _ _ q E Hq2).
  apply (updates_other _ _ _ _ q E1 Hq1).
Qed.

(** [push_front] writes the node, the sentinel and the former first node
    of the list, and nothing else. *)
Lemma push_front_loads st i node s st' :
  load st (Sentinel i) = Some s -> push_front st i node = Some st' ->
  forall q, q <> node -> q <> Sentinel i -> q <> next s ->
  load st' q = load st q.
Proof.
  intros Hs E q Hq1 Hq2 Hq3. unfold push_front in E. rewrite Hs in E.
  cbn [mbind option_bind] in E.
  destruct (set_next st node (next s)) as [st1|] eqn:E1; [|discriminate].
  cbn [mbind option_bind] in E.
  destruct (set_prev st1 node (Sentinel i)) as [st2|] eqn:E2; [|discriminate].
  cbn [mbind option_bind] in E.
  apply set_next_spec in E1. apply set_prev_spec in E2.
  destruct (load st2 (Sentinel i)) as [s2|] eqn:Hs2; [|discriminate].
  cbn [mbind option_bind] in E.
  assert (Hsame : next s2 = next s).
  { destruct E2 as (_ & Hl2 & _). destruct E1 as (_ & Hl1 & _).
    rewrite Hl2, Hl1, Hs in Hs2.
    destruct (decide (Sentinel i = node)); simpl in Hs2; injection Hs2 as <-;
      reflexivity. }
  rewrite Hsame in E.
  destruct (set_prev st2 (next s) node) as [st3|] eqn:E3; [|discriminate].
  cbn [mbind option_bind] in E.
  apply set_prev_spec in E3. apply set_next_spec in E.
  rewrite (updates_other _ _ _ _ q E Hq2).
  rewrite (updates_other _ _ _ _ q E3 Hq3).
  rewrite (updates_other _ _ _ _ q E2 Hq1).
  apply (updates_other _ _ _ _ q E1 Hq1).
Qed.

(** In a doubly linked run the neighbours of a node are the nodes next to
    it in the run. *)
Lemma chain_neighbours st p l1 x l2 q h :
  chain st p (l1 ++ x :: l2) q -> load st (Mem x) = Some h ->
  prev h = last_ptr p l1 /\ next h = head_ptr l2 q.
Proof.
  intros Hc Hh. apply chain_app in Hc as [Hc1 Hc2].
  apply chain_last in Hc1 as [_ Hp]. apply chain_head in Hc2 as [Hn _].
  unfold prevp in Hp. unfold nextp in Hn. rewrite Hh in Hp, Hn.
  simpl in Hp, Hn. split; congruence.
Qed.

End Writes.
(** ** The lists and the headers after the loops *)

(** The buddy of a block that starts its parent is the upper half of the
    parent. *)
Lemma buddy_of_lower b a j :
  0 <= j -> b <= a -> aligned b a (j + 1) -> buddy_of b a j = a + 2 ^ j.
Proof.
  intros Hj Hb Hal.
  assert (Hal' : aligned b a j) by (apply (aligned_weaken b a (j + 1)); [lia|exact Hal]).
  destruct (lxor_pow2_aligned (a - b) j Hj ltac:(lia) Hal') as [[_ E]|[Hm [_ _]]].
  - unfold buddy_of. rewrite E. lia.
  - exfalso. apply aligned_iff in Hal as [p Hp]; [|lia].
    apply Z.mod_divide in Hm as [q Hq]; [|pose proof (pow2_pos (j + 1)); lia].
    pose proof (pow2_succ j Hj) as Hs. pose proof (pow2_pos j Hj) as Hpos.
    assert (2 ^ j * (2 * (p - q) - 1) = 0) by nia.
    assert (2 * (p - q) - 1 = 0) by nia. lia.
Qed.

Lemma buddy_of_upper b a j :
  0 <= j -> b <= a -> aligned b a (j + 1) -> buddy_of b (a + 2 ^ j) j = a.
Proof.
  intros Hj Hb Hal. rewrite <- (buddy_of_lower b a j Hj Hb Hal).
  apply buddy_of_involutive.
Qed.

Lemma buddy_of_neq b a k : 0 <= k -> b <= a -> aligned b a k -> buddy_of b a k <> a.
Proof.
  intros Hk Hb Hal. pose proof (pow2_pos k Hk).
  destruct (buddy_parent b a k Hk Hb Hal) as (par & _ & _ & [[_ E]|[E1 E2]]); lia.
Qed.

Section EffectLoops.
Context {cfg : LabH}.
Hypothesis Hsane : lab_h_sane.

(** The invariant depends on the lists order by order. *)
Lemma arena_inv_ext st F F' R held :
  (forall i, F i = F' i) -> arena_inv st F R held -> arena_inv st F' R held.
Proof.
  intros HF Hinv.
  eapply arena_inv_rebuild; [exact Hinv|apply same_frame_refl|..].
  - intros i Hi. rewrite <- HF. apply (inv_lists _ _ _ _ Hinv i Hi).
  - intros i Hi. rewrite <- HF. apply (inv_nodup _ _ _ _ Hinv i Hi).
  - intros i a Hi Ha. rewrite <- HF in Ha. apply (inv_free _ _ _ _ Hinv i a Hi Ha).
  - apply (inv_reserved _ _ _ _ Hinv).
  - intros a k Hh. rewrite <- HF. apply (inv_held _ _ _ _ Hinv a k Hh).
  - eapply tiles_ext; [|apply (inv_tiles _ _ _ _ Hinv)].
    intros a k. unfold live. rewrite HF. reflexivity.
Qed.

(** A block on a free list holds its own header. *)
Lemma free_in_free_block st F R held i a :
  arena_inv st F R held -> 0 <= i < MAX_K -> a ∈ F i -> in_free_block F a.
Proof.
  intros Hinv Hi Ha. exists a, i. split; [exact Hi|]. split; [exact Ha|].
  split; [lia|].
  pose proof (inv_live_order Hsane _ _ _ _ Hinv a i (live_free F R held i a Hi Ha)).
  pose proof (hdr_fits Hsane i ltac:(lia)). lia.
Qed.

Lemma head_ptr_free st F R held i l q y :
  arena_inv st F R held -> 0 <= i < MAX_K -> (forall a, a ∈ l -> a ∈ F i) ->
  ~ in_free_block F y -> (forall a, q <> Mem a) -> Mem y <> head_ptr l q.
Proof.
  intros Hinv Hi Hsub Hy Hq E.
  destruct (head_ptr_cases l q) as [E'|(a & Ha & E')]; rewrite E' in E.
  - apply (Hq y). congruence.
  - injection E as ->. apply Hy.
    eapply free_in_free_block; [exact Hinv|exact Hi|apply Hsub, Ha].
Qed.

Lemma last_ptr_free st F R held i l p y :
  arena_inv st F R held -> 0 <= i < MAX_K -> (forall a, a ∈ l -> a ∈ F i) ->
  ~ in_free_block F y -> (forall a, p <> Mem a) -> Mem y <> last_ptr p l.
Proof.
  intros Hinv Hi Hsub Hy Hp E.
  destruct (last_ptr_cases p l) as [E'|(a & Ha & E')]; rewrite E' in E.
  - apply (Hp y). congruence.
  - injection E as ->. apply Hy.
    eapply free_in_free_block; [exact Hinv|exact Hi|apply Hsub, Ha].
Qed.

(** One round of the splitting loop writes the header of the upper half
    and that of the first block of the list it joins. *)
Lemma split_step_loads st F R a j st' :
  arena_inv st F R (Some (a, j + 1)) -> 0 <= j < MAX_K ->
  (st1 ← set_tag st (Mem (a + 2 ^ j)) BLOCK_AVAIL;
   st2 ← set_kval st1 (Mem (a + 2 ^ j)) j;
   st3 ← push_front st2 j (Mem (a + 2 ^ j));
   Some st3) = Some st' ->
  forall y, y <> a + 2 ^ j -> Mem y <> head_ptr (F j) (Sentinel j) ->
  load st' (Mem y) = load st (Mem y).
Proof.
  intros Hinv Hj E y Hy1 Hy2.
  destruct (set_tag st (Mem (a + 2 ^ j)) BLOCK_AVAIL) as [st1|] eqn:E1;
    [|discriminate].
  cbn [mbind option_bind] in E.
  destruct (set_kval st1 (Mem (a + 2 ^ j)) j) as [st2|] eqn:E2; [|discriminate].
  cbn [mbind option_bind] in E.
  destruct (push_front st2 j (Mem (a + 2 ^ j))) as [st3|] eqn:E3; [|discriminate].
  cbn [mbind option_bind] in E. injection E as <-.
  apply set_tag_spec in E1. apply set_kval_spec in E2.
  pose proof (inv_sentinel_next _ _ _ _ Hinv j Hj) as Hnx.
  destruct (load st (Sentinel j)) as [s|] eqn:Hs;
    [|unfold nextp in Hnx; rewrite Hs in Hnx; discriminate].
  unfold nextp in Hnx. rewrite Hs in Hnx. simpl in Hnx. injection Hnx as Hnx.
  assert (Hs2 : load st2 (Sentinel j) = Some s).
  { rewrite (updates_other _ _ _ _ _ E2) by discriminate.
    rewrite (updates_other _ _ _ _ _ E1) by discriminate. exact Hs. }
  rewrite (push_front_loads st2 j _ s st3 Hs2 E3 (Mem y)); [|congruence|discriminate|congruence].
  rewrite (updates_other _ _ _ _ _ E2) by congruence.
  apply (updates_other _ _ _ _ _ E1). congruence.
Qed.

(** The splitting loop: the lists it leaves, and the headers it leaves
    alone. *)
Lemma split_lists_ok R n :
  forall st F a i k,
  arena_inv st F R (Some (a, i)) -> i = k + Z.of_nat n -> SMALLEST_K <= k ->
  exists st', split n st (Mem a) i = Some st' /\
    same_frame st st' /\
    arena_inv st' (split_lists F a k i) R (Some (a, k)) /\
    (forall y, ~ (a <= y /\ y + sizeof_avail <= a + 2 ^ i) ->
       ~ in_free_block F y -> load st' (Mem y) = load st (Mem y)).
Proof.
  induction n as [|n IH]; intros st F a i k Hinv Hi Hk.
  - exists st. simpl. replace i with k in * by lia.
    split; [reflexivity|]. split; [apply same_frame_refl|].
    split; [|reflexivity].
    eapply arena_inv_ext; [|exact Hinv].
    intros j. unfold split_lists. rewrite decide_False by lia. reflexivity.
  - use_sane Hsane.
    pose proof (live_held F R _ a i eq_refl) as Hlive.
    destruct (inv_live_range Hsane _ _ _ _ Hinv a i Hlive) as (Hir & _).
    cbn [split]. rewrite shl1_pow by lia. simpl.
    replace i with ((i - 1) + 1) in Hinv by lia.
    destruct (inv_split_step Hsane st F R a (i - 1) Hinv ltac:(lia))
      as (st1 & E1 & Hfr1 & Hinv1).
    rewrite E1.
    destruct (IH st1 _ a (i - 1) k Hinv1 ltac:(lia) Hk)
      as (st' & E & Hfr & Hinv' & Hld).
    exists st'. split; [exact E|].
    split; [eapply same_frame_trans; eassumption|]. split.
    + eapply arena_inv_ext; [|exact Hinv'].
      intros j. unfold split_lists.
      destruct (decide (j = i - 1)) as [->|Hne].
      * rewrite fn_lookup_insert.
        rewrite decide_False by lia. rewrite decide_True by lia. reflexivity.
      * rewrite fn_lookup_insert_ne by congruence.
        destruct (decide (k <= j < i - 1)).
        -- rewrite decide_True by lia. reflexivity.
        -- rewrite decide_False by lia. reflexivity.
    + intros y Hout Hfree.
      pose proof (pow2_succ (i - 1) ltac:(lia)) as Hs.
      replace (i - 1 + 1) with i in Hs by lia.
      pose proof (pow2_pos (i - 1) ltac:(lia)) as Hpos.
      pose proof (hdr_fits Hsane (i - 1) ltac:(lia)) as Hfit.
      rewrite Hld.
      * apply (split_step_loads st F R a (i - 1) st1 Hinv ltac:(lia) (E1 _ Some)).
        -- intros ->. apply Hout. lia.
        -- apply (head_ptr_free st F R _ (i - 1) (F (i - 1)) _ y Hinv);
             [lia|auto|exact Hfree|discriminate].
      * intros [Hy1 Hy2]. apply Hout. lia.
      * intros (a0 & k0 & Hk0 & Ha0 & Hlo & Hhi).
        apply elem_of_fn_insert in Ha0 as [[-> Ha0]|[_ Ha0]].
        -- apply elem_of_cons in Ha0 as [->|Ha0].
           ++ apply Hout. lia.
           ++ apply Hfree. exists a0, (i - 1). auto.
        -- apply Hfree. exists a0, k0. auto.
Qed.

(** What stops the coalescing loop below the top order: the buddy is not
    on the free list of the block's order. *)
Lemma merge_stop st F R a k :
  arena_inv st F R (Some (a, k)) ->
  meta st (Mem a) = Some (BLOCK_AVAIL, k) ->
  k < kval_m (pool st) ->
  coalesce_body st (Mem a) k = Some None ->
  buddy_of (arena_base st) a k ∉ F k.
Proof.
  intros Hinv Hma Hkm E Hin. use_sane Hsane.
  pose proof (live_held F R _ a k eq_refl) as Hlive.
  destruct (inv_live_range Hsane _ _ _ _ Hinv a k Hlive) as (Hk & Hal & Hlo & Hhi).
  destruct (inv_base _ _ _ _ Hinv) as (Hb & Hbpos & Htop).
  pose proof (inv_kval_m _ _ _ _ Hinv) as Hm.
  pose proof (pow2_pos k ltac:(lia)) as Hpk.
  destruct (meta_load _ _ _ _ Hma) as (h & Hh & Hht & Hhk).
  pose proof (inv_free _ _ _ _ Hinv k _ Hk Hin) as Hmy.
  destruct (meta_load _ _ _ _ Hmy) as (hb & Hhb & Hbt & Hbk).
  unfold coalesce_body in E.
  rewrite (buddy_calc_ok st a (arena_base st) k h Hb Hh Hhk) in E by lia.
  cbn [mbind option_bind] in E. rewrite Hhb in E. cbn [mbind option_bind] in E.
  destruct (decide (tag hb <> BLOCK_AVAIL \/ kval hb <> k)) as [[Hc|Hc]|_];
    [contradiction..|].
  destruct (unlink st (Mem (buddy_of (arena_base st) a k))) as [st1|];
    [|discriminate].
  cbn [mbind option_bind] in E.
  destruct (set_kval st1 _ (k + 1)); discriminate.
Qed.

(** A round of the coalescing loop that merges writes the neighbours of
    the buddy on its list and the header of the lower block of the pair. *)
Lemma merge_step_loads st F R a k l1 l2 st' p' k' :
  arena_inv st F R (Some (a, k)) ->
  meta st (Mem a) = Some (BLOCK_AVAIL, k) ->
  k < kval_m (pool st) ->
  F k = l1 ++ buddy_of (arena_base st) a k :: l2 ->
  coalesce_body st (Mem a) k = Some (Some (st', p', k')) ->
  forall q, q <> last_ptr (Sentinel k) l1 -> q <> head_ptr l2 (Sentinel k) ->
    q <> Mem (Z.min a (buddy_of (arena_base st) a k)) ->
    load st' q = load st q.
Proof.
  intros Hinv Hma Hkm HF E q Hq1 Hq2 Hq3. use_sane Hsane.
  pose proof (live_held F R _ a k eq_refl) as Hlive.
  destruct (inv_live_range Hsane _ _ _ _ Hinv a k Hlive) as (Hk & Hal & Hlo & Hhi).
  destruct (inv_base _ _ _ _ Hinv) as (Hb & Hbpos & Htop).
  pose proof (inv_kval_m _ _ _ _ Hinv) as Hm.
  pose proof (pow2_pos k ltac:(lia)) as Hpk.
  destruct (meta_load _ _ _ _ Hma) as (h & Hh & Hht & Hhk).
  set (y := buddy_of (arena_base st) a k) in *.
  unfold coalesce_body in E.
  rewrite (buddy_calc_ok st a (arena_base st) k h Hb Hh Hhk) in E by lia.
  fold y in E.
  cbn [mbind option_bind] in E.
  destruct (load st (Mem y)) as [hb|] eqn:Hhb; [|discriminate].
  cbn [mbind option_bind] in E.
  destruct (decide (tag hb <> BLOCK_AVAIL \/ kval hb <> k)); [discriminate|].
  destruct (unlink st (Mem y)) as [st1|] eqn:E1; [|discriminate].
  cbn [mbind option_bind] in E.
  assert (Hblk : (if ptr_gt (Mem a) (Mem y) then Mem y else Mem a) =
                 Mem (Z.min a y)).
  { unfold ptr_gt. destruct (Z.ltb_spec y a); f_equal; lia. }
  rewrite Hblk in E.
  destruct (set_kval st1 (Mem (Z.min a y)) (k + 1)) as [st2|] eqn:E2;
    [|discriminate].
  cbn [mbind option_bind] in E. injection E as <- _ _.
  apply set_kval_spec in E2.
  rewrite (updates_other _ _ _ _ q E2 Hq3).
  pose proof (inv_lists _ _ _ _ Hinv k Hk) as Hc. unfold free_list in Hc.
  rewrite HF in Hc.
  destruct (chain_neighbours st _ l1 y l2 _ hb Hc Hhb) as [Hp Hn].
  apply (unlink_loads st (Mem y) hb st1 Hhb E1); congruence.
Qed.

(** The coalescing loop: the lists it leaves are the lists it found less
    the buddies merged; it stops at the top order or when the buddy is not
    on the list; the final block is the one it started with or was on a
    list; and it writes headers of blocks that were free only. *)
Lemma coalesce_lists_ok R n :
  forall st F a k,
  arena_inv st F R (Some (a, k)) ->
  meta st (Mem a) = Some (BLOCK_AVAIL, k) ->
  Z.of_nat n = kval_m (pool st) - k ->
  exists st' F' a' k',
    coalesce n st (Mem a) k = Some (st', Mem a', k') /\
    same_frame st st' /\
    arena_inv st' F' R (Some (a', k')) /\
    meta st' (Mem a') = Some (BLOCK_AVAIL, k') /\
    k <= k' <= kval_m (pool st) /\
    (a' <= a /\ a + 2 ^ k <= a' + 2 ^ k') /\
    (forall j x, x ∈ F' j -> x ∈ F j) /\
    (k' < kval_m (pool st) -> buddy_of (arena_base st) a' k' ∉ F' k') /\
    (a' = a \/ in_free_block F a') /\
    (forall y, y <> a -> ~ in_free_block F y ->
       load st' (Mem y) = load st (Mem y)).
Proof.
  induction n as [|n IH]; intros st F a k Hinv Hma Hn.
  - exists st, F, a, k. simpl. split; [reflexivity|].
    split; [apply same_frame_refl|]. split; [exact Hinv|]. split; [exact Hma|].
    split; [lia|]. split; [lia|]. split; [auto|]. split; [lia|].
    split; [left; reflexivity|reflexivity].
  - cbn [coalesce].
    pose proof (live_held F R _ a k eq_refl) as Hlive.
    destruct (inv_live_range Hsane _ _ _ _ Hinv a k Hlive) as (Hk & _).
    destruct (inv_merge_step Hsane st F R a k Hinv Hma ltac:(lia))
      as [E|(st1 & l1 & l2 & a1 & HF & Ea1 & E & Hfr1 & Hinv1 & Hma1 & Hc1)].
    + rewrite E. simpl. exists st, F, a, k. split; [reflexivity|].
      split; [apply same_frame_refl|]. split; [exact Hinv|].
      split; [exact Hma|]. split; [lia|]. split; [lia|]. split; [auto|].
      split; [intros _; apply (merge_stop st F R a k Hinv Hma ltac:(lia) E)|].
      split; [left; reflexivity|reflexivity].
    + rewrite E. simpl.
      pose proof Hfr1 as (Hkm & _).
      pose proof (arena_base_frame _ _ Hfr1) as Hbase1.
      destruct (IH st1 _ a1 (k + 1) Hinv1 Hma1 ltac:(lia))
        as (st' & F' & a' & k' & E' & Hfr & Hinv' & Hma' & Hk' & Hc' & Hsub
            & Hstop & Hwhere & Hld).
      assert (Hsub1 : forall j x, x ∈ (<[k := l1 ++ l2]> F) j -> x ∈ F j).
      { intros j x Hx. apply elem_of_fn_insert in Hx as [[-> Hx]|[_ Hx]];
          [|exact Hx].
        rewrite HF. apply elem_of_app in Hx as [Hx|Hx];
          [apply elem_of_app; left; exact Hx|].
        apply elem_of_app. right. right. exact Hx. }
      assert (Hfb1 : forall y, in_free_block (<[k := l1 ++ l2]> F) y ->
                               in_free_block F y).
      { intros y (a0 & k0 & Hk0 & Ha0 & Hr). exists a0, k0.
        split; [exact Hk0|]. split; [apply Hsub1, Ha0|exact Hr]. }
      assert (Hyf : buddy_of (arena_base st) a k ∈ F k).
      { rewrite HF. apply elem_of_app. right. left. }
      assert (Ha1 : a1 = a \/ in_free_block F a1).
      { destruct (Z.min_spec a (buddy_of (arena_base st) a k)) as [[_ Em]|[_ Em]];
          rewrite Em in Ea1; [left; exact Ea1|right].
        rewrite Ea1. eapply free_in_free_block; [exact Hinv|exact Hk|exact Hyf]. }
      exists st', F', a', k'. split; [exact E'|].
      split; [eapply same_frame_trans; eassumption|].
      split; [exact Hinv'|]. split; [exact Hma'|].
      split; [lia|]. split; [lia|].
      split; [intros j x Hx; apply Hsub1, Hsub, Hx|].
      split; [rewrite <- Hbase1; intros; apply Hstop; lia|].
      split.
      { destruct Hwhere as [->|Hw]; [exact Ha1|right; apply Hfb1, Hw]. }
      intros y Hya Hyfree.
      rewrite Hld.
      * apply (merge_step_loads st F R a k l1 l2 st1 _ _ Hinv Hma ltac:(lia)
                 HF E).
        -- apply (last_ptr_free st F R _ k l1 _ y Hinv Hk); [|exact Hyfree|discriminate].
           intros x Hx. rewrite HF. apply elem_of_app. left. exact Hx.
        -- apply (head_ptr_free st F R _ k l2 _ y Hinv Hk); [|exact Hyfree|discriminate].
           intros x Hx. rewrite HF. apply elem_of_app. right. right. exact Hx.
        -- rewrite <- Ea1. intros [= ->].
           destruct Ha1 as [->|Hw]; [congruence|contradiction].
      * intros ->. destruct Ha1 as [->|Hw]; [congruence|contradiction].
      * intros Hw. apply Hyfree, Hfb1, Hw.
Qed.

End EffectLoops.
(** ** The lists and the headers after [buddy_malloc] and [buddy_free] *)

Section EffectInterface.
Context {cfg : LabH}.
Hypothesis Hsane : lab_h_sane.

Lemma reserve_loads st a k st' :
  (st1 ← set_tag st (Mem a) BLOCK_RESERVED;
   st2 ← set_kval st1 (Mem a) k;
   Some st2) = Some st' ->
  forall q, q <> Mem a -> load st' q = load st q.
Proof.
  intros E q Hq.
  destruct (set_tag st (Mem a) BLOCK_RESERVED) as [st1|] eqn:E1; [|discriminate].
  cbn [mbind option_bind] in E.
  destruct (set_kval st1 (Mem a) k) as [st2|] eqn:E2; [|discriminate].
  cbn [mbind option_bind] in E. injection E as <-.
  apply set_tag_spec in E1. apply set_kval_spec in E2.
  rewrite (updates_other _ _ _ _ q E2 Hq).
  apply (updates_other _ _ _ _ q E1 Hq).
Qed.

(** [buddy_malloc] on a well-formed arena, with the lists it leaves. *)
Lemma buddy_malloc_lists st F R size :
  arena_ok st F R -> size <> 0 ->
  ((forall i, btok size <= i <= kval_m (pool st) -> F i = []) /\
   buddy_malloc st ThePool size = Some (NULL, set_errno ENOMEM st)) \/
  (exists i a l st',
     btok size <= i <= kval_m (pool st) /\
     (forall j, btok size <= j < i -> F j = []) /\
     F i = a :: l /\
     buddy_malloc st ThePool size = Some (Mem (a + sizeof_avail), st') /\
     same_frame st st' /\
     arena_ok st' (split_lists (<[i := l]> F) a (btok size) i)
       ({[(a, btok size)]} ∪ R) /\
     (forall k', (a, k') ∉ R) /\
     (forall y, ~ in_free_block F y -> load st' (Mem y) = load st (Mem y))).
Proof.
  intros Hinv Hz. use_sane Hsane.
  assert (Hk : SMALLEST_K <= btok size <= MAX_K - 1)
    by (apply btok_bounds; [assumption|lia]).
  pose proof (inv_kval_m _ _ _ _ Hinv) as Hm.
  set (k := btok size) in *. set (km := kval_m (pool st)) in *.
  unfold buddy_malloc. destruct (Z.eqb_spec size 0) as [|_]; [contradiction|].
  fold k. fold km.
  destruct (Z.ltb_spec km k) as [Hbig|Hfit].
  { left. split; [intros; lia|reflexivity]. }
  destruct (find_avail_ok st F R None (Z.to_nat (km + 1 - k)) Hinv k
              ltac:(lia) ltac:(lia)) as (j & Ej & Hj & Hemp & Hne).
  rewrite Ej. cbn [mbind option_bind].
  destruct (Z.ltb_spec km j) as [Hnone|Hsome].
  { left. split; [|reflexivity]. intros i Hi. apply Hemp. lia. }
  right.
  specialize (Hne ltac:(lia)).
  destruct (F j) as [|x l] eqn:HF; [contradiction|].
  assert (Hjr : 0 <= j < MAX_K) by lia.
  pose proof (inv_sentinel_next _ _ _ _ Hinv j Hjr) as Hnx.
  rewrite HF in Hnx. cbn [head_ptr] in Hnx.
  destruct (load st (Sentinel j)) as [s|] eqn:Hs;
    [|unfold nextp in Hnx; rewrite Hs in Hnx; discriminate].
  unfold nextp in Hnx. rewrite Hs in Hnx. cbn in Hnx. injection Hnx as Hnx.
  cbn [mbind option_bind]. rewrite Hnx.
  destruct (inv_take Hsane st F R j x l Hinv Hjr HF) as (st1 & E1 & Hfr1 & Hinv1).
  rewrite E1. cbn [mbind option_bind].
  destruct (split_lists_ok Hsane R (Z.to_nat (j - k)) st1 _ x j k Hinv1
              ltac:(lia) ltac:(lia)) as (st2 & E2 & Hfr2 & Hinv2 & Hld2).
  rewrite E2. cbn [mbind option_bind].
  destruct (inv_reserve Hsane st2 _ R x k Hinv2) as (st3 & E3 & Hfr3 & Hinv3).
  rewrite E3. cbn [avail_succ mbind option_bind].
  exists j, x, l, st3. split; [lia|]. split; [intros i Hi; apply Hemp; lia|].
  split; [exact HF|]. split; [reflexivity|].
  split.
  { eapply same_frame_trans; [exact Hfr1|].
    eapply same_frame_trans; eassumption. }
  split; [exact Hinv3|].
  split.
  { intros k' Hr.
    eapply (inv_held_not_reserved Hsane _ _ _ _ Hinv2 x k k'); eauto. }
  intros y Hy.
  assert (Hxf : x ∈ F j) by (rewrite HF; left).
  assert (Hxy : y <> x).
  { intros ->. apply Hy. eapply free_in_free_block; eassumption. }
  rewrite (reserve_loads st2 x k st3 (E3 _ Some)) by congruence.
  rewrite Hld2.
  - destruct (inv_live_load Hsane _ _ _ _ Hinv x j (live_free F R None j x Hjr Hxf))
      as [h Hh].
    pose proof (inv_lists _ _ _ _ Hinv j Hjr) as Hc. unfold free_list in Hc.
    rewrite HF in Hc.
    destruct (chain_neighbours st _ [] x l _ h Hc Hh) as [Hp Hn].
    apply (unlink_loads st (Mem x) h st1 Hh E1).
    + rewrite Hp. discriminate.
    + rewrite Hn.
      apply (head_ptr_free Hsane st F R _ j l _ y Hinv Hjr); [|exact Hy|discriminate].
      intros a0 Ha0. rewrite HF. right. exact Ha0.
  - intros [Hlo Hhi]. apply Hy. exists x, j. auto.
  - intros (a0 & k0 & Hk0 & Ha0 & Hr). apply Hy. exists a0, k0.
    split; [exact Hk0|]. split; [|exact Hr].
    apply elem_of_fn_insert in Ha0 as [[-> Ha0]|[_ Ha0]]; [|exact Ha0].
    rewrite HF. right. exact Ha0.
Qed.

(** [buddy_free] on a well-formed arena, with the lists it leaves. *)
Lemma buddy_free_lists st F R a k :
  arena_ok st F R -> (a, k) ∈ R ->
  exists st' F' a' k',
    buddy_free st ThePool (Mem (a + sizeof_avail)) = Some st' /\
    same_frame st st' /\
    arena_ok st' (<[k' := a' :: F' k']> F') (R ∖ {[(a, k)]}) /\
    k <= k' <= kval_m (pool st) /\
    (a' <= a /\ a + 2 ^ k <= a' + 2 ^ k') /\
    (aligned (arena_base st) a' k' /\ arena_base st <= a') /\
    (forall j x, x ∈ F' j -> x ∈ F j) /\
    (k' < kval_m (pool st) -> buddy_of (arena_base st) a' k' ∉ F' k') /\
    (forall y, y <> a -> ~ in_free_block F y ->
       load st' (Mem y) = load st (Mem y)).
Proof.
  intros Hinv Hr. use_sane Hsane.
  pose proof (live_reserved F R None a k Hr) as Hlive.
  pose proof (inv_live_order Hsane _ _ _ _ Hinv a k Hlive) as Hk.
  pose proof (inv_reserved _ _ _ _ Hinv a k Hr) as Hmeta.
  pose proof (inv_kval_m _ _ _ _ Hinv) as Hm.
  destruct (meta_load _ _ _ _ Hmeta) as (h & Hh & _ & Hhk).
  unfold buddy_free. cbn [avail_pred mbind option_bind].
  replace (a + sizeof_avail - sizeof_avail) with a by lia.
  rewrite Hh. cbn [mbind option_bind]. rewrite Hhk.
  destruct (inv_unreserve Hsane st F R a k Hinv Hr)
    as (st1 & E1 & Hfr1 & Hinv1 & Hma1).
  rewrite E1. cbn [mbind option_bind].
  pose proof Hfr1 as (Hkm1 & _).
  pose proof (arena_base_frame _ _ Hfr1) as Hbase1.
  destruct (coalesce_lists_ok Hsane _ (Z.to_nat (kval_m (pool st1) - k)) st1 F a
              k Hinv1 Hma1 ltac:(lia))
    as (st2 & F2 & a2 & k2 & E2 & Hfr2 & Hinv2 & Hma2 & Hk2 & Hc2 & Hsub
        & Hstop & Hwhere & Hld2).
  rewrite E2. cbn [mbind option_bind].
  destruct (inv_release Hsane st2 F2 _ a2 k2 Hinv2 Hma2) as (st3 & E3 & Hfr3 & Hinv3).
  pose proof (arena_base_frame _ _ Hfr2) as Hbase2.
  destruct (inv_live_range Hsane _ _ _ _ Hinv2 a2 k2 (live_held F2 _ _ a2 k2 eq_refl))
    as (Hk2r & Hal2 & Hlo2 & _).
  exists st3, F2, a2, k2. split; [exact E3|].
  split.
  { eapply same_frame_trans; [exact Hfr1|].
    eapply same_frame_trans; eassumption. }
  split; [exact Hinv3|]. split; [lia|]. split; [exact Hc2|].
  split; [rewrite <- Hbase1, <- Hbase2; split; assumption|].
  split; [exact Hsub|].
  split; [rewrite <- Hbase1, <- Hkm1; exact Hstop|].
  intros y Hya Hy.
  assert (Hya2 : y <> a2).
  { intros ->. destruct Hwhere as [->|Hw]; [congruence|contradiction]. }
  pose proof (inv_sentinel_next _ _ _ _ Hinv2 k2 Hk2r) as Hnx.
  destruct (load st2 (Sentinel k2)) as [s|] eqn:Hs;
    [|unfold nextp in Hnx; rewrite Hs in Hnx; discriminate].
  unfold nextp in Hnx. rewrite Hs in Hnx. cbn in Hnx. injection Hnx as Hnx.
  rewrite (push_front_loads st2 k2 (Mem a2) s st3 Hs E3 (Mem y));
    [|congruence|discriminate|].
  - rewrite Hld2 by assumption.
    apply set_tag_spec in E1. apply (updates_other _ _ _ _ _ E1). congruence.
  - rewrite Hnx.
    apply (head_ptr_free Hsane st F R _ k2 (F2 k2) _ y Hinv Hk2r);
      [apply Hsub|exact Hy|discriminate].
Qed.

(** The blocks on the lists after a split lie within blocks that were on
    the lists before. *)
Lemma in_free_block_split (F : Z -> list Z) i a l k y :
  0 <= i < MAX_K -> F i = a :: l -> 0 <= k <= i ->
  in_free_block (split_lists (<[i := l]> F) a k i) y -> in_free_block F y.
Proof.
  intros Hi HF Hk (a0 & k0 & Hk0 & Ha0 & Hlo & Hhi).
  assert (Hsub : forall t z, z ∈ (<[i := l]> F) t -> z ∈ F t).
  { intros t z Hz. apply elem_of_fn_insert in Hz as [[-> Hz]|[_ Hz]];
      [rewrite HF; right; exact Hz|exact Hz]. }
  unfold split_lists in Ha0.
  destruct (decide (k <= k0 < i)) as [Hr|Hr].
  - apply elem_of_cons in Ha0 as [->|Ha0].
    + exists a, i. split; [exact Hi|]. split; [rewrite HF; left|].
      pose proof (pow2_pos k0 ltac:(lia)).
      pose proof (pow2_succ k0 ltac:(lia)).
      assert (2 ^ (k0 + 1) <= 2 ^ i) by (apply pow2_le_mono; lia).
      lia.
    + exists a0, k0. auto.
  - exists a0, k0. auto.
Qed.

(** [buddy_realloc] on a reserved block of order [k] and a size that is
    not zero, with the header read and the old size computed. *)
Lemma buddy_realloc_unfold st F R a k size :
  arena_ok st F R -> (a, k) ∈ R -> 0 < size ->
  buddy_realloc st ThePool (Mem (a + sizeof_avail)) size =
  if size <=? 2 ^ k - sizeof_avail
  then Some (Mem (a + sizeof_avail), st)
  else
    '(new_ptr, st1) ← buddy_malloc st ThePool size;
    if decide (new_ptr = NULL) then Some (NULL, st1)
    else
      st2 ← memcpy st1 new_ptr (Mem (a + sizeof_avail)) (2 ^ k - sizeof_avail);
      st3 ← buddy_free st2 ThePool (Mem (a + sizeof_avail));
      Some (new_ptr, st3).
Proof.
  intros Hok Hr Hsize. use_sane Hsane.
  pose proof (live_reserved F R None a k Hr) as Hlive.
  pose proof (inv_live_order Hsane _ _ _ _ Hok a k Hlive) as Hk.
  pose proof (inv_kval_m _ _ _ _ Hok) as Hm.
  pose proof (hdr_fits Hsane k ltac:(lia)) as Hhdr.
  pose proof (inv_reserved _ _ _ _ Hok a k Hr) as Hmeta.
  destruct (meta_load _ _ _ _ Hmeta) as (h & Hh & _ & Hhk).
  assert (Hk64 : 2 ^ k < 2 ^ 64) by (apply pow2_lt_mono; lia).
  unfold buddy_realloc.
  destruct (decide (Mem (a + sizeof_avail) = NULL)); [discriminate|].
  destruct (Z.eqb_spec size 0); [lia|].
  cbn [avail_pred mbind option_bind].
  replace (a + sizeof_avail - sizeof_avail) with a by lia.
  rewrite Hh. cbn [mbind option_bind]. rewrite Hhk, shl1_pow by lia.
  cbn [mbind option_bind]. rewrite wrap_small by lia. reflexivity.
Qed.

(** The header of a block handed out does not share a byte with another
    block handed out. *)
Lemma reserved_start_apart st F R a k a0 k0 :
  arena_ok st F R -> (a, k) ∈ R -> (a0, k0) ∈ R -> (a0, k0) <> (a, k) ->
  ~ touches a a0 k0.
Proof.
  intros Hok Hr Hr0 Hne [Hlo Hhi]. use_sane Hsane.
  pose proof (inv_live_order Hsane _ _ _ _ Hok a k (live_reserved F R None a k Hr)).
  pose proof (hdr_fits Hsane k ltac:(lia)).
  destruct (decide (overlap a k a0 k0)) as [Hov|Hno].
  - destruct (tiles_disj _ _ _ (inv_tiles _ _ _ _ Hok) a k a0 k0
                (live_reserved F R None a k Hr)
                (live_reserved F R None a0 k0 Hr0) Hov) as [-> ->].
    apply Hne. reflexivity.
  - apply Hno. unfold overlap. lia.
Qed.

(** The three ways a call of [buddy_realloc] on a reserved block with a
    size above zero can go. *)
Lemma buddy_realloc_steps st F R a k size p st' :
  arena_ok st F R -> (a, k) ∈ R -> 0 < size ->
  buddy_realloc st ThePool (Mem (a + sizeof_avail)) size = Some (p, st') ->
  (size <= 2 ^ k - sizeof_avail /\ p = Mem (a + sizeof_avail) /\ st' = st) \/
  (2 ^ k - sizeof_avail < size /\ p = NULL /\
   buddy_malloc st ThePool size = Some (NULL, st')) \/
  (2 ^ k - sizeof_avail < size /\
   exists a' st1,
     p = Mem (a' + sizeof_avail) /\
     buddy_malloc st ThePool size = Some (Mem (a' + sizeof_avail), st1) /\
     buddy_free
       (set_payload
          (fun x => if (a' + sizeof_avail <=? x) &&
                       (x <? a' + sizeof_avail + (2 ^ k - sizeof_avail))
                    then payload st1 (x - (a' + sizeof_avail) +
                                        (a + sizeof_avail))
                    else payload st1 x) st1)
       ThePool (Mem (a + sizeof_avail)) = Some st').
Proof.
  intros Hok Hr Hsize E.
  rewrite (buddy_realloc_unfold st F R a k size Hok Hr Hsize) in E.
  destruct (Z.leb_spec size (2 ^ k - sizeof_avail)) as [Hfits|Hgrow].
  { injection E as <- <-. left. auto. }
  right.
  destruct (buddy_malloc_lists st F R size Hok ltac:(lia))
    as [[_ E1]|(i & a' & l & st1 & _ & _ & _ & E1 & _)];
    rewrite E1 in E; cbn [mbind option_bind] in E.
  { destruct (decide (NULL = NULL)); [|contradiction].
    injection E as <- <-. left. auto. }
  right. split; [exact Hgrow|].
  destruct (decide (Mem (a' + sizeof_avail) = NULL)); [discriminate|].
  destruct (memcpy st1 (Mem (a' + sizeof_avail)) (Mem (a + sizeof_avail))
              (2 ^ k - sizeof_avail)) as [st2|] eqn:E2; [|discriminate].
  cbn [mbind option_bind] in E.
  destruct (buddy_free st2 ThePool (Mem (a + sizeof_avail))) as [st3|] eqn:E3;
    [|discriminate].
  cbn [mbind option_bind] in E. injection E as <- <-.
  exists a', st1. split; [reflexivity|]. split; [exact E1|].
  rewrite <- E3. f_equal.
  unfold memcpy in E2. destruct (base (pool st1)); try discriminate.
  destruct (_ && _); [|discriminate]. injection E2 as <-. reflexivity.
Qed.

(** [buddy_realloc] on a reserved block goes through when the new size
    and a header stay within 64 bits. *)
Lemma buddy_realloc_defined st F R a k size :
  arena_ok st F R -> (a, k) ∈ R ->
  0 <= size -> size + sizeof_avail <= 2 ^ 64 ->
  is_Some (buddy_realloc st ThePool (Mem (a + sizeof_avail)) size).
Proof.
  intros Hok Hr Hsize Hno. use_sane Hsane.
  destruct (decide (size = 0)) as [->|Hz].
  { unfold buddy_realloc.
    destruct (decide (Mem (a + sizeof_avail) = NULL)); [discriminate|].
    destruct (buddy_free_lists st F R a k Hok Hr) as (st' & F' & a' & k' & E & _).
    rewrite E. simpl. eauto. }
  rewrite (buddy_realloc_unfold st F R a k size Hok Hr ltac:(lia)).
  destruct (Z.leb_spec size (2 ^ k - sizeof_avail)) as [Hfits|Hgrow]; [eauto|].
  pose proof (live_reserved F R None a k Hr) as Hlive.
  pose proof (inv_live_order Hsane _ _ _ _ Hok a k Hlive) as Hk.
  destruct (inv_live_range Hsane _ _ _ _ Hok a k Hlive) as (Hkr & _ & Hlo & Hhi).
  pose proof (inv_kval_m _ _ _ _ Hok) as Hm.
  destruct (inv_base _ _ _ _ Hok) as (Hb & Hbpos & Htop).
  pose proof (hdr_fits Hsane k ltac:(lia)) as Hhdr.
  destruct (buddy_malloc_lists st F R size Hok ltac:(lia))
    as [[_ E1]|(i & a' & l & st1 & _ & _ & _ & E1 & Hfr1 & Hok1 & Hnew & _)];
    rewrite E1; cbn [mbind option_bind].
  { destruct (decide (NULL = NULL)); [eauto|contradiction]. }
  destruct (decide (Mem (a' + sizeof_avail) = NULL)); [discriminate|].
  assert (Hkk' : k <= btok size) by (apply btok_at_least; lia).
  set (R1 := ({[(a', btok size)]} ∪ R : gset (Z * Z))) in *.
  assert (Hlive1 : live (split_lists (<[i := l]> F) a' (btok size) i) R1 None
                     a' (btok size)).
  { left. apply elem_of_union. left. apply elem_of_singleton. reflexivity. }
  destruct (inv_live_range Hsane _ _ _ _ Hok1 a' (btok size) Hlive1)
    as (_ & _ & Hlo' & Hhi').
  pose proof (arena_base_frame _ _ Hfr1) as Hbase1.
  pose proof Hfr1 as (Hkm1 & Hnb1 & Hb1 & _).
  rewrite Hbase1, Hkm1 in Hhi'. rewrite Hbase1 in Hlo'.
  assert (Hmono : 2 ^ k <= 2 ^ btok size) by (apply pow2_le_mono; lia).
  pose proof (inv_numbytes _ _ _ _ Hok) as Hnb.
  assert (Emc := memcpy_ok st1 (arena_base st) (a' + sizeof_avail)
                   (a + sizeof_avail) (2 ^ k - sizeof_avail)).
  rewrite Hb1, Hnb1, Hnb in Emc.
  assert (Hne : a <> a') by (intros ->; apply (Hnew k Hr)).
  assert (Hr1 : (a, k) ∈ R1) by (apply elem_of_union; right; exact Hr).
  pose proof (live_apart _ _ _ a k a' (btok size) Hsane Hok1
                (live_reserved _ _ None a k Hr1) Hlive1 Hne) as Hapart.
  specialize (Emc Hb ltac:(lia) ltac:(lia) ltac:(lia) ltac:(lia) ltac:(lia)).
  set (st2 := set_payload _ st1) in Emc.
  rewrite Emc. cbn [mbind option_bind].
  assert (Hok2 : arena_ok st2 (split_lists (<[i := l]> F) a' (btok size) i) R1)
    by (apply arena_inv_payload, Hok1).
  destruct (buddy_free_lists st2 _ R1 a k Hok2 Hr1) as (st3 & F3 & a3 & k3 & E3 & _).
  rewrite E3. simpl. eauto.
Qed.

(** Taking a block off the lists and splitting it leaves nothing to
    coalesce when there was nothing before. *)
Lemma coalesced_split st F R i a l k :
  arena_ok st F R -> 0 <= i < MAX_K -> F i = a :: l -> 0 <= k <= i ->
  coalesced (arena_base st) (kval_m (pool st)) F ->
  coalesced (arena_base st) (kval_m (pool st))
    (split_lists (<[i := l]> F) a k i).
Proof.
  intros Hinv Hi HF Hki Hco j x Hj Hx Hbx.
  pose proof (inv_kval_m _ _ _ _ Hinv) as Hm.
  assert (Haf : a ∈ F i) by (rewrite HF; left).
  destruct (inv_live_range Hsane _ _ _ _ Hinv a i (live_free F R None i a Hi Haf))
    as (_ & Hal & Hlo & _).
  assert (Hsub : forall t z, z ∈ (<[i := l]> F) t -> z ∈ F t).
  { intros t z Hz. apply elem_of_fn_insert in Hz as [[-> Hz]|[_ Hz]];
      [rewrite HF; right; exact Hz|exact Hz]. }
  assert (Ha_not : forall t, 0 <= t < MAX_K -> t <> i -> a ∉ F t).
  { intros t Ht Hne Hin. apply Hne.
    eapply (inv_cross Hsane _ _ _ _ Hinv t i a); eassumption. }
  assert (Hup : k <= j < i -> buddy_of (arena_base st) (a + 2 ^ j) j = a).
  { intros Hr. apply buddy_of_upper; [lia|exact Hlo|].
    apply (aligned_weaken _ _ i); [lia|exact Hal]. }
  assert (Hpos : 0 < 2 ^ j) by (apply pow2_pos; lia).
  unfold split_lists in Hx, Hbx.
  destruct (decide (k <= j < i)) as [Hr|Hr].
  - apply elem_of_cons in Hx as [->|Hx].
    + rewrite (Hup Hr) in Hbx. apply elem_of_cons in Hbx as [Hbx|Hbx]; [lia|].
      apply (Ha_not j); [lia|lia|apply Hsub, Hbx].
    + apply elem_of_cons in Hbx as [Hbx|Hbx].
      * assert (x = a).
        { rewrite <- (buddy_of_involutive (arena_base st) x j), Hbx.
          apply Hup, Hr. }
        subst x. apply (Ha_not j); [lia|lia|apply Hsub, Hx].
      * apply (Hco j x Hj); apply Hsub; assumption.
  - apply (Hco j x Hj); apply Hsub; assumption.
Qed.

(** Putting the block the coalescing loop ends with on its list leaves
    nothing to coalesce. *)
Lemma coalesced_push b m (F F' : Z -> list Z) a' k' :
  coalesced b m F ->
  (forall j x, x ∈ F' j -> x ∈ F j) ->
  (k' < m -> buddy_of b a' k' ∉ F' k') ->
  0 <= k' -> b <= a' -> aligned b a' k' ->
  coalesced b m (<[k' := a' :: F' k']> F').
Proof.
  intros Hco Hsub Hstop Hk' Hlo Hal j x Hj Hx Hbx.
  apply elem_of_fn_insert in Hx as [[-> Hx]|[Hne Hx]].
  - rewrite fn_lookup_insert in Hbx.
    apply elem_of_cons in Hx as [->|Hx].
    + apply elem_of_cons in Hbx as [Hbx|Hbx].
      * apply (buddy_of_neq b a' k'); assumption.
      * apply Hstop; [lia|exact Hbx].
    + apply elem_of_cons in Hbx as [Hbx|Hbx].
      * apply Hstop; [lia|].
        rewrite <- Hbx, buddy_of_involutive. exact Hx.
      * apply (Hco k' x Hj); apply Hsub; assumption.
  - rewrite fn_lookup_insert_ne in Hbx by congruence.
    apply (Hco j x Hj); apply Hsub; assumption.
Qed.

End EffectInterface.
(** ** What holds after every sequence of calls *)

Lemma reserved_bytes_empty : reserved_bytes ∅ = 0.
Proof. unfold reserved_bytes. apply set_fold_empty. Qed.

Lemma reserved_bytes_insert (x : Z * Z) (R : gset (Z * Z)) :
  x ∉ R -> reserved_bytes ({[x]} ∪ R) = 2 ^ x.2 + reserved_bytes R.
Proof.
  intros Hx. unfold reserved_bytes.
  rewrite (set_fold_disj_union_strong (=) (fun ak acc => 2 ^ ak.2 + acc) 0
             {[x]} R).
  - rewrite set_fold_singleton.
    rewrite <- (set_fold_comm_acc (fun ak acc => 2 ^ ak.2 + acc)
                  (fun acc => 2 ^ x.2 + acc) 0 R) by (intros; lia).
    f_equal; lia.
  - intros y. solve_proper.
  - intros; lia.
  - set_solver.
Qed.

Lemma reserved_bytes_delete (x : Z * Z) (R : gset (Z * Z)) :
  x ∈ R -> reserved_bytes (R ∖ {[x]}) = reserved_bytes R - 2 ^ x.2.
Proof.
  intros Hx.
  assert (Hnin : x ∉ R ∖ {[x]}).
  { intros Hin. apply elem_of_difference in Hin as [_ Hin]. apply Hin.
    apply elem_of_singleton. reflexivity. }
  rewrite (union_difference_singleton_L x R Hx) at 2.
  rewrite (reserved_bytes_insert x _ Hnin). lia.
Qed.

Section Histories.
Context {cfg : LabH}.
Hypothesis Hsane : lab_h_sane.

(** Right after [buddy_init] nothing is left to coalesce. *)
Lemma coalesced_init b m : coalesced b m (init_lists m b).
Proof.
  intros k a Hk Ha. unfold init_lists in Ha.
  rewrite decide_False in Ha by lia. inversion Ha.
Qed.

(** With nothing handed out and nothing left to coalesce, the free lists
    are those of a fresh arena. *)
Lemma coalesced_all_free st F :
  arena_ok st F ∅ ->
  coalesced (arena_base st) (kval_m (pool st)) F ->
  F (kval_m (pool st)) = [arena_base st] /\
  (forall i, 0 <= i < MAX_K -> i <> kval_m (pool st) -> F i = []).
Proof.
  intros Hok Hco. use_sane Hsane.
  pose proof (inv_kval_m _ _ _ _ Hok) as Hm.
  set (b := arena_base st) in *. set (m := kval_m (pool st)) in *.
  assert (Hlive : forall a k, live F ∅ None a k -> 0 <= k < MAX_K /\ a ∈ F k).
  { intros a k [Hr|[Hf|Hh]]; [set_solver|exact Hf|discriminate]. }
  assert (Hlow : forall n i, 0 <= i < Z.of_nat n -> i < m -> F i = []).
  { induction n as [|n IH]; intros i Hi Him; [lia|].
    destruct (decide (i < Z.of_nat n)) as [Hlt|Hge]; [apply IH; lia|].
    assert (i = Z.of_nat n) by lia. subst i.
    destruct (F (Z.of_nat n)) as [|x l] eqn:HF; [reflexivity|exfalso].
    assert (Hx : x ∈ F (Z.of_nat n)) by (rewrite HF; left).
    assert (Hlx : live F ∅ None x (Z.of_nat n))
      by (apply live_free; [lia|exact Hx]).
    destruct (tiles_buddy_live _ _ (sane_smallest Hsane) _ x (Z.of_nat n)
                (inv_tiles _ _ _ _ Hok) Hlx Him) as (j & Hj & Hlb).
    apply Hlive in Hlb as [Hjr Hbj].
    destruct (decide (j = Z.of_nat n)) as [->|Hne].
    - apply (Hco (Z.of_nat n) x); [lia|exact Hx|exact Hbj].
    - rewrite (IH j) in Hbj by lia. inversion Hbj. }
  assert (Hother : forall i, 0 <= i < MAX_K -> i <> m -> F i = []).
  { intros i Hi Hne. destruct (decide (i < m)) as [Hlt|Hge].
    - apply (Hlow (Z.to_nat (i + 1)) i); lia.
    - destruct (F i) as [|x l] eqn:HF; [reflexivity|exfalso].
      assert (Hx : x ∈ F i) by (rewrite HF; left).
      pose proof (inv_live_order Hsane _ _ _ _ Hok x i
                    (live_free F ∅ None i x Hi Hx)). lia. }
  split; [|exact Hother].
  assert (Hall : forall x, x ∈ F m -> x = b).
  { intros x Hx.
    destruct (inv_live_range Hsane _ _ _ _ Hok x m
                (live_free F ∅ None m x Hm Hx)) as (_ & _ & Hlo & Hhi).
    fold b in Hlo, Hhi. fold m in Hhi. lia. }
  destruct (tiles_cover _ _ _ (inv_tiles _ _ _ _ Hok) b) as (a & k & Hl & Hr).
  { fold b. fold m. pose proof (pow2_pos m ltac:(lia)). lia. }
  apply Hlive in Hl as [Hk Ha].
  assert (k = m).
  { destruct (decide (k = m)); [assumption|].
    rewrite (Hother k Hk) in Ha by assumption. inversion Ha. }
  subst k.
  pose proof (inv_nodup _ _ _ _ Hok m Hm) as Hnd.
  destruct (F m) as [|x [|x' l]] eqn:HF.
  - inversion Ha.
  - f_equal. apply Hall. left.
  - exfalso. apply NoDup_cons in Hnd as [Hnin _]. apply Hnin.
    rewrite (Hall x) by left. rewrite (Hall x') by (right; left). left.
Qed.

(** Two descriptions of the free lists of one state list the same
    bytes. *)
Lemma free_sum_unique st F F' R R' :
  arena_ok st F R -> arena_ok st F' R' -> free_sum F = free_sum F'.
Proof.
  intros H1 H2.
  rewrite <- (free_bytes_ok _ _ _ _ H1). apply (free_bytes_ok _ _ _ _ H2).
Qed.

Lemma same_frame_mapping st st' : same_frame st st' -> same_mapping st st'.
Proof. intros (H1 & H2 & H3 & _ & _ & _ & H4). repeat split; assumption. Qed.

Lemma same_mapping_refl st : same_mapping st st.
Proof. repeat split. Qed.

Lemma same_mapping_trans st1 st2 st3 :
  same_mapping st1 st2 -> same_mapping st2 st3 -> same_mapping st1 st3.
Proof. unfold same_mapping. intuition congruence. Qed.

Lemma arena_base_mapping st st' :
  same_mapping st st' -> arena_base st' = arena_base st.
Proof. intros (_ & _ & Hb & _). unfold arena_base. rewrite Hb. reflexivity. Qed.

(** A call of [buddy_malloc] keeps what holds between calls. *)
Lemma malloc_step st R size p st' :
  history_inv st R ->
  buddy_malloc st ThePool size = Some (p, st') ->
  history_inv st'
    (match p with
     | Mem q => {[(q - sizeof_avail, btok size)]} ∪ R
     | _ => R
     end) /\
  same_mapping st st' /\
  (forall q k', p = Mem q -> (q - sizeof_avail, k') ∉ R).
Proof.
  intros (F & Hok & Hco & Hsum) E.
  destruct (decide (size = 0)) as [->|Hz].
  { unfold buddy_malloc in E. simpl in E. injection E as <- <-.
    split; [exists F; auto|]. split; [apply same_mapping_refl|discriminate]. }
  destruct (buddy_malloc_lists Hsane st F R size Hok Hz)
    as [[_ E']|(i & a & l & st'' & Hi & _ & HF & E' & Hfr & Hok' & Hnew & _)];
    rewrite E' in E; injection E as <- <-.
  - split; [|split; [repeat split|discriminate]].
    exists F. split; [|split; assumption].
    apply (arena_inv_same_memory st); [reflexivity..|exact Hok].
  - replace (a + sizeof_avail - sizeof_avail) with a by lia.
    split; [|split; [apply same_frame_mapping, Hfr|]].
    2:{ intros q k' [= <-].
        replace (a + sizeof_avail - sizeof_avail) with a by lia. apply Hnew. }
    eexists. split; [exact Hok'|].
    rewrite (arena_base_frame _ _ Hfr).
    pose proof Hfr as (Hkm & Hnb & _). rewrite Hkm, Hnb.
    pose proof (inv_kval_m _ _ _ _ Hok) as Hm.
    assert (SMALLEST_K <= btok size <= MAX_K - 1).
    { use_sane Hsane. apply btok_bounds; [assumption|lia]. }
    use_sane Hsane. split.
    + apply (coalesced_split Hsane st F R i a l (btok size) Hok);
        [lia|exact HF|lia|exact Hco].
    + destruct (buddy_malloc_ok Hsane st F R size Hok Hz)
        as [[_ E2]|(_ & _ & a2 & st2 & F2 & E2 & _ & _ & Hok2 & Hsum2)];
        rewrite E' in E2; [discriminate|].
      injection E2 as Ea <-. assert (a2 = a) by lia. subst a2.
      rewrite (free_sum_unique _ _ _ _ _ Hok' Hok2).
      rewrite reserved_bytes_insert by apply Hnew. simpl. lia.
Qed.

(** A call of [buddy_free] on a block handed out keeps it. *)
Lemma free_step st R a k st' :
  history_inv st R -> (a, k) ∈ R ->
  buddy_free st ThePool (Mem (a + sizeof_avail)) = Some st' ->
  history_inv st' (R ∖ {[(a, k)]}) /\ same_mapping st st'.
Proof.
  intros (F & Hok & Hco & Hsum) Hr E.
  destruct (buddy_free_lists Hsane st F R a k Hok Hr)
    as (st'' & F' & a' & k' & E' & Hfr & Hok' & Hk' & _ & (Hal & Hlo) & Hsub
        & Hstop & _).
  rewrite E' in E. injection E as <-.
  split; [|apply same_frame_mapping, Hfr].
  eexists. split; [exact Hok'|].
  rewrite (arena_base_frame _ _ Hfr).
  pose proof Hfr as (Hkm & Hnb & _). rewrite Hkm, Hnb.
  pose proof (inv_live_order Hsane _ _ _ _ Hok a k (live_reserved F R None a k Hr)).
  use_sane Hsane. split.
  - apply (coalesced_push _ _ F F' a' k'); auto. lia.
  - destruct (buddy_free_ok Hsane st F R a k Hok Hr)
      as (st2 & F2 & E2 & _ & Hok2 & Hsum2 & _).
    rewrite E' in E2. injection E2 as <-.
    rewrite (free_sum_unique _ _ _ _ _ Hok' Hok2), Hsum2.
    rewrite reserved_bytes_delete by exact Hr. simpl. lia.
Qed.

(** Writing payload bytes keeps it. *)
Lemma payload_step st R f :
  history_inv st R -> history_inv (set_payload f st) R.
Proof.
  intros (F & Hok & Hco & Hsum). exists F.
  split; [apply arena_inv_payload, Hok|]. split; assumption.
Qed.

(** A call of [buddy_realloc] on a block handed out keeps it. *)
Lemma realloc_step st R a k size p st' :
  history_inv st R -> (a, k) ∈ R -> 0 < size ->
  buddy_realloc st ThePool (Mem (a + sizeof_avail)) size = Some (p, st') ->
  history_inv st'
    (match p with
     | Mem q =>
         if decide (q = a + sizeof_avail) then R
         else ({[(q - sizeof_avail, btok size)]} ∪ R) ∖ {[(a, k)]}
     | _ => R
     end) /\
  same_mapping st st'.
Proof.
  intros Hinv Hr Hsize E. pose proof Hinv as (F & Hok & _).
  destruct (buddy_realloc_steps Hsane st F R a k size p st' Hok Hr Hsize E)
    as [(_ & -> & ->)|[(_ & -> & E1)|(_ & a' & st1 & -> & E1 & E3)]].
  - rewrite decide_True by reflexivity.
    split; [exact Hinv|apply same_mapping_refl].
  - destruct (malloc_step st R size NULL st' Hinv E1) as (H1 & H2 & _).
    split; assumption.
  - destruct (malloc_step st R size _ st1 Hinv E1) as (H1 & H2 & Hnew).
    assert (Hne : a' <> a).
    { intros ->. apply (Hnew (a + sizeof_avail) k eq_refl).
      replace (a + sizeof_avail - sizeof_avail) with a by lia. exact Hr. }
    rewrite decide_False by lia.
    apply (payload_step _ _
             (fun x => if (a' + sizeof_avail <=? x) &&
                          (x <? a' + sizeof_avail + (2 ^ k - sizeof_avail))
                       then payload st1 (x - (a' + sizeof_avail) +
                                           (a + sizeof_avail))
                       else payload st1 x)) in H1.
    destruct (free_step _ _ a k st' H1) as (H3 & H4); [|exact E3|].
    { apply elem_of_union. right. exact Hr. }
    split; [exact H3|].
    eapply same_mapping_trans; [exact H2|]. exact H4.
Qed.

(** What holds between calls holds in every state the interface
    produces, and the last call of mmap or munmap is the mmap of
    [buddy_init]. *)
Lemma arena_reachable_inv st R :
  arena_reachable st R ->
  history_inv st R /\
  exists tr b,
    os_trace st = tr ++ [Mmap (numbytes (pool st)) (Some b)] /\
    base (pool st) = Mem b.
Proof.
  induction 1 as [st size b st' Hlen Hb Htop E
                 |st R size p st' _ (Hinv & tr & b & Ht & Hbase) E
                 |st R a k st' _ (Hinv & tr & b & Ht & Hbase) Hr E
                 |st R a k size p st' _ (Hinv & tr & b & Ht & Hbase) Hr Hs E].
  - destruct (buddy_init_ok Hsane st size b Hlen Hb Htop)
      as (st'' & E' & Hkm & Hnb & Hbase & Htr & _ & _ & _ & _ & Hok).
    rewrite E' in E. injection E as <-.
    split; [|exists (os_trace st), b; rewrite Hnb; auto].
    exists (init_lists (init_kval size) b). split; [exact Hok|].
    unfold arena_base. rewrite Hbase, Hkm, Hnb.
    split; [apply coalesced_init|].
    pose proof (init_kval_bounds Hsane size). use_sane Hsane.
    rewrite free_sum_init by lia. rewrite reserved_bytes_empty. lia.
  - destruct (malloc_step st R size p st' Hinv E) as (H1 & (_ & Hnb & Hb & Hos) & _).
    split; [exact H1|]. exists tr, b. rewrite Hnb, Hb, Hos. auto.
  - destruct (free_step st R a k st' Hinv Hr E) as (H1 & (_ & Hnb & Hb & Hos)).
    split; [exact H1|]. exists tr, b. rewrite Hnb, Hb, Hos. auto.
  - destruct (realloc_step st R a k size p st' Hinv Hr Hs E)
      as (H1 & (_ & Hnb & Hb & Hos)).
    split; [exact H1|]. exists tr, b. rewrite Hnb, Hb, Hos. auto.
Qed.

(** Every state the interface produces is well formed. *)
Lemma arena_reachable_ok st R :
  arena_reachable st R -> exists F, arena_ok st F R.
Proof.
  intros Hre. destruct (arena_reachable_inv st R Hre) as ((F & Hok & _) & _).
  eauto.
Qed.

(** Between calls, no block on a free list has its buddy on the same
    list. *)
Lemma arena_reachable_coalesced st R :
  arena_reachable st R ->
  exists F, arena_ok st F R /\
    coalesced (arena_base st) (kval_m (pool st)) F.
Proof.
  intros Hre.
  destruct (arena_reachable_inv st R Hre) as ((F & Hok & Hco & _) & _). eauto.
Qed.

(** The free bytes and the bytes handed out add up to the arena. *)
Lemma arena_reachable_bytes st R :
  arena_reachable st R ->
  free_bytes st + reserved_bytes R = numbytes (pool st).
Proof.
  intros Hre.
  destruct (arena_reachable_inv st R Hre) as ((F & Hok & _ & Hsum) & _).
  rewrite (free_bytes_ok _ _ _ _ Hok). exact Hsum.
Qed.


(** A history in which the sizes given to [buddy_realloc] fit 64 bits is
    one of the histories above. *)
Lemma arena_in_use_reachable st R : arena_in_use st R -> arena_reachable st R.
Proof.
  induction 1 as [st size b st' Hlen Hb Htop E
                 |st R size p st' _ IH E
                 |st R a k st' _ IH Hr E
                 |st R a k size p st' _ IH Hr Hs Hno E].
  - exact (reach_init st size b st' Hlen Hb Htop E).
  - exact (reach_malloc st R size p st' IH E).
  - exact (reach_free st R a k st' IH Hr E).
  - exact (reach_realloc st R a k size p st' IH Hr Hs E).
Qed.

End Histories.
(** ** Single calls: what they change and what they leave alone *)

(** The small arena and the states after it, as states the interface
    produces. *)
Lemma demo_arena_reachable : @arena_reachable lab_h demo_arena ∅.
Proof.
  apply (@reach_init lab_h blank_state 1 4096 demo_arena).
  - reflexivity.
  - lia.
  - vm_compute. discriminate.
  - exact demo_arena_eq.
Qed.

Lemma demo_alloc_reachable :
  @arena_reachable lab_h (snd demo_alloc) ({[(4096, 7)]} ∪ ∅).
Proof.
  apply (@reach_malloc lab_h demo_arena ∅ 100 (Mem 4120) (snd demo_alloc)
           demo_arena_reachable).
  exact demo_alloc_eq.
Qed.

Lemma demo_freed_eq :
  @buddy_free lab_h (snd demo_alloc) ThePool (Mem (4096 + 24)) = Some demo_freed.
Proof. vm_compute. reflexivity. Qed.

Lemma demo_freed_reachable :
  @arena_reachable lab_h demo_freed (({[(4096, 7)]} ∪ ∅) ∖ {[(4096, 7)]}).
Proof.
  apply (@reach_free lab_h (snd demo_alloc) _ 4096 7 demo_freed
           demo_alloc_reachable).
  - apply elem_of_union. left. apply elem_of_singleton. reflexivity.
  - exact demo_freed_eq.
Qed.

Section CallExtras.
Context {cfg : LabH}.

(** The loop that sets up the sentinels writes the sentinels only. *)
Lemma init_avail_frame n :
  forall st i st', init_avail n st i = Some st' -> same_frame st st'.
Proof.
  induction n as [|n IH]; intros st i st' E; simpl in E.
  - injection E as <-. apply same_frame_refl.
  - destruct (store st (Sentinel i) _) as [st1|] eqn:E1; [|discriminate].
    cbn [mbind option_bind] in E. apply store_spec in E1 as [_ Hfr].
    eapply same_frame_trans; [exact Hfr|]. eapply IH, E.
Qed.

(** Whatever mmap answers, [buddy_init] records the order and the size of
    the arena it asked for, calls mmap that once and munmap not at all. *)
Lemma buddy_init_frame st size r st' :
  buddy_init st size r = Some st' ->
  0 <= init_kval size < 64 /\
  kval_m (pool st') = init_kval size /\
  numbytes (pool st') = 2 ^ init_kval size /\
  os_trace st' = os_trace st ++ [Mmap (2 ^ init_kval size) r].
Proof.
  intros E. unfold buddy_init in E.
  destruct (shl1 (init_kval size)) as [nb|] eqn:Hnb; [|discriminate].
  apply shl1_Some in Hnb as [Hr ->]. cbn [mbind option_bind] in E.
  split; [exact Hr|].
  destruct r as [b|].
  - set (st0 := set_payload _ _) in E.
    destruct (init_avail (Z.to_nat MAX_K) st0 0) as [s1|] eqn:E1; [|discriminate].
    cbn [mbind option_bind] in E.
    destruct (set_tag s1 (Mem b) BLOCK_AVAIL) as [s2|] eqn:E2; [|discriminate].
    cbn [mbind option_bind] in E.
    destruct (set_kval s2 (Mem b) (init_kval size)) as [s3|] eqn:E3;
      [|discriminate].
    cbn [mbind option_bind] in E.
    destruct (set_next s3 (Mem b) (Sentinel (init_kval size))) as [s4|] eqn:E4;
      [|discriminate].
    cbn [mbind option_bind] in E.
    destruct (set_prev s4 (Mem b) (Sentinel (init_kval size))) as [s5|] eqn:E5;
      [|discriminate].
    cbn [mbind option_bind] in E.
    destruct (set_next s5 (Sentinel (init_kval size)) (Mem b)) as [s6|] eqn:E6;
      [|discriminate].
    cbn [mbind option_bind] in E.
    assert (Hfr : same_frame st0 st').
    { eapply same_frame_trans; [exact (init_avail_frame _ _ _ _ E1)|].
      eapply same_frame_trans; [exact (updates_frame _ _ _ _ (set_tag_spec _ _ _ _ E2))|].
      eapply same_frame_trans; [exact (updates_frame _ _ _ _ (set_kval_spec _ _ _ _ E3))|].
      eapply same_frame_trans; [exact (updates_frame _ _ _ _ (set_next_spec _ _ _ _ E4))|].
      eapply same_frame_trans; [exact (updates_frame _ _ _ _ (set_prev_spec _ _ _ _ E5))|].
      eapply same_frame_trans; [exact (updates_frame _ _ _ _ (set_next_spec _ _ _ _ E6))|].
      exact (updates_frame _ _ _ _ (set_prev_spec _ _ _ _ E)). }
    destruct Hfr as (-> & -> & _ & _ & _ & _ & ->). subst st0. simpl. auto.
  - injection E as <-. simpl. auto.
Qed.

(** X6. A call of [buddy_malloc] that returns NULL, on whatever state of
    the pool, has written nothing but [errno]: the state is the one before
    the call, or that state with [errno = ENOMEM]; and with a null pool or
    a request of zero bytes not even [errno] is set. *)
Theorem buddy_malloc_null_writes_errno_only (st : state) (pool_p : pool_ptr)
    (size : Z) (st' : state) :
  buddy_malloc st pool_p size = Some (NULL, st') ->
  (st' = st \/ st' = set_errno ENOMEM st) /\
  (pool_p = NullPool \/ size = 0 -> st' = st).
Proof.
  intros E. unfold buddy_malloc in E.
  destruct pool_p; [split; [left|intros _]; congruence|].
  destruct (Z.eqb_spec size 0) as [Hz|Hz];
    [split; [left|intros _]; congruence|].
  destruct (kval_m (pool st) <? btok size).
  { injection E as <-. split; [right; reflexivity|].
    intros [Hp|Hs]; [discriminate|contradiction]. }
  destruct (find_avail _ st (btok size)) as [i|]; [|discriminate].
  cbn [mbind option_bind] in E.
  destruct (kval_m (pool st) <? i).
  { injection E as <-. split; [right; reflexivity|].
    intros [Hp|Hs]; [discriminate|contradiction]. }
  exfalso.
  destruct (load st (Sentinel i)) as [s|]; [|discriminate].
  cbn [mbind option_bind] in E.
  destruct (unlink st (next s)) as [st1|]; [|discriminate].
  cbn [mbind option_bind] in E.
  destruct (split _ st1 (next s) i) as [st2|]; [|discriminate].
  cbn [mbind option_bind] in E.
  destruct (set_tag st2 (next s) BLOCK_RESERVED) as [st3|]; [|discriminate].
  cbn [mbind option_bind] in E.
  destruct (set_kval st3 (next s) (btok size)) as [st4|]; [|discriminate].
  cbn [mbind option_bind] in E.
  destruct (next s); simpl in E; discriminate.
Qed.

Hypothesis Hsane : lab_h_sane.

(** A header that shares a byte with a block handed out does not lie
    within a free block. *)
Lemma reserved_not_in_free_block st F R a k y :
  arena_ok st F R -> (a, k) ∈ R -> touches y a k -> ~ in_free_block F y.
Proof.
  intros Hok Hr [Hlo Hhi] (a0 & k0 & Hk0 & Ha0 & Hlo0 & Hhi0).
  use_sane Hsane.
  destruct (tiles_disj _ _ _ (inv_tiles _ _ _ _ Hok) a0 k0 a k) as [-> ->].
  - apply live_free; assumption.
  - apply live_reserved; assumption.
  - unfold overlap. lia.
  - eapply (inv_reserved_not_free Hsane _ _ _ _ Hok a k k); eassumption.
Qed.

(** Loads see the pool and the headers only. *)
Lemma load_set_errno e st q : load (set_errno e st) q = load st q.
Proof. reflexivity. Qed.

(** X7. [buddy_malloc] leaves the blocks handed out alone.  Blocks start
    at multiples of [2^SMALLEST_K] from the base, and these are the
    addresses where headers are read.  After a call on a well-formed
    arena, whatever it returns: the header read at such an address is the
    one read before the call unless the address lies within a block that
    was on a free list; so within every block reserved before the call,
    the header read at its start, or at any such address inside it, is
    unchanged. *)
Theorem buddy_malloc_spares_reserved_blocks (st : state) (F : Z -> list Z)
    (R : gset (Z * Z)) (size : Z) (p : ptr) (st' : state) :
  arena_ok st F R ->
  buddy_malloc st ThePool size = Some (p, st') ->
  (forall y, aligned (arena_base st) y SMALLEST_K -> ~ in_free_block F y ->
     load st' (Mem y) = load st (Mem y)) /\
  (forall a k y, (a, k) ∈ R ->
     aligned (arena_base st) y SMALLEST_K -> a <= y < a + 2 ^ k ->
     load st' (Mem y) = load st (Mem y)).
Proof.
  intros Hok E. use_sane Hsane.
  assert (Hld : forall y, ~ in_free_block F y ->
                  load st' (Mem y) = load st (Mem y)).
  { destruct (decide (size = 0)) as [->|Hz].
    { unfold buddy_malloc in E. simpl in E. injection E as <- <-. auto. }
    destruct (buddy_malloc_lists Hsane st F R size Hok Hz)
      as [[_ E']|(i & a & l & st'' & _ & _ & _ & E' & _ & _ & _ & Hld)];
      rewrite E' in E; injection E as <- <-.
    - intros; apply load_set_errno.
    - exact Hld. }
  split; [intros y _; apply Hld|].
  intros a k y Hr _ Hy. apply Hld.
  apply (reserved_not_in_free_block st F R a k y Hok Hr).
  unfold touches. lia.
Qed.

(** X8. [buddy_free] leaves the other blocks handed out alone.  Blocks
    start at multiples of [2^SMALLEST_K] from the base, and these are the
    addresses where headers are read.  After freeing a reserved block on a
    well-formed arena: the header read at such an address is the one read
    before the call unless the address lies within a block that was on a
    free list or is the start of the freed block; so within every other
    reserved block, the header read at its start, or at any such address
    inside it, is unchanged. *)
Theorem buddy_free_spares_reserved_blocks (st : state) (F : Z -> list Z)
    (R : gset (Z * Z)) (a k : Z) (st' : state) :
  arena_ok st F R -> (a, k) ∈ R ->
  buddy_free st ThePool (Mem (a + sizeof_avail)) = Some st' ->
  (forall y, aligned (arena_base st) y SMALLEST_K ->
     y <> a -> ~ in_free_block F y ->
     load st' (Mem y) = load st (Mem y)) /\
  (forall a0 k0 y, (a0, k0) ∈ R -> (a0, k0) <> (a, k) ->
     aligned (arena_base st) y SMALLEST_K -> a0 <= y < a0 + 2 ^ k0 ->
     load st' (Mem y) = load st (Mem y)).
Proof.
  intros Hok Hr E. use_sane Hsane.
  destruct (buddy_free_lists Hsane st F R a k Hok Hr)
    as (st'' & F' & a' & k' & E' & _ & _ & _ & _ & _ & _ & _ & Hld).
  rewrite E' in E. injection E as <-.
  split; [intros y _; apply Hld|].
  intros a0 k0 y Hr0 Hne _ Hy.
  assert (Ht : touches y a0 k0) by (unfold touches; lia).
  apply Hld.
  - intros ->.
    eapply (reserved_start_apart Hsane st F R a k a0 k0); eassumption.
  - eapply reserved_not_in_free_block; eassumption.
Qed.

(** X9. Where [buddy_malloc] takes the block from.  On a well-formed
    arena, when [i] is the least order from [btok size] up whose free list
    is not empty and [a] is the first block of that list: the call returns
    the address just past the header at [a]; the block leaves the list of
    order [i]; for every order [j] from [btok size] up to [i - 1] the
    upper half [a + 2^j] is put in front of the list of order [j]; and no
    other list changes. *)
Theorem buddy_malloc_takes_first_fit (st : state) (F : Z -> list Z)
    (R : gset (Z * Z)) (size i a : Z) (l : list Z) :
  arena_ok st F R -> size <> 0 ->
  btok size <= i <= kval_m (pool st) ->
  (forall j, btok size <= j < i -> F j = []) ->
  F i = a :: l ->
  exists st',
    buddy_malloc st ThePool size = Some (Mem (a + sizeof_avail), st') /\
    arena_ok st' (split_lists (<[i := l]> F) a (btok size) i)
      ({[(a, btok size)]} ∪ R).
Proof.
  intros Hok Hz Hi Hemp HF.
  destruct (buddy_malloc_lists Hsane st F R size Hok Hz)
    as [[Hnone _]|(i' & a' & l' & st' & Hi' & Hemp' & HF' & E & _ & Hok' & _)].
  { rewrite (Hnone i Hi) in HF. discriminate. }
  assert (i' = i).
  { destruct (Z.lt_trichotomy i' i) as [Hlt|[Heq|Hgt]]; [|exact Heq|].
    - rewrite (Hemp i') in HF' by lia. discriminate.
    - rewrite (Hemp' i) in HF by lia. discriminate. }
  subst i'. rewrite HF in HF'. injection HF' as <- <-.
  exists st'. split; assumption.
Qed.

(** X10. A pool serves the size it was set up for.  After
    [buddy_init(pool, size)] with [size > 0], when [size] and a header fit
    the largest order, the arena has room for [size] bytes and a header,
    and [buddy_malloc(pool, size)] succeeds: it returns the address just
    past the header at the base of the mapping. *)
Theorem buddy_init_serves_its_size (st : state) (size b : Z) :
  Z.of_nat (length (avail_ (pool st))) = MAX_K ->
  0 < b -> b + 2 ^ init_kval size <= 2 ^ 64 ->
  0 < size -> size + sizeof_avail <= 2 ^ (MAX_K - 1) ->
  exists st1 st2,
    buddy_init st size (Some b) = Some st1 /\
    size + sizeof_avail <= numbytes (pool st1) /\
    buddy_malloc st1 ThePool size = Some (Mem (b + sizeof_avail), st2).
Proof.
  intros Hlen Hb Htop Hs Hfit. use_sane Hsane.
  destruct (buddy_init_ok Hsane st size b Hlen Hb Htop)
    as (st1 & E1 & Hkm & Hnb & _ & _ & _ & _ & _ & _ & Hok).
  assert (Hbt : SMALLEST_K <= btok size <= MAX_K - 1)
    by (apply btok_bounds; lia).
  assert (Hge : btok size <= init_kval size).
  { unfold init_kval. destruct (Z.eqb_spec size 0); [lia|].
    destruct (Z.ltb_spec (btok size) MIN_K);
      [destruct (Z.leb_spec MAX_K MIN_K)
      |destruct (Z.leb_spec MAX_K (btok size))]; lia. }
  assert (Hholds : size + sizeof_avail <= 2 ^ btok size)
    by (apply btok_holds; lia).
  assert (Hmono : 2 ^ btok size <= 2 ^ init_kval size)
    by (apply pow2_le_mono; lia).
  destruct (buddy_malloc_lists Hsane st1 _ ∅ size Hok ltac:(lia))
    as [[Hnone _]|(i & a & l & st2 & Hi & _ & HF & E2 & _)].
  { specialize (Hnone (init_kval size)). rewrite Hkm in Hnone.
    unfold init_lists in Hnone. rewrite decide_True in Hnone by reflexivity.
    specialize (Hnone ltac:(lia)). discriminate. }
  exists st1, st2. split; [exact E1|]. split; [lia|].
  unfold init_lists in HF.
  destruct (decide (i = init_kval size)); [|discriminate].
  injection HF as <- <-. exact E2.
Qed.

(** X11. The size given to [buddy_init] counts the header of the first
    block: asking for exactly [2^k] bytes, with [k] from [MIN_K] up and
    [k + 1] an order, sets [kval_m] to [k + 1], so that twice the size
    asked for is mapped. *)
Theorem buddy_init_power_of_two_doubles (st : state) (k : Z)
    (mmap_res : option Z) (st' : state) :
  MIN_K <= k -> k + 1 <= MAX_K - 1 ->
  buddy_init st (2 ^ k) mmap_res = Some st' ->
  kval_m (pool st') = k + 1 /\ numbytes (pool st') = 2 * 2 ^ k.
Proof.
  intros Hk Hk1 E. use_sane Hsane.
  pose proof (pow2_pos k ltac:(lia)) as Hpos.
  assert (Hh : sizeof_avail <= 2 ^ k).
  { etransitivity; [apply (sane_header Hsane)|]. apply pow2_le_mono. lia. }
  assert (Hbt : btok (2 ^ k) = k + 1).
  { assert (H63 : 2 ^ (k + 1) <= 2 ^ 63) by (apply pow2_le_mono; lia).
    pose proof (pow2_succ k ltac:(lia)) as Hs.
    rewrite btok_nonzero by lia. cbv zeta.
    rewrite (wrap_small (2 ^ k + sizeof_avail)) by lia.
    rewrite wrap_small by lia.
    assert (Hlog : Z.log2 (2 ^ k + sizeof_avail - 1) = k)
      by (apply Z.log2_unique; lia).
    rewrite Hlog.
    destruct (Z.ltb_spec (k + 1) SMALLEST_K);
      [lia|destruct (Z.leb_spec MAX_K (k + 1)); lia]. }
  assert (Hkv : init_kval (2 ^ k) = k + 1).
  { unfold init_kval. destruct (Z.eqb_spec (2 ^ k) 0); [lia|].
    rewrite Hbt.
    destruct (Z.ltb_spec (k + 1) MIN_K);
      [lia|destruct (Z.leb_spec MAX_K (k + 1)); lia]. }
  destruct (buddy_init_frame st (2 ^ k) mmap_res st' E) as (_ & Hm & Hn & _).
  rewrite Hm, Hn, Hkv. split; [reflexivity|]. apply pow2_succ. lia.
Qed.

(** X12. The mapping [buddy_init] asks for.  Whatever the state of the
    pool object, and whether mmap succeeds or not, [buddy_init] calls mmap
    once, for [2^kval_m] bytes, and does not call munmap: a mapping the
    pool already had is not released.  The order [kval_m] is [DEFAULT_K]
    for size zero; otherwise it is the order [btok] computes for the size,
    raised to [MIN_K] when it is below. *)
Theorem buddy_init_maps_once (st : state) (size : Z) (mmap_res : option Z)
    (st' : state) :
  buddy_init st size mmap_res = Some st' ->
  os_trace st' = os_trace st ++ [Mmap (numbytes (pool st')) mmap_res] /\
  numbytes (pool st') = 2 ^ kval_m (pool st') /\
  (size = 0 -> kval_m (pool st') = DEFAULT_K) /\
  (size <> 0 -> kval_m (pool st') = Z.max MIN_K (btok size) /\
                MIN_K <= kval_m (pool st') <= MAX_K - 1).
Proof.
  intros E. use_sane Hsane.
  destruct (buddy_init_frame st size mmap_res st' E) as (_ & Hm & Hn & Ht).
  rewrite Hm, Hn. split; [exact Ht|]. split; [reflexivity|].
  unfold init_kval. split.
  - intros ->. reflexivity.
  - intros Hz. destruct (Z.eqb_spec size 0); [contradiction|].
    assert (SMALLEST_K <= btok size <= MAX_K - 1)
      by (apply btok_bounds; [assumption|lia]).
    destruct (Z.ltb_spec (btok size) MIN_K);
      [destruct (Z.leb_spec MAX_K MIN_K)
      |destruct (Z.leb_spec MAX_K (btok size))]; lia.
Qed.

(** Freeing a block whose buddy is not on the free list of its order (or
    that is the whole arena) merges nothing: the block goes in front of
    the list of its own order. *)
Lemma buddy_free_no_merge st F R a k :
  arena_ok st F R -> (a, k) ∈ R ->
  k = kval_m (pool st) \/ buddy_of (arena_base st) a k ∉ F k ->
  exists st',
    buddy_free st ThePool (Mem (a + sizeof_avail)) = Some st' /\
    same_frame st st' /\
    arena_ok st' (<[k := a :: F k]> F) (R ∖ {[(a, k)]}).
Proof.
  intros Hinv Hr Hstop. use_sane Hsane.
  pose proof (live_reserved F R None a k Hr) as Hlive.
  pose proof (inv_live_order Hsane _ _ _ _ Hinv a k Hlive) as Hk.
  pose proof (inv_reserved _ _ _ _ Hinv a k Hr) as Hmeta.
  destruct (meta_load _ _ _ _ Hmeta) as (h & Hh & _ & Hhk).
  unfold buddy_free. cbn [avail_pred mbind option_bind].
  replace (a + sizeof_avail - sizeof_avail) with a by lia.
  rewrite Hh. cbn [mbind option_bind]. rewrite Hhk.
  destruct (inv_unreserve Hsane st F R a k Hinv Hr)
    as (st1 & E1 & Hfr1 & Hinv1 & Hma1).
  rewrite E1. cbn [mbind option_bind].
  pose proof Hfr1 as (Hkm1 & _).
  pose proof (arena_base_frame _ _ Hfr1) as Hbase1.
  assert (E2 : coalesce (Z.to_nat (kval_m (pool st1) - k)) st1 (Mem a) k =
               Some (st1, Mem a, k)).
  { destruct (Z.to_nat (kval_m (pool st1) - k)) as [|n] eqn:Hn; [reflexivity|].
    cbn [coalesce].
    destruct (inv_merge_step Hsane st1 F _ a k Hinv1 Hma1 ltac:(lia))
      as [E|(st2 & l1 & l2 & a1 & HF & _)].
    - rewrite E. reflexivity.
    - exfalso. destruct Hstop as [->|Hnot]; [lia|].
      apply Hnot. rewrite <- Hbase1, HF. apply elem_of_app. right. left. }
  rewrite E2. cbn [mbind option_bind].
  destruct (inv_release Hsane st1 F _ a k Hinv1 Hma1) as (st3 & E3 & Hfr3 & Hinv3).
  exists st3. split; [exact E3|].
  split; [eapply same_frame_trans; eassumption|exact Hinv3].
Qed.

(** X13. A freed block that cannot merge is the next one handed out for
    its order.  On a well-formed arena, when the buddy of a reserved block
    of order [k] is not on the free list of order [k] (or the block is the
    whole arena), [buddy_free] puts the block in front of the list of order
    [k], and a call of [buddy_malloc] right after it, for a size of that
    order, returns the pointer just freed. *)
Theorem buddy_free_then_malloc_reuses_block (st : state) (F : Z -> list Z)
    (R : gset (Z * Z)) (a k size : Z) :
  arena_ok st F R -> (a, k) ∈ R ->
  size <> 0 -> btok size = k ->
  k = kval_m (pool st) \/ buddy_of (arena_base st) a k ∉ F k ->
  exists st1 st2,
    buddy_free st ThePool (Mem (a + sizeof_avail)) = Some st1 /\
    free_list st1 k (a :: F k) /\
    buddy_malloc st1 ThePool size = Some (Mem (a + sizeof_avail), st2).
Proof.
  intros Hok Hr Hz Hbt Hstop.
  destruct (buddy_free_no_merge st F R a k Hok Hr Hstop)
    as (st1 & E1 & Hfr1 & Hok1).
  pose proof (inv_kval_m _ _ _ _ Hok) as Hm.
  pose proof (inv_live_order Hsane _ _ _ _ Hok a k (live_reserved F R None a k Hr))
    as Hk.
  use_sane Hsane.
  assert (Hkr : 0 <= k < MAX_K) by lia.
  pose proof (inv_lists _ _ _ _ Hok1 k Hkr) as Hl.
  rewrite fn_lookup_insert in Hl.
  destruct (buddy_malloc_lists Hsane st1 _ _ size Hok1 Hz)
    as [[Hnone _]|(i & a' & l & st2 & Hi & Hemp & HF & E2 & _)].
  { specialize (Hnone k). rewrite fn_lookup_insert in Hnone.
    destruct Hfr1 as (Hkm1 & _). rewrite Hkm1 in Hnone.
    specialize (Hnone ltac:(lia)). discriminate. }
  assert (i = k).
  { destruct (decide (i = k)) as [|Hne]; [assumption|].
    specialize (Hemp k ltac:(lia)). rewrite fn_lookup_insert in Hemp.
    discriminate. }
  subst i. rewrite fn_lookup_insert in HF. injection HF as <- <-.
  exists st1, st2. split; [exact E1|]. split; [exact Hl|exact E2].
Qed.

(** X14. How much an empty arena can serve.  On a well-formed arena that
    is free as a whole, with a top order below [MAX_K - 1], a request of
    [size > 0] bytes (the size and a header within 64 bits) is served if
    and only if the size and a header fit the arena. *)
Theorem buddy_malloc_serves_up_to_capacity (st : state) (F : Z -> list Z)
    (R : gset (Z * Z)) (size : Z) :
  arena_ok st F R ->
  F (kval_m (pool st)) <> [] -> kval_m (pool st) < MAX_K - 1 ->
  0 < size -> size + sizeof_avail <= 2 ^ 64 ->
  size + sizeof_avail <= numbytes (pool st) <->
  exists a st', buddy_malloc st ThePool size = Some (Mem (a + sizeof_avail), st').
Proof.
  intros Hok Htop Hkm Hs Hno. use_sane Hsane.
  pose proof (inv_kval_m _ _ _ _ Hok) as Hm.
  rewrite (inv_numbytes _ _ _ _ Hok).
  assert (Hmin : SMALLEST_K <= kval_m (pool st)).
  { destruct (F (kval_m (pool st))) as [|x l] eqn:HF; [contradiction|].
    apply (inv_live_order Hsane _ _ _ _ Hok x (kval_m (pool st))).
    apply live_free; [lia|]. rewrite HF. left. }
  split.
  - intros Hfit.
    assert (Hle : 2 ^ kval_m (pool st) <= 2 ^ (MAX_K - 1))
      by (apply pow2_le_mono; lia).
    destruct (btok_least_order_aux Hsane size) as [_ Hleast]; [lia..|].
    assert (Hbt : btok size <= kval_m (pool st)).
    { destruct (decide (SMALLEST_K < btok size)) as [Hgt|]; [|lia].
      specialize (Hleast Hgt).
      destruct (Z_lt_le_dec (kval_m (pool st)) (btok size)) as [Hbig|]; [|lia].
      assert (2 ^ kval_m (pool st) <= 2 ^ (btok size - 1))
        by (apply pow2_le_mono; lia).
      lia. }
    destruct (buddy_malloc_ok Hsane st F R size Hok ltac:(lia))
      as [[Hnone _]|(_ & _ & a & st' & F' & E & _)].
    + exfalso. apply Htop. apply Hnone. lia.
    + exists a, st'. exact E.
  - intros (a & st' & E).
    destruct (Z_lt_le_dec (2 ^ kval_m (pool st)) (size + sizeof_avail))
      as [Hbig|]; [exfalso|assumption].
    assert (Hex : kval_m (pool st) < btok size) by (apply btok_exceeds; lia).
    rewrite (buddy_malloc_order_too_large st size) in E by lia.
    discriminate.
Qed.

(** [buddy_destroy] leaves the sentinels as they are. *)
Lemma load_sentinel_destroy st i :
  load (buddy_destroy st ThePool) (Sentinel i) = load st (Sentinel i).
Proof.
  unfold buddy_destroy, load. destruct (base (pool st)); reflexivity.
Qed.

Lemma find_avail_destroy n :
  forall st i, find_avail n (buddy_destroy st ThePool) i = find_avail n st i.
Proof.
  induction n as [|n IH]; intros st i; [reflexivity|].
  cbn [find_avail]. rewrite load_sentinel_destroy.
  destruct (load st (Sentinel i)) as [s|]; [|reflexivity].
  cbn [mbind option_bind]. rewrite IH. reflexivity.
Qed.

(** After [buddy_destroy] nothing of the arena can be read. *)
Lemma load_mem_destroy st a :
  base (pool st) <> NULL -> load (buddy_destroy st ThePool) (Mem a) = None.
Proof.
  intros Hb. unfold buddy_destroy, load, in_arena.
  destruct (base (pool st)); [contradiction|reflexivity..].
Qed.

(** X15. Use after [buddy_destroy].  [buddy_destroy] unmaps the arena but
    leaves the free lists pointing into it.  So, on a pool that was well
    formed: a later [buddy_free] on a block of the arena reads unmapped
    memory; a later [buddy_malloc] does so too whenever a free list of an
    order it looks at was not empty, and only returns NULL with [ENOMEM]
    when all of them were empty. *)
Theorem calls_after_buddy_destroy (st : state) (F : Z -> list Z)
    (R : gset (Z * Z)) (size : Z) :
  arena_ok st F R -> size <> 0 ->
  (forall a, buddy_free (buddy_destroy st ThePool) ThePool
               (Mem (a + sizeof_avail)) = None) /\
  ((exists i, btok size <= i <= kval_m (pool st) /\ F i <> []) ->
   buddy_malloc (buddy_destroy st ThePool) ThePool size = None) /\
  ((forall i, btok size <= i <= kval_m (pool st) -> F i = []) ->
   buddy_malloc (buddy_destroy st ThePool) ThePool size =
     Some (NULL, set_errno ENOMEM (buddy_destroy st ThePool))).
Proof.
  intros Hok Hz. use_sane Hsane.
  destruct (inv_base _ _ _ _ Hok) as (Hb & _).
  assert (Hbn : base (pool st) <> NULL) by (rewrite Hb; discriminate).
  assert (Hkm : kval_m (pool (buddy_destroy st ThePool)) = kval_m (pool st)).
  { unfold buddy_destroy. destruct (base (pool st)); reflexivity. }
  assert (Hk : SMALLEST_K <= btok size <= MAX_K - 1)
    by (apply btok_bounds; [assumption|lia]).
  pose proof (inv_kval_m _ _ _ _ Hok) as Hm.
  split.
  { intros a. unfold buddy_free. cbn [avail_pred mbind option_bind].
    rewrite load_mem_destroy by exact Hbn. reflexivity. }
  assert (Hhead : buddy_malloc (buddy_destroy st ThePool) ThePool size =
    if kval_m (pool st) <? btok size
    then Some (NULL, set_errno ENOMEM (buddy_destroy st ThePool))
    else
      i ← find_avail (Z.to_nat (kval_m (pool st) + 1 - btok size)) st
            (btok size);
      if kval_m (pool st) <? i
      then Some (NULL, set_errno ENOMEM (buddy_destroy st ThePool))
      else
        s ← load st (Sentinel i);
        st1 ← unlink (buddy_destroy st ThePool) (next s);
        st2 ← split (Z.to_nat (i - btok size)) st1 (next s) i;
        st3 ← set_tag st2 (next s) BLOCK_RESERVED;
        st4 ← set_kval st3 (next s) (btok size);
        p ← avail_succ (next s);
        Some (p, st4)).
  { unfold buddy_malloc. destruct (Z.eqb_spec size 0); [contradiction|].
    rewrite Hkm, find_avail_destroy.
    destruct (kval_m (pool st) <? btok size); [reflexivity|].
    destruct (find_avail _ st (btok size)) as [i|]; [|reflexivity].
    cbn [mbind option_bind]. rewrite load_sentinel_destroy. reflexivity. }
  rewrite Hhead.
  destruct (Z.ltb_spec (kval_m (pool st)) (btok size)) as [Hbig|Hfit].
  { split; [intros (i & Hi & _); lia|reflexivity]. }
  destruct (find_avail_ok st F R None
              (Z.to_nat (kval_m (pool st) + 1 - btok size)) Hok (btok size))
    as (j & Ej & Hj & Hemp & Hne); [lia..|].
  rewrite Ej. cbn [mbind option_bind].
  destruct (Z.ltb_spec (kval_m (pool st)) j) as [Hnone|Hsome].
  { split; [|reflexivity].
    intros (i & Hi & HF). exfalso. apply HF, Hemp. lia. }
  specialize (Hne ltac:(lia)).
  split; [intros _|intros Hall; exfalso; apply Hne, Hall; lia].
  destruct (F j) as [|x l] eqn:HF; [contradiction|].
  assert (Hjr : 0 <= j < MAX_K) by lia.
  pose proof (inv_sentinel_next _ _ _ _ Hok j Hjr) as Hnx.
  rewrite HF in Hnx. cbn [head_ptr] in Hnx.
  destruct (load st (Sentinel j)) as [s|] eqn:Hs;
    [|unfold nextp in Hnx; rewrite Hs in Hnx; discriminate].
  unfold nextp in Hnx. rewrite Hs in Hnx. cbn in Hnx. injection Hnx as Hnx.
  cbn [mbind option_bind]. rewrite Hnx.
  unfold unlink. rewrite load_mem_destroy by exact Hbn. reflexivity.
Qed.

End CallExtras.

Lemma demo_alloc2_eq :
  @buddy_malloc lab_h (snd demo_alloc) ThePool 100 = Some demo_alloc2.
Proof. vm_compute. reflexivity. Qed.

Lemma demo_alloc2_reachable :
  @arena_reachable lab_h (snd demo_alloc2)
    ({[(4224, 7)]} ∪ ({[(4096, 7)]} ∪ ∅)).
Proof.
  apply (@reach_malloc lab_h (snd demo_alloc) _ 100 (Mem 4248)
           (snd demo_alloc2) demo_alloc_reachable).
  exact demo_alloc2_eq.
Qed.

Lemma buddy_malloc_null_writes_errno_only_witness :
  (set_errno ENOMEM demo_arena = demo_arena \/
   set_errno ENOMEM demo_arena = set_errno ENOMEM demo_arena) /\
  (ThePool = NullPool \/ 2 ^ 20 = 0 -> set_errno ENOMEM demo_arena = demo_arena).
Proof.
  apply (@buddy_malloc_null_writes_errno_only lab_h demo_arena ThePool (2 ^ 20)
           (set_errno ENOMEM demo_arena)).
  vm_compute. reflexivity.
Defined.

Lemma buddy_malloc_spares_reserved_blocks_witness :
  @load lab_h (snd demo_alloc2) (Mem 4096) =
    @load lab_h (snd demo_alloc) (Mem 4096) /\
  @load lab_h (snd demo_alloc2) (Mem 4160) =
    @load lab_h (snd demo_alloc) (Mem 4160).
Proof.
  destruct (arena_reachable_ok lab_h_is_sane _ _ demo_alloc_reachable) as [F Hok].
  destruct (@buddy_malloc_spares_reserved_blocks lab_h lab_h_is_sane
              (snd demo_alloc) F _ 100 (fst demo_alloc2) (snd demo_alloc2) Hok
              demo_alloc2_eq) as [_ Hres].
  assert (Hr : (4096, 7) ∈ ({[(4096, 7)]} ∪ ∅ : gset (Z * Z))).
  { apply elem_of_union. left. apply elem_of_singleton. reflexivity. }
  split; apply (Hres 4096 7 _ Hr); try (vm_compute; reflexivity); lia.
Defined.

Lemma buddy_free_spares_reserved_blocks_witness :
  exists st',
    @buddy_free lab_h (snd demo_alloc2) ThePool (Mem (4096 + 24)) = Some st' /\
    @load lab_h st' (Mem 4224) = @load lab_h (snd demo_alloc2) (Mem 4224) /\
    @load lab_h st' (Mem 4288) = @load lab_h (snd demo_alloc2) (Mem 4288).
Proof.
  destruct (arena_reachable_ok lab_h_is_sane _ _ demo_alloc2_reachable)
    as [F Hok].
  assert (Hr : (4096, 7) ∈
            ({[(4224, 7)]} ∪ ({[(4096, 7)]} ∪ ∅) : gset (Z * Z))).
  { apply elem_of_union. right. apply elem_of_union. left.
    apply elem_of_singleton. reflexivity. }
  assert (Hr0 : (4224, 7) ∈
            ({[(4224, 7)]} ∪ ({[(4096, 7)]} ∪ ∅) : gset (Z * Z))).
  { apply elem_of_union. left. apply elem_of_singleton. reflexivity. }
  destruct (@buddy_free lab_h (snd demo_alloc2) ThePool (Mem (4096 + 24)))
    as [st'|] eqn:E.
  - exists st'. split; [reflexivity|].
    destruct (@buddy_free_spares_reserved_blocks lab_h lab_h_is_sane
                (snd demo_alloc2) F _ 4096 7 st' Hok Hr E) as [_ Hres].
    split; apply (Hres 4224 7 _ Hr0); try (vm_compute; reflexivity);
      try congruence; lia.
  - exfalso. revert E. vm_compute. discriminate.
Defined.

Lemma buddy_malloc_takes_first_fit_witness :
  exists st',
    @buddy_malloc lab_h demo_arena ThePool 100 = Some (Mem (4096 + 24), st') /\
    @arena_ok lab_h st'
      (split_lists (<[20 := []]> (init_lists 20 4096)) 4096 (@btok lab_h 100) 20)
      ({[(4096, @btok lab_h 100)]} ∪ ∅).
Proof.
  apply (@buddy_malloc_takes_first_fit lab_h lab_h_is_sane demo_arena
           (init_lists 20 4096) ∅ 100 20 4096 [] demo_arena_ok).
  - lia.
  - vm_compute. split; discriminate.
  - intros j Hj. unfold init_lists. apply decide_False.
    change (@btok lab_h 100) with 7 in Hj. lia.
  - reflexivity.
Defined.

Lemma buddy_init_serves_its_size_witness :
  exists st1 st2,
    @buddy_init lab_h blank_state 1 (Some 4096) = Some st1 /\
    1 + @sizeof_avail lab_h <= numbytes (pool st1) /\
    @buddy_malloc lab_h st1 ThePool 1 =
      Some (Mem (4096 + @sizeof_avail lab_h), st2).
Proof.
  apply (@buddy_init_serves_its_size lab_h lab_h_is_sane blank_state 1 4096).
  - reflexivity.
  - lia.
  - vm_compute. discriminate.
  - lia.
  - vm_compute. discriminate.
Defined.

Lemma buddy_init_power_of_two_doubles_witness :
  kval_m (pool (default blank_state
                  (@buddy_init lab_h blank_state (2 ^ 20) (Some 4096)))) =
    20 + 1 /\
  numbytes (pool (default blank_state
                    (@buddy_init lab_h blank_state (2 ^ 20) (Some 4096)))) =
    2 * 2 ^ 20.
Proof.
  apply (@buddy_init_power_of_two_doubles lab_h lab_h_is_sane blank_state 20
           (Some 4096)).
  - vm_compute. discriminate.
  - vm_compute. discriminate.
  - vm_compute. reflexivity.
Defined.

Lemma buddy_init_maps_once_witness :
  exists st',
    @buddy_init lab_h demo_arena 1 (Some 2097152) = Some st' /\
    os_trace st' =
      os_trace demo_arena ++ [Mmap (numbytes (pool st')) (Some 2097152)] /\
    numbytes (pool st') = 2 ^ kval_m (pool st') /\
    (1 = 0 -> kval_m (pool st') = @DEFAULT_K lab_h) /\
    (1 <> 0 -> kval_m (pool st') = Z.max (@MIN_K lab_h) (@btok lab_h 1) /\
               @MIN_K lab_h <= kval_m (pool st') <= @MAX_K lab_h - 1).
Proof.
  destruct (@buddy_init lab_h demo_arena 1 (Some 2097152)) as [st'|] eqn:E.
  - exists st'. split; [reflexivity|].
    apply (@buddy_init_maps_once lab_h lab_h_is_sane demo_arena 1
             (Some 2097152) st' E).
  - exfalso. revert E. vm_compute. discriminate.
Defined.

Lemma buddy_free_then_malloc_reuses_block_witness :
  exists F st1 st2,
    @buddy_free lab_h (snd demo_alloc2) ThePool (Mem (4224 + 24)) = Some st1 /\
    @free_list lab_h st1 7 (4224 :: F 7) /\
    @buddy_malloc lab_h st1 ThePool 100 = Some (Mem (4224 + 24), st2).
Proof.
  destruct (arena_reachable_ok lab_h_is_sane _ _ demo_alloc2_reachable)
    as [F Hok].
  exists F.
  apply (@buddy_free_then_malloc_reuses_block lab_h lab_h_is_sane
           (snd demo_alloc2) F _ 4224 7 100 Hok).
  - apply elem_of_union. left. apply elem_of_singleton. reflexivity.
  - lia.
  - reflexivity.
  - right. change (buddy_of (@arena_base (snd demo_alloc2)) 4224 7) with 4096.
    intros Hin.
    apply (inv_reserved_not_free lab_h_is_sane _ _ _ _ Hok 4096 7 7);
      [|vm_compute; split; [discriminate|reflexivity]|exact Hin].
    apply elem_of_union. right. apply elem_of_union. left.
    apply elem_of_singleton. reflexivity.
Defined.

Lemma buddy_malloc_serves_up_to_capacity_witness :
  2 ^ 20 - 24 + @sizeof_avail lab_h <= numbytes (pool demo_arena) <->
  exists a st',
    @buddy_malloc lab_h demo_arena ThePool (2 ^ 20 - 24) =
      Some (Mem (a + @sizeof_avail lab_h), st').
Proof.
  apply (@buddy_malloc_serves_up_to_capacity lab_h lab_h_is_sane demo_arena
           (init_lists 20 4096) ∅ (2 ^ 20 - 24) demo_arena_ok).
  - discriminate.
  - vm_compute. reflexivity.
  - lia.
  - vm_compute. discriminate.
Defined.

Lemma calls_after_buddy_destroy_witness :
  (forall a, @buddy_free lab_h (buddy_destroy demo_arena ThePool) ThePool
               (Mem (a + @sizeof_avail lab_h)) = None) /\
  ((exists i, @btok lab_h 100 <= i <= kval_m (pool demo_arena) /\
              init_lists 20 4096 i <> []) ->
   @buddy_malloc lab_h (buddy_destroy demo_arena ThePool) ThePool 100 = None) /\
  ((forall i, @btok lab_h 100 <= i <= kval_m (pool demo_arena) ->
              init_lists 20 4096 i = []) ->
   @buddy_malloc lab_h (buddy_destroy demo_arena ThePool) ThePool 100 =
     Some (NULL, set_errno ENOMEM (buddy_destroy demo_arena ThePool))).
Proof.
  apply (@calls_after_buddy_destroy lab_h lab_h_is_sane demo_arena
           (init_lists 20 4096) ∅ 100 demo_arena_ok).
  lia.
Defined.
(** ** Sequences of calls *)

Section HistoryExtras.
Context {cfg : LabH}.
Hypothesis Hsane : lab_h_sane.

(** X16. Freeing everything gives the arena back whole.  In a state
    reached from a successful [buddy_init] by calls of [buddy_malloc], and
    by calls of [buddy_free] and [buddy_realloc] on blocks handed out,
    each size given to [buddy_realloc] being above zero and, with a
    header, at most [2^64], once every block handed out has been freed:
    the free list of the top order holds one block, at the base of the
    mapping, tagged available with the top order; all other lists are
    empty; and every byte of the arena is free. *)
Theorem freeing_everything_restores_the_arena (st : state)
    (R : gset (Z * Z)) :
  arena_in_use st R -> R = ∅ ->
  free_list st (kval_m (pool st)) [arena_base st] /\
  (forall i, 0 <= i < MAX_K -> i <> kval_m (pool st) -> free_list st i []) /\
  hdr_is st (arena_base st) BLOCK_AVAIL (kval_m (pool st)) /\
  free_bytes st = numbytes (pool st).
Proof.
  intros Hre ->. apply arena_in_use_reachable in Hre.
  destruct (arena_reachable_coalesced Hsane st ∅ Hre) as (F & Hok & Hco).
  destruct (coalesced_all_free Hsane st F Hok Hco) as [Htop Hrest].
  pose proof (inv_kval_m _ _ _ _ Hok) as Hm.
  split; [rewrite <- Htop; apply (inv_lists _ _ _ _ Hok _ Hm)|].
  split.
  { intros i Hi Hne. rewrite <- (Hrest i Hi Hne).
    apply (inv_lists _ _ _ _ Hok i Hi). }
  split.
  { apply (inv_free _ _ _ _ Hok _ _ Hm). rewrite Htop. left. }
  pose proof (arena_reachable_bytes Hsane st ∅ Hre) as Hb.
  rewrite reserved_bytes_empty in Hb. lia.
Qed.

(** X17. Coalescing is never left undone: in every state reached from a
    successful [buddy_init] by calls of [buddy_malloc], and by calls of
    [buddy_free] and [buddy_realloc] on blocks handed out, each size given
    to [buddy_realloc] being above zero and, with a header, at most
    [2^64], no block on the free list of an order below the top has its
    buddy on that list too. *)
Theorem free_buddies_never_coexist (st : state) (R : gset (Z * Z))
    (k a : Z) :
  arena_in_use st R ->
  0 <= k < kval_m (pool st) ->
  Mem a ∈ free_list_nodes st k ->
  Mem (buddy_of (arena_base st) a k) ∉ free_list_nodes st k.
Proof.
  intros Hre Hk Ha. apply arena_in_use_reachable in Hre.
  destruct (arena_reachable_coalesced Hsane st R Hre) as (F & Hok & Hco).
  pose proof (inv_kval_m _ _ _ _ Hok) as Hm.
  rewrite (free_list_nodes_ok st F R None k Hok) in * by lia.
  apply list_elem_of_fmap in Ha as (x & [= <-] & Hx).
  intros Hb. apply list_elem_of_fmap in Hb as (y & [= <-] & Hy).
  apply (Hco k a Hk Hx Hy).
Qed.

(** X18. No byte is lost or counted twice: in every state reached from
    a successful [buddy_init] by calls of [buddy_malloc], and by calls of
    [buddy_free] and [buddy_realloc] on blocks handed out, each size given
    to [buddy_realloc] being above zero and, with a header, at most
    [2^64], the bytes on the free lists and the bytes of the blocks handed
    out add up to the size of the arena. *)
Theorem free_and_reserved_bytes_add_up (st : state) (R : gset (Z * Z)) :
  arena_in_use st R ->
  free_bytes st + reserved_bytes R = numbytes (pool st).
Proof.
  intros Hre. apply (arena_reachable_bytes Hsane).
  apply arena_in_use_reachable, Hre.
Qed.

(** X19. Calls on a pool that is used as intended go through: in every
    state reached from a successful [buddy_init] by calls of
    [buddy_malloc], and by calls of [buddy_free] and [buddy_realloc] on
    blocks handed out, each size given to [buddy_realloc] being above zero
    and, with a header, at most [2^64], the next call has a defined
    result when it is [buddy_malloc] with any size, [buddy_free] on a
    block handed out and not freed since, or [buddy_realloc] on such a
    block with a size that, with a header, is at most [2^64]: it reads and
    writes inside the pool object and the mapping only, copies between
    ranges that lie apart, and shifts by less than 64 bits. *)
Theorem calls_on_reachable_pool_are_defined (st : state) (R : gset (Z * Z)) :
  arena_in_use st R ->
  (forall size, is_Some (buddy_malloc st ThePool size)) /\
  (forall a k, (a, k) ∈ R ->
     is_Some (buddy_free st ThePool (Mem (a + sizeof_avail)))) /\
  (forall a k size, (a, k) ∈ R ->
     0 <= size -> size + sizeof_avail <= 2 ^ 64 ->
     is_Some (buddy_realloc st ThePool (Mem (a + sizeof_avail)) size)).
Proof.
  intros Hre. apply arena_in_use_reachable in Hre.
  destruct (arena_reachable_ok Hsane st R Hre) as [F Hok].
  split; [|split].
  - intros size. destruct (decide (size = 0)) as [->|Hz].
    { unfold buddy_malloc. simpl. eauto. }
    destruct (buddy_malloc_ok Hsane st F R size Hok Hz)
      as [[_ E]|(_ & _ & a & st' & F' & E & _)]; rewrite E; eauto.
  - intros a k Hr.
    destruct (buddy_free_ok Hsane st F R a k Hok Hr) as (st' & F' & E & _).
    rewrite E. eauto.
  - intros a k size Hr Hs Hno.
    apply (buddy_realloc_defined Hsane st F R a k size Hok Hr Hs Hno).
Qed.

(** X20. The blocks handed out stay intact and apart: in every state
    reached from a successful [buddy_init] by calls of [buddy_malloc], and
    by calls of [buddy_free] and [buddy_realloc] on blocks handed out,
    each size given to [buddy_realloc] being above zero and, with a
    header, at most [2^64], each block handed out and not freed since
    still has its header tagged reserved with its order, lies in the arena
    at a multiple of its size from the base, and shares no byte with any
    other such block. *)
Theorem outstanding_blocks_stay_apart (st : state) (R : gset (Z * Z)) :
  arena_in_use st R ->
  (forall a k, (a, k) ∈ R ->
     hdr_is st a BLOCK_RESERVED k /\
     SMALLEST_K <= k <= kval_m (pool st) /\
     aligned (arena_base st) a k /\
     arena_base st <= a /\
     a + 2 ^ k <= arena_base st + numbytes (pool st)) /\
  (forall a k a' k', (a, k) ∈ R -> (a', k') ∈ R -> (a, k) <> (a', k') ->
     a + 2 ^ k <= a' \/ a' + 2 ^ k' <= a).
Proof.
  intros Hre. apply arena_in_use_reachable in Hre.
  destruct (arena_reachable_ok Hsane st R Hre) as [F Hok]. split.
  - intros a k Hr.
    pose proof (live_reserved F R None a k Hr) as Hl.
    destruct (inv_live_range Hsane _ _ _ _ Hok a k Hl) as (_ & Hal & Hlo & Hhi).
    rewrite (inv_numbytes _ _ _ _ Hok).
    split; [apply (inv_reserved _ _ _ _ Hok a k Hr)|].
    split; [apply (inv_live_order Hsane _ _ _ _ Hok a k Hl)|].
    auto.
  - intros a k a' k' Hr Hr' Hne.
    destruct (decide (a + 2 ^ k <= a')) as [|Hn1]; [left; assumption|].
    destruct (decide (a' + 2 ^ k' <= a)) as [|Hn2]; [right; assumption|].
    exfalso. apply Hne.
    destruct (tiles_disj _ _ _ (inv_tiles _ _ _ _ Hok) a k a' k'
                (live_reserved F R None a k Hr)
                (live_reserved F R None a' k' Hr')) as [-> ->];
      [unfold overlap; lia|reflexivity].
Qed.


End HistoryExtras.

(** The small arena and the states after it, as states of a pool in
    use. *)
Lemma demo_arena_in_use : @arena_in_use lab_h demo_arena ∅.
Proof.
  apply (@use_init lab_h blank_state 1 4096 demo_arena).
  - reflexivity.
  - lia.
  - vm_compute. discriminate.
  - exact demo_arena_eq.
Qed.

Lemma demo_alloc_in_use :
  @arena_in_use lab_h (snd demo_alloc) ({[(4096, 7)]} ∪ ∅).
Proof.
  apply (@use_malloc lab_h demo_arena ∅ 100 (Mem 4120) (snd demo_alloc)
           demo_arena_in_use).
  exact demo_alloc_eq.
Qed.

Lemma demo_freed_in_use :
  @arena_in_use lab_h demo_freed (({[(4096, 7)]} ∪ ∅) ∖ {[(4096, 7)]}).
Proof.
  apply (@use_free lab_h (snd demo_alloc) _ 4096 7 demo_freed
           demo_alloc_in_use).
  - apply elem_of_union. left. apply elem_of_singleton. reflexivity.
  - exact demo_freed_eq.
Qed.

Lemma demo_alloc2_in_use :
  @arena_in_use lab_h (snd demo_alloc2)
    ({[(4224, 7)]} ∪ ({[(4096, 7)]} ∪ ∅)).
Proof.
  apply (@use_malloc lab_h (snd demo_alloc) _ 100 (Mem 4248)
           (snd demo_alloc2) demo_alloc_in_use).
  exact demo_alloc2_eq.
Qed.

Lemma demo_moved_in_use :
  @arena_in_use lab_h (snd demo_moved)
    (({[(4352, 8)]} ∪ ({[(4224, 7)]} ∪ ({[(4096, 7)]} ∪ ∅))) ∖ {[(4096, 7)]}).
Proof.
  apply (@use_realloc lab_h (snd demo_alloc2) _ 4096 7 200 (Mem 4376)
           (snd demo_moved) demo_alloc2_in_use).
  - apply elem_of_union. right. apply elem_of_union. left.
    apply elem_of_singleton. reflexivity.
  - lia.
  - vm_compute. discriminate.
  - vm_compute. reflexivity.
Qed.

Lemma freeing_everything_restores_the_arena_witness :
  @free_list lab_h demo_freed (kval_m (pool demo_freed))
    [@arena_base demo_freed] /\
  (forall i, 0 <= i < @MAX_K lab_h -> i <> kval_m (pool demo_freed) ->
     @free_list lab_h demo_freed i []) /\
  @hdr_is lab_h demo_freed (@arena_base demo_freed) (@BLOCK_AVAIL lab_h)
    (kval_m (pool demo_freed)) /\
  @free_bytes lab_h demo_freed = numbytes (pool demo_freed).
Proof.
  apply (@freeing_everything_restores_the_arena lab_h lab_h_is_sane demo_freed
           _ demo_freed_in_use).
  apply leibniz_equiv. intros x. split.
  - intros Hx. apply elem_of_difference in Hx as [Hx Hnx].
    apply elem_of_union in Hx as [Hx|Hx]; [contradiction|exact Hx].
  - intros Hx. apply elem_of_empty in Hx. contradiction.
Defined.

Lemma free_buddies_never_coexist_witness :
  Mem (buddy_of (@arena_base (snd demo_alloc)) 4224 7) ∉
    @free_list_nodes lab_h (snd demo_alloc) 7.
Proof.
  apply (@free_buddies_never_coexist lab_h lab_h_is_sane (snd demo_alloc) _ 7
           4224 demo_alloc_in_use).
  - vm_compute. split; [discriminate|reflexivity].
  - vm_compute. left.
Defined.

Lemma free_and_reserved_bytes_add_up_witness :
  @free_bytes lab_h (snd demo_moved) +
    reserved_bytes
      (({[(4352, 8)]} ∪ ({[(4224, 7)]} ∪ ({[(4096, 7)]} ∪ ∅))) ∖
       {[(4096, 7)]}) =
  numbytes (pool (snd demo_moved)).
Proof.
  apply (@free_and_reserved_bytes_add_up lab_h lab_h_is_sane (snd demo_moved)
           _ demo_moved_in_use).
Defined.

Lemma calls_on_reachable_pool_are_defined_witness :
  (forall size, is_Some (@buddy_malloc lab_h (snd demo_alloc2) ThePool size)) /\
  (forall a k, (a, k) ∈ ({[(4224, 7)]} ∪ ({[(4096, 7)]} ∪ ∅) : gset (Z * Z)) ->
     is_Some (@buddy_free lab_h (snd demo_alloc2) ThePool
                (Mem (a + @sizeof_avail lab_h)))) /\
  (forall a k size,
     (a, k) ∈ ({[(4224, 7)]} ∪ ({[(4096, 7)]} ∪ ∅) : gset (Z * Z)) ->
     0 <= size -> size + @sizeof_avail lab_h <= 2 ^ 64 ->
     is_Some (@buddy_realloc lab_h (snd demo_alloc2) ThePool
                (Mem (a + @sizeof_avail lab_h)) size)).
Proof.
  apply (@calls_on_reachable_pool_are_defined lab_h lab_h_is_sane
           (snd demo_alloc2) _ demo_alloc2_in_use).
Defined.

Lemma outstanding_blocks_stay_apart_witness :
  (forall a k,
     (a, k) ∈ (({[(4352, 8)]} ∪ ({[(4224, 7)]} ∪ ({[(4096, 7)]} ∪ ∅))) ∖
        {[(4096, 7)]} : gset (Z * Z)) ->
     @hdr_is lab_h (snd demo_moved) a (@BLOCK_RESERVED lab_h) k /\
     @SMALLEST_K lab_h <= k <= kval_m (pool (snd demo_moved)) /\
     aligned (@arena_base (snd demo_moved)) a k /\
     @arena_base (snd demo_moved) <= a /\
     a + 2 ^ k <=
       @arena_base (snd demo_moved) + numbytes (pool (snd demo_moved))) /\
  (forall a k a' k',
     (a, k) ∈ (({[(4352, 8)]} ∪ ({[(4224, 7)]} ∪ ({[(4096, 7)]} ∪ ∅))) ∖
        {[(4096, 7)]} : gset (Z * Z)) ->
     (a', k') ∈ (({[(4352, 8)]} ∪ ({[(4224, 7)]} ∪ ({[(4096, 7)]} ∪ ∅))) ∖
        {[(4096, 7)]} : gset (Z * Z)) ->
     (a, k) <> (a', k') ->
     a + 2 ^ k <= a' \/ a' + 2 ^ k' <= a).
Proof.
  apply (@outstanding_blocks_stay_apart lab_h lab_h_is_sane (snd demo_moved)
           _ demo_moved_in_use).
Defined.

(** ** Resizing next to other blocks *)

Section ReallocExtras.
Context {cfg : LabH}.
Hypothesis Hsane : lab_h_sane.

(** X22. [buddy_realloc] next to other blocks.  Blocks start at
    multiples of [2^SMALLEST_K] from the base, and these are the addresses
    where headers are read.  For a reserved block and a new size above
    zero that, with a header, is at most [2^64], whichever way the call
    goes (same pointer, failure, or a new block): the header read at such
    an address is the one read before the call unless the address lies
    within a block that was on a free list or is the start of the resized
    block; so within every other reserved block, the header read at its
    start, or at any such address inside it, is unchanged; and no payload
    byte of any block reserved before the call has changed, those of the
    resized block included. *)
Theorem buddy_realloc_spares_reserved_blocks (st : state) (F : Z -> list Z)
    (R : gset (Z * Z)) (a k size : Z) (p : ptr) (st' : state) :
  arena_ok st F R -> (a, k) ∈ R ->
  0 < size -> size + sizeof_avail <= 2 ^ 64 ->
  buddy_realloc st ThePool (Mem (a + sizeof_avail)) size = Some (p, st') ->
  (forall y, aligned (arena_base st) y SMALLEST_K ->
     y <> a -> ~ in_free_block F y ->
     load st' (Mem y) = load st (Mem y)) /\
  (forall a0 k0 y, (a0, k0) ∈ R -> (a0, k0) <> (a, k) ->
     aligned (arena_base st) y SMALLEST_K -> a0 <= y < a0 + 2 ^ k0 ->
     load st' (Mem y) = load st (Mem y)) /\
  (forall a0 k0 x, (a0, k0) ∈ R -> a0 + sizeof_avail <= x < a0 + 2 ^ k0 ->
     payload st' x = payload st x).
Proof.
  intros Hok Hr Hsize Hno E. use_sane Hsane.
  pose proof (live_reserved F R None a k Hr) as Hlive.
  pose proof (inv_live_order Hsane _ _ _ _ Hok a k Hlive) as Hk.
  pose proof (inv_kval_m _ _ _ _ Hok) as Hm.
  assert (Hboth : (forall y, y <> a -> ~ in_free_block F y ->
                 load st' (Mem y) = load st (Mem y)) /\
              (forall a0 k0 x, (a0, k0) ∈ R ->
                 a0 + sizeof_avail <= x < a0 + 2 ^ k0 ->
                 payload st' x = payload st x)).
  { destruct (buddy_realloc_steps Hsane st F R a k size p st' Hok Hr Hsize E)
      as [(_ & -> & ->)|[(_ & -> & E1)|(Hgrow & a' & st1 & -> & E1 & E3)]];
      [auto|..];
      destruct (buddy_malloc_lists Hsane st F R size Hok ltac:(lia))
        as [[_ E1']|(i & a1 & l & st1' & Hi & _ & HF & E1' & Hfr1 & Hok1 & Hnew
                     & Hld1)];
      rewrite E1' in E1; try discriminate.
    { injection E1 as <-. auto. }
    injection E1 as Ea Est. subst st1'. assert (a1 = a') by lia. subst a1.
    clear Ea.
    set (st2 := set_payload _ st1) in E3.
    set (R1 := ({[(a', btok size)]} ∪ R : gset (Z * Z))) in *.
    assert (Hok2 : arena_ok st2 (split_lists (<[i := l]> F) a' (btok size) i) R1)
      by (apply arena_inv_payload, Hok1).
    assert (Hr1 : (a, k) ∈ R1) by (apply elem_of_union; right; exact Hr).
    destruct (buddy_free_lists Hsane st2 _ R1 a k Hok2 Hr1)
      as (st3 & F3 & a3 & k3 & E3' & Hfr3 & _ & _ & _ & _ & _ & _ & Hld3).
    rewrite E3' in E3. injection E3 as <-.
    assert (Hbt : SMALLEST_K <= btok size <= MAX_K - 1)
      by (apply btok_bounds; lia).
    split.
    - intros y Hya Hy. rewrite Hld3; [apply Hld1, Hy|exact Hya|].
      intros Hin. apply Hy.
      apply (in_free_block_split F i a' l (btok size) y); [lia|exact HF|lia|exact Hin].
    - intros a0 k0 x Hr0 Hx.
      destruct Hfr3 as (_ & _ & _ & _ & -> & _). subst st2. simpl.
      destruct Hfr1 as (Hkm1 & _ & _ & _ & -> & _).
      assert (Hkk : k <= btok size) by (apply btok_at_least; lia).
      assert (Hmono : 2 ^ k <= 2 ^ btok size) by (apply pow2_le_mono; lia).
      destruct (Z.leb_spec (a' + sizeof_avail) x) as [Hx1|]; [|reflexivity].
      destruct (Z.ltb_spec x (a' + sizeof_avail + (2 ^ k - sizeof_avail)))
        as [Hx2|]; [|reflexivity].
      exfalso.
      assert (Hr01 : (a0, k0) ∈ R1) by (apply elem_of_union; right; exact Hr0).
      assert (Hn1 : (a', btok size) ∈ R1).
      { apply elem_of_union. left. apply elem_of_singleton. reflexivity. }
      destruct (tiles_disj _ _ _ (inv_tiles _ _ _ _ Hok1) a' (btok size) a0 k0
                  (live_reserved _ R1 None _ _ Hn1)
                  (live_reserved _ R1 None _ _ Hr01)) as [Ea Ek].
      + unfold overlap. lia.
      + rewrite <- Ea, <- Ek in Hr0. apply (Hnew (btok size) Hr0). }
  destruct Hboth as [Hld Hpay].
  split; [intros y _; apply Hld|]. split; [|exact Hpay].
  intros a0 k0 y Hr0 Hne _ Hy.
  assert (Ht : touches y a0 k0) by (unfold touches; lia).
  apply Hld.
  - intros ->. eapply (reserved_start_apart Hsane st F R a k a0 k0); eassumption.
  - eapply reserved_not_in_free_block; eassumption.
Qed.

(** X23. With a null pool [buddy_realloc] writes nothing: whatever the
    pointer and the size, the state is the one before the call, and the
    call returns NULL or, when the size fits the block the pointer's
    header describes, the pointer itself. *)
Theorem buddy_realloc_null_pool_changes_nothing (st : state) (p : ptr)
    (size : Z) (q : ptr) (st' : state) :
  buddy_realloc st NullPool p size = Some (q, st') ->
  st' = st /\ (q = NULL \/ q = p).
Proof.
  unfold buddy_realloc. intros E.
  destruct (decide (p = NULL)) as [->|Hp].
  { simpl in E. injection E as <- <-. auto. }
  destruct (size =? 0).
  { simpl in E. injection E as <- <-. auto. }
  destruct (avail_pred p) as [block|]; [|discriminate].
  cbn [mbind option_bind] in E.
  destruct (load st block) as [h|]; [|discriminate].
  cbn [mbind option_bind] in E.
  destruct (shl1 (kval h)) as [bsz|]; [|discriminate].
  cbn [mbind option_bind] in E.
  destruct (size <=? wrap (bsz - sizeof_avail)).
  { injection E as <- <-. auto. }
  simpl in E. destruct (decide (NULL = NULL)); [|contradiction].
  injection E as <- <-. auto.
Qed.

End ReallocExtras.

Lemma buddy_realloc_spares_reserved_blocks_witness :
  exists p st',
    @buddy_realloc lab_h (snd demo_alloc2) ThePool (Mem (4096 + 24)) 200 =
      Some (p, st') /\
    @load lab_h st' (Mem 4224) = @load lab_h (snd demo_alloc2) (Mem 4224) /\
    @load lab_h st' (Mem 4288) = @load lab_h (snd demo_alloc2) (Mem 4288) /\
    (forall x, 4224 + 24 <= x < 4224 + 2 ^ 7 ->
       payload st' x = payload (snd demo_alloc2) x) /\
    (forall x, 4096 + 24 <= x < 4096 + 2 ^ 7 ->
       payload st' x = payload (snd demo_alloc2) x).
Proof.
  destruct (arena_reachable_ok lab_h_is_sane _ _ demo_alloc2_reachable)
    as [F Hok].
  assert (Hr : (4096, 7) ∈
            ({[(4224, 7)]} ∪ ({[(4096, 7)]} ∪ ∅) : gset (Z * Z))).
  { apply elem_of_union. right. apply elem_of_union. left.
    apply elem_of_singleton. reflexivity. }
  assert (Hr0 : (4224, 7) ∈
            ({[(4224, 7)]} ∪ ({[(4096, 7)]} ∪ ∅) : gset (Z * Z))).
  { apply elem_of_union. left. apply elem_of_singleton. reflexivity. }
  destruct (@buddy_realloc lab_h (snd demo_alloc2) ThePool (Mem (4096 + 24)) 200)
    as [[p st']|] eqn:E.
  - exists p, st'. split; [reflexivity|].
    destruct (@buddy_realloc_spares_reserved_blocks lab_h lab_h_is_sane
                (snd demo_alloc2) F _ 4096 7 200 p st' Hok Hr ltac:(lia)
                ltac:(vm_compute; discriminate) E) as (_ & Hres & Hpay).
    split; [|split; [|split]].
    + apply (Hres 4224 7 _ Hr0); [congruence|vm_compute; reflexivity|lia].
    + apply (Hres 4224 7 _ Hr0); [congruence|vm_compute; reflexivity|lia].
    + intros x Hx. apply (Hpay 4224 7 x Hr0). exact Hx.
    + intros x Hx. apply (Hpay 4096 7 x Hr). exact Hx.
  - exfalso. revert E. vm_compute. discriminate.
Defined.

Lemma buddy_realloc_null_pool_changes_nothing_witness :
  snd demo_alloc = snd demo_alloc /\ (NULL = NULL \/ NULL = Mem 4120).
Proof.
  apply (@buddy_realloc_null_pool_changes_nothing lab_h (snd demo_alloc)
           (Mem 4120) 300 NULL (snd demo_alloc)).
  vm_compute. reflexivity.
Defined.
(** ** Resizing, case by case *)

Section ReallocCases.
Context {cfg : LabH}.

(** X24. Resizing a reserved block of order [k] at [p] to [size > 0]
    bytes, on a well-formed arena and with [size] plus the header within
    the 64-bit range.  When [size <= 2^k - sizeof_avail], the same pointer
    comes back and the state is untouched.  Otherwise [buddy_malloc(size)]
    is called: when it fails, NULL comes back and only [errno] has
    changed; when it gives a new block, which lies apart from the old one,
    [min(2^k - sizeof_avail, size)] bytes are copied from the old payload
    to the new one, the old block is freed, and the new pointer, different
    from the old one, comes back. *)
Theorem buddy_realloc_cases (st : state) (F : Z -> list Z) (R : gset (Z * Z))
    (a k size : Z) :
  lab_h_sane -> arena_ok st F R -> (a, k) ∈ R ->
  0 < size -> size + sizeof_avail <= 2 ^ 64 ->
  (size <= 2 ^ k - sizeof_avail ->
     buddy_realloc st ThePool (Mem (a + sizeof_avail)) size =
       Some (Mem (a + sizeof_avail), st)) /\
  (2 ^ k - sizeof_avail < size ->
     ((forall i, btok size <= i <= kval_m (pool st) -> F i = []) /\
      buddy_malloc st ThePool size = Some (NULL, set_errno ENOMEM st) /\
      buddy_realloc st ThePool (Mem (a + sizeof_avail)) size =
        Some (NULL, set_errno ENOMEM st)) \/
     (exists a' st1 st2 st3 F3,
        buddy_malloc st ThePool size = Some (Mem (a' + sizeof_avail), st1) /\
        memcpy st1 (Mem (a' + sizeof_avail)) (Mem (a + sizeof_avail))
          (Z.min (2 ^ k - sizeof_avail) size) = Some st2 /\
        buddy_free st2 ThePool (Mem (a + sizeof_avail)) = Some st3 /\
        buddy_realloc st ThePool (Mem (a + sizeof_avail)) size =
          Some (Mem (a' + sizeof_avail), st3) /\
        a' <> a /\
        (forall j, 0 <= j < Z.min (2 ^ k - sizeof_avail) size ->
           payload st3 (a' + sizeof_avail + j) =
           payload st (a + sizeof_avail + j)) /\
        arena_ok st3 F3 (({[(a', btok size)]} ∪ R) ∖ {[(a, k)]}))).
Proof.
  intros Hsane Hok Hr Hsize Hno. use_sane Hsane.
  pose proof (live_reserved F R None a k Hr) as Hlive.
  pose proof (inv_live_order Hsane _ _ _ _ Hok a k Hlive) as Hk.
  destruct (inv_live_range Hsane _ _ _ _ Hok a k Hlive) as (Hkr & _ & Hlo & Hhi).
  pose proof (inv_kval_m _ _ _ _ Hok) as Hm.
  destruct (inv_base _ _ _ _ Hok) as (Hb & Hbpos & Htop).
  pose proof (hdr_fits Hsane k ltac:(lia)) as Hhdr.
  pose proof (inv_reserved _ _ _ _ Hok a k Hr) as Hmeta.
  destruct (meta_load _ _ _ _ Hmeta) as (h & Hh & _ & Hhk).
  assert (Hk64 : 2 ^ k < 2 ^ 64) by (apply pow2_lt_mono; lia).
  assert (Hhead : forall (K : Z -> option (ptr * state)),
            buddy_realloc st ThePool (Mem (a + sizeof_avail)) size =
            if size <=? 2 ^ k - sizeof_avail
            then Some (Mem (a + sizeof_avail), st)
            else
              '(new_ptr, st1) ← buddy_malloc st ThePool size;
              if decide (new_ptr = NULL) then Some (NULL, st1)
              else
                st2 ← memcpy st1 new_ptr (Mem (a + sizeof_avail))
                        (2 ^ k - sizeof_avail);
                st3 ← buddy_free st2 ThePool (Mem (a + sizeof_avail));
                Some (new_ptr, st3)).
  { intros _. unfold buddy_realloc.
    destruct (decide (Mem (a + sizeof_avail) = NULL)); [discriminate|].
    destruct (Z.eqb_spec size 0); [lia|].
    cbn [avail_pred mbind option_bind].
    replace (a + sizeof_avail - sizeof_avail) with a by lia.
    rewrite Hh. cbn [mbind option_bind]. rewrite Hhk, shl1_pow by lia.
    cbn [mbind option_bind]. rewrite wrap_small by lia. reflexivity. }
  specialize (Hhead (fun _ => None)).
  split.
  - intros Hfits. rewrite Hhead.
    destruct (Z.leb_spec size (2 ^ k - sizeof_avail)); [reflexivity|lia].
  - intros Hgrow. rewrite Hhead.
    destruct (Z.leb_spec size (2 ^ k - sizeof_avail)) as [|_]; [lia|].
    rewrite Z.min_l by lia.
    destruct (buddy_malloc_ok Hsane st F R size Hok ltac:(lia))
      as [[Hemp E]|(Hkk & _ & a' & st1 & F1 & E & Hfr1 & Hnew & Hok1 & _)].
    { left. split; [exact Hemp|]. split; [exact E|]. rewrite E. simpl.
      reflexivity. }
    right. rewrite E. cbn [mbind option_bind].
    destruct (decide (Mem (a' + sizeof_avail) = NULL)); [discriminate|].
    assert (Hkk' : k <= btok size) by (apply btok_at_least; lia).
    assert (Hlive1 : live F1 ({[(a', btok size)]} ∪ R) None a' (btok size)).
    { left. apply elem_of_union. left. apply elem_of_singleton. reflexivity. }
    destruct (inv_live_range Hsane _ _ _ _ Hok1 a' (btok size) Hlive1)
      as (_ & _ & Hlo' & Hhi').
    pose proof (arena_base_frame _ _ Hfr1) as Hbase1.
    pose proof Hfr1 as (Hkm1 & Hnb1 & Hb1 & _ & Hpay1 & _).
    rewrite Hbase1, Hkm1 in Hhi'. rewrite Hbase1 in Hlo'.
    assert (Hmono : 2 ^ k <= 2 ^ btok size) by (apply pow2_le_mono; lia).
    pose proof (inv_numbytes _ _ _ _ Hok) as Hnb.
    assert (Emc := memcpy_ok st1 (arena_base st) (a' + sizeof_avail)
                     (a + sizeof_avail) (2 ^ k - sizeof_avail)).
    rewrite Hb1, Hnb1, Hnb in Emc.
    assert (Hne : a <> a') by (intros ->; apply (Hnew k Hr)).
    assert (Hr1 : (a, k) ∈ ({[(a', btok size)]} ∪ R : gset (Z * Z)))
      by (apply elem_of_union; right; exact Hr).
    pose proof (live_apart _ _ _ a k a' (btok size) Hsane Hok1
                  (live_reserved _ _ None a k Hr1) Hlive1 Hne) as Hapart.
    specialize (Emc Hb ltac:(lia) ltac:(lia) ltac:(lia) ltac:(lia)
                  ltac:(lia)).
    set (st2 := set_payload _ st1) in Emc.
    rewrite Emc. cbn [mbind option_bind].
    assert (Hok2 : arena_ok st2 F1 ({[(a', btok size)]} ∪ R))
      by (apply arena_inv_payload, Hok1).
    destruct (buddy_free_ok Hsane st2 F1 _ a k Hok2 Hr1)
      as (st3 & F3 & E3 & Hfr3 & Hok3 & _).
    rewrite E3. cbn [mbind option_bind].
    exists a', st1, st2, st3, F3.
    split; [reflexivity|]. split; [exact Emc|]. split; [exact E3|].
    split; [reflexivity|].
    split; [intros ->; apply Hne; reflexivity|].
    split; [|exact Hok3].
    intros j Hj. destruct Hfr3 as (_ & _ & _ & _ & Hpay3 & _).
    rewrite Hpay3. subst st2. simpl.
    destruct (Z.leb_spec (a' + sizeof_avail) (a' + sizeof_avail + j)); [|lia].
    destruct (Z.ltb_spec (a' + sizeof_avail + j)
                (a' + sizeof_avail + (2 ^ k - sizeof_avail))); [|lia].
    simpl. rewrite Hpay1. f_equal. lia.
Qed.

End ReallocCases.

Lemma buddy_realloc_cases_witness :
  @buddy_realloc lab_h (snd demo_alloc2) ThePool (Mem (4096 + 24)) 104 =
    Some (Mem (4096 + 24), snd demo_alloc2) /\
  exists st1 st2 st3,
    @buddy_malloc lab_h (snd demo_alloc2) ThePool 200 =
      Some (Mem (4352 + 24), st1) /\
    memcpy st1 (Mem (4352 + 24)) (Mem (4096 + 24)) 104 = Some st2 /\
    @buddy_free lab_h st2 ThePool (Mem (4096 + 24)) = Some st3 /\
    @buddy_realloc lab_h (snd demo_alloc2) ThePool (Mem (4096 + 24)) 200 =
      Some (Mem (4352 + 24), st3) /\
    (forall j, 0 <= j < 104 ->
       payload st3 (4352 + 24 + j) = payload (snd demo_alloc2) (4096 + 24 + j)).
Proof.
  destruct (arena_reachable_ok lab_h_is_sane _ _ demo_alloc2_reachable)
    as [F Hok].
  assert (Hr : (4096, 7) ∈
            ({[(4224, 7)]} ∪ ({[(4096, 7)]} ∪ ∅) : gset (Z * Z))).
  { apply elem_of_union. right. apply elem_of_union. left.
    apply elem_of_singleton. reflexivity. }
  split.
  - apply (@buddy_realloc_cases lab_h (snd demo_alloc2) F _ 4096 7 104
             lab_h_is_sane Hok Hr); [lia|vm_compute; discriminate|].
    vm_compute. discriminate.
  - destruct (@buddy_realloc_cases lab_h (snd demo_alloc2) F _ 4096 7 200
                lab_h_is_sane Hok Hr ltac:(lia)
                ltac:(vm_compute; discriminate)) as [_ Hgrow].
    destruct Hgrow as [(_ & E & _)|(a' & st1 & st2 & st3 & F3 & E1 & E2 & E3
                                    & E4 & _ & Hpay & _)].
    + reflexivity.
    + exfalso. revert E. vm_compute. discriminate.
    + assert (Ea : a' = 4352).
      { pose proof (f_equal (fun r => fst <$> r) E1) as E'.
        change (Some (Mem 4376) = Some (Mem (a' + 24))) in E'.
        injection E' as E'. lia. }
      subst a'. exists st1, st2, st3.
      split; [exact E1|]. split; [exact E2|]. split; [exact E3|].
      split; [exact E4|]. exact Hpay.
Defined.
